(** * casstcl: statement construction, paginated select and column listing

    A shallow embedding of [generic/casstcl_cassandra.c]:
    - [casstcl_make_upsert_statement]  (the upsert statement builder),
    - [casstcl_select]                 (the paginated query executor),
    - [casstcl_list_columns]           (the schema introspector),
    together with the part of the Tcl C API and of the Cassandra cpp-driver
    API these three functions go through; then the functions around them:
    - [casstcl_make_upsert_statement_from_objv] (the builder's command line),
    - [casstcl_list_keyspaces], [casstcl_list_tables],
    - [casstcl_make_statement_from_objv] (the statement of a command line),
    - [casstcl_cassObjCmd]             (the command that makes cass objects). *)

From Stdlib Require Import ZArith Lia Ascii.
From stdpp Require Import base decidable option list strings gmap pretty.

(** ** The Tcl side *)

(** Completion codes of the Tcl C API.  Codes other than these five are
    treated by the three functions exactly as [TCL_RETURN] is (they are
    compared against [TCL_OK], [TCL_ERROR], [TCL_BREAK] and [TCL_CONTINUE]
    only). *)
Inductive tcl_code := TCL_OK | TCL_ERROR | TCL_RETURN | TCL_BREAK | TCL_CONTINUE.

#[global] Instance tcl_code_eq_dec : EqDecision tcl_code.
Proof. solve_decision. Defined.

(** A [Tcl_Obj] is used through its string representation only. *)
Definition Tcl_Obj := string.

(** A Tcl variable is a scalar or an array of elements. *)
Inductive Tcl_Var :=
| ScalarVar (value : Tcl_Obj)
| ArrayVar (elements : gmap string Tcl_Obj).

(** The part of the interpreter the three functions read or write: the
    result, the error line and error info left by a failed evaluation, and
    the variables. *)
Record Tcl_Interp := mkInterp {
  result : string;
  errorLine : Z;
  errorInfo : string;
  vars : gmap string Tcl_Var
}.

Definition set_result (s : string) (interp : Tcl_Interp) : Tcl_Interp :=
  mkInterp s (errorLine interp) (errorInfo interp) (vars interp).

Definition set_vars (vs : gmap string Tcl_Var) (interp : Tcl_Interp) : Tcl_Interp :=
  mkInterp (result interp) (errorLine interp) (errorInfo interp) vs.

Definition Tcl_ResetResult (interp : Tcl_Interp) : Tcl_Interp :=
  set_result "" interp.

(** [Tcl_AppendResult (interp, s1, ..., sn, NULL)] *)
Definition Tcl_AppendResult (interp : Tcl_Interp) (pieces : list string) : Tcl_Interp :=
  set_result (result interp +:+ String.concat "" pieces) interp.

Definition Tcl_AddErrorInfo (interp : Tcl_Interp) (msg : string) : Tcl_Interp :=
  mkInterp (result interp) (errorLine interp) (errorInfo interp +:+ msg) (vars interp).

Definition Tcl_GetErrorLine (interp : Tcl_Interp) : Z := errorLine interp.

(** [Tcl_SetVar2Ex (interp, name1, name2, obj, TCL_LEAVE_ERR_MSG)]: [None]
    is the NULL it returns when [name1] is a scalar; the message is then left
    in the result. *)
Definition Tcl_SetVar2Ex (interp : Tcl_Interp) (name1 name2 : string) (obj : Tcl_Obj)
  : option Tcl_Interp :=
  match vars interp !! name1 with
  | None => Some (set_vars (<[name1 := ArrayVar {[name2 := obj]}]> (vars interp)) interp)
  | Some (ArrayVar elems) =>
      Some (set_vars (<[name1 := ArrayVar (<[name2 := obj]> elems)]> (vars interp)) interp)
  | Some (ScalarVar _) => None
  end.

(** The double quote and the newline, as one-character strings. *)
Definition dquote : string := String (Ascii.ascii_of_nat 34) EmptyString.
Definition newline : string := String (Ascii.ascii_of_nat 10) EmptyString.

Definition Tcl_SetVar2Ex_error (interp : Tcl_Interp) (name1 name2 : string) : Tcl_Interp :=
  set_result
    ("can't set " +:+ dquote +:+ name1 +:+ "(" +:+ name2 +:+ ")" +:+ dquote +:+
     ": variable isn't array") interp.

(** [Tcl_UnsetVar2 (interp, name1, name2, 0)]: a missing variable or element
    is not reported (flags 0 leave no message). *)
Definition Tcl_UnsetVar2 (interp : Tcl_Interp) (name1 name2 : string) : Tcl_Interp :=
  match vars interp !! name1 with
  | Some (ArrayVar elems) =>
      set_vars (<[name1 := ArrayVar (delete name2 elems)]> (vars interp)) interp
  | _ => interp
  end.

(** [Tcl_UnsetVar (interp, name, 0)] *)
Definition Tcl_UnsetVar (interp : Tcl_Interp) (name : string) : Tcl_Interp :=
  set_vars (delete name (vars interp)) interp.

(** [Tcl_GetVar2Ex (interp, name1, name2, TCL_GLOBAL_ONLY)] *)
Definition Tcl_GetVar2Ex (interp : Tcl_Interp) (name1 name2 : string) : option Tcl_Obj :=
  match vars interp !! name1 with
  | Some (ArrayVar elems) => elems !! name2
  | _ => None
  end.

(** A [Tcl_DString] is the string built so far; [Tcl_DStringAppend] is
    always called with the exact length of its argument (or -1). *)
Definition Tcl_DString := string.
Definition Tcl_DStringInit : Tcl_DString := "".
Definition Tcl_DStringAppend (ds : Tcl_DString) (s : string) : Tcl_DString := ds +:+ s.

(** A C [assert] that fails aborts the process instead of returning. *)
Inductive outcome (A : Type) :=
| Returned (a : A)
| AssertionFailed (condition : string).
Arguments Returned {A} a.
Arguments AssertionFailed {A} condition.

(** ** The Cassandra driver side *)

Inductive CassValueType :=
| CASS_VALUE_TYPE_UNKNOWN | CASS_VALUE_TYPE_CUSTOM | CASS_VALUE_TYPE_ASCII
| CASS_VALUE_TYPE_BIGINT | CASS_VALUE_TYPE_BLOB | CASS_VALUE_TYPE_BOOLEAN
| CASS_VALUE_TYPE_COUNTER | CASS_VALUE_TYPE_DECIMAL | CASS_VALUE_TYPE_DOUBLE
| CASS_VALUE_TYPE_FLOAT | CASS_VALUE_TYPE_INT | CASS_VALUE_TYPE_TEXT
| CASS_VALUE_TYPE_TIMESTAMP | CASS_VALUE_TYPE_UUID | CASS_VALUE_TYPE_VARCHAR
| CASS_VALUE_TYPE_VARINT | CASS_VALUE_TYPE_TIMEUUID | CASS_VALUE_TYPE_INET
| CASS_VALUE_TYPE_LIST | CASS_VALUE_TYPE_MAP | CASS_VALUE_TYPE_SET.

#[global] Instance CassValueType_eq_dec : EqDecision CassValueType.
Proof. solve_decision. Defined.

(** [CASS_OK], or one of the driver's error codes. *)
Inductive CassError := CASS_OK | CASS_ERROR (code : positive).

#[global] Instance CassError_eq_dec : EqDecision CassError.
Proof. solve_decision. Defined.

Inductive CassConsistency :=
| CASS_CONSISTENCY_ANY | CASS_CONSISTENCY_ONE | CASS_CONSISTENCY_TWO
| CASS_CONSISTENCY_THREE | CASS_CONSISTENCY_QUORUM | CASS_CONSISTENCY_ALL
| CASS_CONSISTENCY_LOCAL_QUORUM | CASS_CONSISTENCY_EACH_QUORUM
| CASS_CONSISTENCY_SERIAL | CASS_CONSISTENCY_LOCAL_SERIAL
| CASS_CONSISTENCY_LOCAL_ONE.

Inductive CassCollectionType :=
| CASS_COLLECTION_TYPE_LIST | CASS_COLLECTION_TYPE_MAP | CASS_COLLECTION_TYPE_SET.

(** A [CassValue] as the accessors used here see it: [cass_value_type],
    [cass_value_is_null] and the bytes [cass_value_get_string] returns. *)
Record CassValue := mkValue {
  cass_value_type : CassValueType;
  cass_value_is_null : bool;
  cass_value_get_string : string
}.

(** [casstcl_cassTypeInfo]: the primary type of a column and, for
    collections, the one or two subtypes. *)
Record casstcl_cassTypeInfo := mkTypeInfo {
  cassValueType : CassValueType;
  valueSubType1 : CassValueType;
  valueSubType2 : CassValueType
}.

(** A collection under construction: its kind, the item count it was
    created for, and the items appended so far, each with the type it was
    converted as. *)
Record CassCollection := mkCollection {
  collection_type : CassCollectionType;
  item_count : nat;
  items : list (CassValueType * Tcl_Obj)
}.

Definition cass_collection_new (type : CassCollectionType) (count : nat) : CassCollection :=
  mkCollection type count [].

Inductive bound_value :=
| BoundValue (type : casstcl_cassTypeInfo) (value : Tcl_Obj)
| BoundCollection (collection : CassCollection).

(** A statement: the query text, the number of parameters it was created
    with, the consistency override, and the binds made on it, oldest first,
    each with its position. *)
Record CassStatement := mkStatement {
  query : string;
  parameter_count : nat;
  consistency : option CassConsistency;
  binds : list (nat * bound_value)
}.

Definition cass_statement_new (q : string) (n : nat) : CassStatement :=
  mkStatement q n None [].

Definition statement_bind (st : CassStatement) (index : nat) (b : bound_value) : CassStatement :=
  mkStatement (query st) (parameter_count st) (consistency st) (binds st ++ [(index, b)]).

Definition statement_set_consistency (st : CassStatement) (c : CassConsistency) : CassStatement :=
  mkStatement (query st) (parameter_count st) (Some c) (binds st).

(** ** What the three functions call outside this source file *)

(** Each field decides the completion code (or the message) of one of those
    calls; the effect of a successful call is written out below. *)
Class Collaborators := {
  (** [Tcl_ListObjGetElements]: the elements, or the message left on failure. *)
  Tcl_ListObjGetElements : Tcl_Obj -> list Tcl_Obj + string;
  (** [casstcl_typename_obj_to_cass_value_types table name]: the completion
      code and the descriptor stored through the out pointer. *)
  typename_types : string -> Tcl_Obj -> tcl_code * casstcl_cassTypeInfo;
  typename_message : string -> Tcl_Obj -> string;
  (** [cass_statement_set_consistency] *)
  consistency_error : CassConsistency -> CassError;
  (** [casstcl_bind_tcl_obj]: completion code for a value of a given type. *)
  bind_code : casstcl_cassTypeInfo -> Tcl_Obj -> tcl_code;
  bind_message : casstcl_cassTypeInfo -> Tcl_Obj -> string;
  casstcl_cass_value_type_to_string : CassValueType -> string;
  (** [casstcl_append_tcl_obj_to_collection] *)
  append_error : CassValueType -> Tcl_Obj -> CassError;
  (** [cass_statement_bind_collection] at a position *)
  bind_collection_error : nat -> CassCollection -> CassError;
  cass_error_message : CassError -> string;
  (** [casstcl_cass_value_to_tcl_obj]: the completion code and the object
      stored through the out pointer (it may stay NULL). *)
  value_to_obj : CassValue -> tcl_code * option Tcl_Obj;
  value_message : CassValue -> string;
  (** the Tcl procedure [::casstcl::validator_to_type], evaluated by
      [Tcl_EvalObjv]; its value is left in the result. *)
  validator_to_type : Tcl_Interp -> string -> tcl_code * Tcl_Interp
}.

Section Helpers.
Context `{Collaborators}.

(** Modelled from the spec: [casstcl_typename_obj_to_cass_value_types], the
    type resolver (4.1).  It returns [TCL_CONTINUE] for a column the table
    does not have, [TCL_ERROR] (with a message) when resolution fails. *)
Definition casstcl_typename_obj_to_cass_value_types
    (interp : Tcl_Interp) (table : string) (typenameObj : Tcl_Obj)
  : tcl_code * casstcl_cassTypeInfo * Tcl_Interp :=
  let '(rc, ti) := typename_types table typenameObj in
  (rc, ti,
   if decide (rc = TCL_ERROR) then set_result (typename_message table typenameObj) interp
   else interp).

(** Modelled from the spec: [casstcl_cass_error_to_tcl], which turns a driver
    error into a Tcl error carrying the driver's message (7). *)
Definition casstcl_cass_error_to_tcl (interp : Tcl_Interp) (cassError : CassError)
  : tcl_code * Tcl_Interp :=
  match cassError with
  | CASS_OK => (TCL_OK, interp)
  | _ => (TCL_ERROR, set_result (cass_error_message cassError) interp)
  end.

(** Modelled from the spec: [casstcl_setStatementConsistency], which applies
    the consistency-level override if one is supplied (4.3, step 5). *)
Definition casstcl_setStatementConsistency
    (interp : Tcl_Interp) (statement : CassStatement) (consistencyPtr : option CassConsistency)
  : tcl_code * Tcl_Interp * CassStatement :=
  match consistencyPtr with
  | None => (TCL_OK, interp, statement)
  | Some c =>
      match consistency_error c with
      | CASS_OK => (TCL_OK, interp, statement_set_consistency statement c)
      | e => let '(rc, interp) := casstcl_cass_error_to_tcl interp e in (rc, interp, statement)
      end
  end.

(** Modelled from the spec: [casstcl_bind_tcl_obj], the value binder (4.2):
    converts the value as its resolved type and binds it into the positional
    slot, or fails with a message. *)
Definition casstcl_bind_tcl_obj
    (interp : Tcl_Interp) (statement : CassStatement) (index : nat)
    (typeInfo : casstcl_cassTypeInfo) (obj : Tcl_Obj)
  : tcl_code * Tcl_Interp * CassStatement :=
  match bind_code typeInfo obj with
  | TCL_OK => (TCL_OK, interp, statement_bind statement index (BoundValue typeInfo obj))
  | rc => (rc, set_result (bind_message typeInfo obj) interp, statement)
  end.

(** Modelled from the spec: [casstcl_append_tcl_obj_to_collection], which
    converts one element as the given type and appends it (4.2). *)
Definition casstcl_append_tcl_obj_to_collection
    (collection : CassCollection) (valueType : CassValueType) (obj : Tcl_Obj)
  : CassError * CassCollection :=
  match append_error valueType obj with
  | CASS_OK =>
      (CASS_OK,
       mkCollection (collection_type collection) (item_count collection)
                    (items collection ++ [(valueType, obj)]))
  | e => (e, collection)
  end.

(** The driver's [cass_statement_bind_collection]. *)
Definition cass_statement_bind_collection
    (statement : CassStatement) (index : nat) (collection : CassCollection)
  : CassError * CassStatement :=
  match bind_collection_error index collection with
  | CASS_OK => (CASS_OK, statement_bind statement index (BoundCollection collection))
  | e => (e, statement)
  end.

End Helpers.

(** ** The upsert statement builder *)

Module Upsert.
Section Builder.
Context `{Collaborators}.

(** [listObjv[i]], [listObjv[i+1]] for [i = 0, 2, ...]; the list has an even
    number of elements wherever this is used. *)
Fixpoint pairs_of (listObjv : list Tcl_Obj) : list (Tcl_Obj * Tcl_Obj) :=
  match listObjv with
  | name :: value :: rest => (name, value) :: pairs_of rest
  | _ => []
  end.

(** The locals of the first loop (lines 688-699). *)
Record scan := mkScan {
  scan_interp : Tcl_Interp;
  ds : Tcl_DString;
  nFields : nat;
  didOne : bool;
  nUnknownToMap : nat;
  typeInfo : list casstcl_cassTypeInfo;
  tclReturn : tcl_code
}.

(** The first loop (lines 701-747): resolve each column, apply the policy for
    unknown ones, and append the recognized names to the insert. *)
Fixpoint scan_columns (tableName : string) (mapUnknown : option string) (dropUnknown : bool)
    (pairs : list (Tcl_Obj * Tcl_Obj)) (st : scan) : scan :=
  match pairs with
  | [] => st
  | (name, _) :: rest =>
      let '(rc, ti, interp) :=
        casstcl_typename_obj_to_cass_value_types (scan_interp st) tableName name in
      let types := typeInfo st ++ [ti] in
      match rc with
      | TCL_ERROR =>
          mkScan interp (ds st) (nFields st) (didOne st) (nUnknownToMap st) types TCL_ERROR
      | TCL_CONTINUE =>
          if dropUnknown then
            scan_columns tableName mapUnknown dropUnknown rest
              (mkScan interp (ds st) (nFields st) (didOne st) (nUnknownToMap st) types TCL_OK)
          else
            match mapUnknown with
            | Some _ =>
                scan_columns tableName mapUnknown dropUnknown rest
                  (mkScan interp (ds st) (nFields st) (didOne st) (S (nUnknownToMap st))
                          types TCL_OK)
            | None =>
                mkScan
                  (Tcl_AppendResult (Tcl_ResetResult interp)
                     ["unknown column '"; name; "' in upsert for table '"; tableName; "'"])
                  (ds st) (nFields st) (didOne st) (nUnknownToMap st) types TCL_ERROR
            end
      | _ =>
          let ds1 := if didOne st then Tcl_DStringAppend (ds st) "," else ds st in
          scan_columns tableName mapUnknown dropUnknown rest
            (mkScan interp (Tcl_DStringAppend ds1 name) (S (nFields st)) true
                    (nUnknownToMap st) types rc)
      end
  end.

(** Lines 762-768: [count] more placeholders, the next one being number [i]. *)
Fixpoint append_placeholders (i count : nat) (ds : Tcl_DString) : Tcl_DString :=
  match count with
  | 0 => ds
  | S count' =>
      append_placeholders (S i) count'
        (Tcl_DStringAppend ds (if decide (0 < i) then ",?" else "?"))
  end.

(** The locals of the binding part (lines 781-846). *)
Record binding := mkBinding {
  bind_interp : Tcl_Interp;
  statement : CassStatement;
  bindField : nat;
  bind_return : tcl_code
}.

(** The second loop (lines 790-809), over the pairs and their cached types. *)
Fixpoint bind_columns (tableName : string) (fields : nat)
    (columns : list (Tcl_Obj * Tcl_Obj * casstcl_cassTypeInfo)) (st : binding)
  : outcome binding :=
  match columns with
  | [] => Returned st
  | (name, valueObj, ti) :: rest =>
      if decide (cassValueType ti = CASS_VALUE_TYPE_UNKNOWN) then
        bind_columns tableName fields rest st
      else if decide (bindField st < fields) then
        let '(rc, interp, stmt) :=
          casstcl_bind_tcl_obj (bind_interp st) (statement st) (bindField st) ti valueObj in
        match rc with
        | TCL_ERROR =>
            Returned
              (mkBinding
                 (Tcl_AppendResult interp
                    [" while constructing upsert statement, while attempting to bind field '";
                     name; "' of type '";
                     casstcl_cass_value_type_to_string (cassValueType ti);
                     "', value '"; valueObj; "' referencing table '"; tableName; "'"])
                 stmt (S (bindField st)) TCL_ERROR)
        | _ => bind_columns tableName fields rest (mkBinding interp stmt (S (bindField st)) rc)
        end
      else AssertionFailed "bindField < nFields"
  end.

(** The third loop (lines 816-837): the names and values of the unknown
    columns go into the map, as text. *)
Fixpoint collect_unknown (columns : list (Tcl_Obj * Tcl_Obj * casstcl_cassTypeInfo))
    (interp : Tcl_Interp) (collection : CassCollection) (rc : tcl_code)
  : Tcl_Interp * CassCollection * tcl_code :=
  match columns with
  | [] => (interp, collection, rc)
  | (name, valueObj, ti) :: rest =>
      if decide (cassValueType ti = CASS_VALUE_TYPE_UNKNOWN) then
        match casstcl_append_tcl_obj_to_collection collection CASS_VALUE_TYPE_TEXT name with
        | (CASS_OK, collection1) =>
            match casstcl_append_tcl_obj_to_collection collection1 CASS_VALUE_TYPE_TEXT valueObj with
            | (CASS_OK, collection2) => collect_unknown rest interp collection2 rc
            | (e, collection2) =>
                let '(rc', interp') := casstcl_cass_error_to_tcl interp e in
                (interp', collection2, rc')
            end
        | (e, collection1) =>
            let '(rc', interp') := casstcl_cass_error_to_tcl interp e in
            (interp', collection1, rc')
        end
      else collect_unknown rest interp collection rc
  end.

(** What a call leaves behind: the completion code, the statement stored
    through [statementPtr] (if any), the interpreter; and, of its locals,
    the statement that was created by [cass_statement_new] (it is not freed
    when the call fails), the final [nFields], and the entries of the
    [typeInfo] cache that were filled in, one per column resolved. *)
Record built := mkBuilt {
  code : tcl_code;
  statementPtr : option CassStatement;
  interp_after : Tcl_Interp;
  created : option CassStatement;
  fields : nat;
  resolved : list casstcl_cassTypeInfo
}.

(** Lines 813-852, after the second loop. *)
Definition bind_unknown_map (columns : list (Tcl_Obj * Tcl_Obj * casstcl_cassTypeInfo))
    (unknownToMap fields : nat) (b : binding) : outcome built :=
  let finish (interp : Tcl_Interp) (stmt : CassStatement) (rc : tcl_code) :=
    mkBuilt rc (if decide (rc = TCL_OK) then Some stmt else None) interp (Some stmt) fields
            (columns.*2) in
  if decide (0 < unknownToMap) then
    let '(interp, collection, rc) :=
      collect_unknown columns (bind_interp b)
        (cass_collection_new CASS_COLLECTION_TYPE_MAP unknownToMap) (bind_return b) in
    if decide (bindField b < fields) then
      match cass_statement_bind_collection (statement b) (bindField b) collection with
      | (CASS_OK, stmt) => Returned (finish interp stmt rc)
      | (e, stmt) =>
          let '(rc', interp') := casstcl_cass_error_to_tcl interp e in
          Returned (finish interp' stmt rc')
      end
    else AssertionFailed "bindField < nFields"
  else Returned (finish (bind_interp b) (statement b) (bind_return b)).

(** Lines 776-853: when the first loop left [TCL_OK], create the statement
    from the text built so far and bind the values. *)
Definition bind_statement (interp : Tcl_Interp) (tableName : string)
    (columns : list (Tcl_Obj * Tcl_Obj * casstcl_cassTypeInfo))
    (consistencyPtr : option CassConsistency) (text : string)
    (fields unknownToMap : nat) (rc0 : tcl_code) : outcome built :=
  if decide (rc0 = TCL_OK) then
    let stmt0 := cass_statement_new text fields in
    let '(rc, interp1, stmt1) :=
      casstcl_setStatementConsistency interp stmt0 consistencyPtr in
    if decide (rc = TCL_OK) then
      match bind_columns tableName fields columns (mkBinding interp1 stmt1 0 rc) with
      | Returned b => bind_unknown_map columns unknownToMap fields b
      | AssertionFailed c => AssertionFailed c
      end
    else Returned (mkBuilt rc None interp1 (Some stmt1) fields (columns.*2))
  else Returned (mkBuilt rc0 None interp None fields (columns.*2)).

(** The text and the field count once the first loop is over (lines
    749-774). *)
Definition finish_text (sc : scan) (mapUnknown : option string) (ifNotExists : bool)
  : Tcl_DString * nat :=
  let '(ds1, nFields1) :=
    if decide (0 < nUnknownToMap sc) then
      let d := if didOne sc then Tcl_DStringAppend (ds sc) "," else ds sc in
      (Tcl_DStringAppend d (default "" mapUnknown), S (nFields sc))
    else (ds sc, nFields sc) in
  let ds2 := Tcl_DStringAppend ds1 ") values (" in
  let ds3 := append_placeholders 0 nFields1 ds2 in
  (Tcl_DStringAppend ds3 (if ifNotExists then ") IF NOT EXISTS" else ")"), nFields1).

Definition upsert (interp : Tcl_Interp) (tableName : string) (listObj : Tcl_Obj)
    (consistencyPtr : option CassConsistency)
    (mapUnknown : option string) (dropUnknown ifNotExists : bool) : outcome built :=
  match Tcl_ListObjGetElements listObj with
  | inr msg =>
      Returned
        (mkBuilt TCL_ERROR None
           (Tcl_AppendResult (set_result msg interp) [" while parsing list of key-value pairs"])
           None 0 [])
  | inl listObjv =>
      if Nat.odd (length listObjv) then
        Returned
          (mkBuilt TCL_ERROR None
             (Tcl_AppendResult (Tcl_ResetResult interp)
                ["key-value pair list must contain an even number of elements"])
             None 0 [])
      else
        let ds0 :=
          Tcl_DStringAppend
            (Tcl_DStringAppend (Tcl_DStringAppend Tcl_DStringInit "INSERT INTO ") tableName)
            " (" in
        let sc :=
          scan_columns tableName mapUnknown dropUnknown (pairs_of listObjv)
            (mkScan interp ds0 0 false 0 [] TCL_OK) in
        let '(text, nFields1) := finish_text sc mapUnknown ifNotExists in
        bind_statement (scan_interp sc) tableName (zip (pairs_of listObjv) (typeInfo sc))
          consistencyPtr text nFields1 (nUnknownToMap sc) (tclReturn sc)
  end.

(** [casstcl_make_upsert_statement]: the completion code, [*statementPtr]
    and the interpreter. *)
Definition casstcl_make_upsert_statement (interp : Tcl_Interp) (tableName : string)
    (listObj : Tcl_Obj) (consistencyPtr : option CassConsistency)
    (mapUnknown : option string) (dropUnknown ifNotExists : bool)
  : outcome (tcl_code * option CassStatement * Tcl_Interp) :=
  match upsert interp tableName listObj consistencyPtr mapUnknown dropUnknown ifNotExists with
  | Returned b => Returned (code b, statementPtr b, interp_after b)
  | AssertionFailed c => AssertionFailed c
  end.

(** The options of [casstcl_make_upsert_statement_from_objv]. *)
Inductive upsert_option := OPT_MAPUNKNOWN | OPT_NOCOMPLAIN | OPT_IFNOTEXISTS.

(** [Tcl_GetIndexFromObj (interp, obj, options, "option", TCL_EXACT, &optIndex)]:
    the index of the option, or the message left on failure. *)
Definition Tcl_GetIndexFromObj (obj : Tcl_Obj) : upsert_option + string :=
  if decide (obj = "-mapunknown") then inl OPT_MAPUNKNOWN
  else if decide (obj = "-nocomplain") then inl OPT_NOCOMPLAIN
  else if decide (obj = "-ifnotexists") then inl OPT_IFNOTEXISTS
  else
    inr ("bad option " +:+ dquote +:+ obj +:+ dquote +:+
         ": must be -mapunknown, -nocomplain, or -ifnotexists").

(** [Tcl_WrongNumArgs (interp, 0, objv, message)] *)
Definition Tcl_WrongNumArgs (interp : Tcl_Interp) (message : string) : Tcl_Interp :=
  set_result ("wrong # args: should be " +:+ dquote +:+ message +:+ dquote) interp.

(** The locals the option loop sets (lines 71-73). *)
Record upsert_options := mkOptions {
  opt_ifNotExists : bool;
  opt_dropUnknown : bool;
  opt_mapUnknown : option string
}.

(** The option loop (lines 96-123) over [objv[0 .. objc-3]]; [None] is the
    [TCL_ERROR] it returns with. *)
Fixpoint parse_options (interp : Tcl_Interp) (args : list Tcl_Obj) (o : upsert_options)
  : Tcl_Interp * option upsert_options :=
  match args with
  | [] => (interp, Some o)
  | arg :: rest =>
      match Tcl_GetIndexFromObj arg with
      | inr msg => (set_result msg interp, None)
      | inl OPT_MAPUNKNOWN =>
          match rest with
          | [] =>
              (Tcl_AppendResult (Tcl_ResetResult interp) ["-mapunknown requires a column name"],
               None)
          | column :: rest' =>
              parse_options interp rest'
                (mkOptions (opt_ifNotExists o) (opt_dropUnknown o) (Some column))
          end
      | inl OPT_NOCOMPLAIN =>
          parse_options interp rest (mkOptions (opt_ifNotExists o) true (opt_mapUnknown o))
      | inl OPT_IFNOTEXISTS =>
          parse_options interp rest (mkOptions true (opt_dropUnknown o) (opt_mapUnknown o))
      end
  end.

(** [casstcl_make_upsert_statement_from_objv]: options, then the table name
    and the list of key-value pairs. *)
Definition casstcl_make_upsert_statement_from_objv (interp : Tcl_Interp)
    (objv : list Tcl_Obj) (consistencyPtr : option CassConsistency)
  : outcome (tcl_code * option CassStatement * Tcl_Interp) :=
  let objc := length objv in
  if decide (objc < 2) then
    Returned
      (TCL_ERROR, None,
       Tcl_WrongNumArgs interp
         ("?-mapunknown columnName? ?-nocomplain? ?-ifnotexists? " +:+
          "keyspace.tableName keyValuePairList"))
  else
    match parse_options interp (take (objc - 2) objv) (mkOptions false false None) with
    | (interp1, None) => Returned (TCL_ERROR, None, interp1)
    | (interp1, Some o) =>
        casstcl_make_upsert_statement interp1
          (default "" (objv !! (objc - 2))) (default "" (objv !! (objc - 1)))
          consistencyPtr (opt_mapUnknown o) (opt_dropUnknown o) (opt_ifNotExists o)
    end.

(** *** Notions the statements about the builder use *)

(** A column is recognized when the resolver does not answer
    [TCL_CONTINUE] for it. *)
Definition recognized (tableName : string) (name : Tcl_Obj) : Prop :=
  (typename_types tableName name).1 ≠ TCL_CONTINUE.

Definition recognized_pairs (tableName : string) (pairs : list (Tcl_Obj * Tcl_Obj))
  : list (Tcl_Obj * Tcl_Obj) :=
  filter (fun p => recognized tableName p.1) pairs.

Definition unknown_pairs (tableName : string) (pairs : list (Tcl_Obj * Tcl_Obj))
  : list (Tcl_Obj * Tcl_Obj) :=
  filter (fun p => ¬ recognized tableName p.1) pairs.

(** The pairs with the descriptors the first loop caches for them. *)
Definition typed (tableName : string) (pairs : list (Tcl_Obj * Tcl_Obj))
  : list (Tcl_Obj * Tcl_Obj * casstcl_cassTypeInfo) :=
  map (fun p => (p, (typename_types tableName p.1).2)) pairs.

(** The resolver's two answers agree on a column: it says [TCL_CONTINUE]
    exactly when it stores the [CASS_VALUE_TYPE_UNKNOWN] sentinel. *)
Definition agrees (tableName : string) (name : Tcl_Obj) : Prop :=
  (typename_types tableName name).1 = TCL_CONTINUE ↔
  cassValueType (typename_types tableName name).2 = CASS_VALUE_TYPE_UNKNOWN.

(** The columns the second loop binds: those whose cached type is not the
    [CASS_VALUE_TYPE_UNKNOWN] sentinel. *)
Definition bindable (columns : list (Tcl_Obj * Tcl_Obj * casstcl_cassTypeInfo))
  : list (Tcl_Obj * Tcl_Obj * casstcl_cassTypeInfo) :=
  filter (fun c => cassValueType c.2 ≠ CASS_VALUE_TYPE_UNKNOWN) columns.

(** The binder accepts the value of a column as its cached type. *)
Definition binds_ok (column : Tcl_Obj * Tcl_Obj * casstcl_cassTypeInfo) : Prop :=
  bind_code column.2 column.1.2 = TCL_OK.

(** The columns the third loop puts into the map. *)
Definition unbindable (columns : list (Tcl_Obj * Tcl_Obj * casstcl_cassTypeInfo))
  : list (Tcl_Obj * Tcl_Obj * casstcl_cassTypeInfo) :=
  filter (fun c => cassValueType c.2 = CASS_VALUE_TYPE_UNKNOWN) columns.

(** The binds of the given columns, in order, from position [i] on. *)
Fixpoint value_binds (i : nat) (columns : list (Tcl_Obj * Tcl_Obj * casstcl_cassTypeInfo))
  : list (nat * bound_value) :=
  match columns with
  | [] => []
  | (_, value, ti) :: rest => (i, BoundValue ti value) :: value_binds (S i) rest
  end.

(** The items of the map of unknown columns: name, value, name, value... *)
Definition map_items (pairs : list (Tcl_Obj * Tcl_Obj)) : list (CassValueType * Tcl_Obj) :=
  flat_map (fun p => [(CASS_VALUE_TYPE_TEXT, p.1); (CASS_VALUE_TYPE_TEXT, p.2)]) pairs.

(** [tclReturn] after the first loop went through all of [pairs]. *)
Fixpoint code_after (tableName : string) (rc : tcl_code) (pairs : list (Tcl_Obj * Tcl_Obj))
  : tcl_code :=
  match pairs with
  | [] => rc
  | p :: rest =>
      code_after tableName
        (if decide ((typename_types tableName p.1).1 = TCL_CONTINUE) then TCL_OK
         else (typename_types tableName p.1).1)
        rest
  end.

(** The map the unknown columns are gathered in: created for [count]
    pairs, holding the names and values of [pairs] as text. *)
Definition unknown_map (count : nat) (pairs : list (Tcl_Obj * Tcl_Obj)) : CassCollection :=
  mkCollection CASS_COLLECTION_TYPE_MAP count (map_items pairs).

Definition comma_separated (names : list string) : string := String.concat "," names.

(** [n] placeholders: ?,?,...,? *)
Definition placeholders (n : nat) : string := comma_separated (replicate n "?").

(** The number of columns counted for the map: the unknown ones, unless
    they are dropped. *)
Definition unknown_to_map (tableName : string) (dropUnknown : bool)
    (pairs : list (Tcl_Obj * Tcl_Obj)) : nat :=
  if dropUnknown then 0 else length (unknown_pairs tableName pairs).

(** The recognized columns, plus one when unknown columns are mapped. *)
Definition field_count (tableName : string) (dropUnknown : bool)
    (pairs : list (Tcl_Obj * Tcl_Obj)) : nat :=
  length (recognized_pairs tableName pairs) +
  (if decide (0 < unknown_to_map tableName dropUnknown pairs) then 1 else 0).

(** The names of the insert: the recognized columns, then the map column
    when there is something to map. *)
Definition insert_names (tableName : string) (mapUnknown : option string)
    (dropUnknown : bool) (pairs : list (Tcl_Obj * Tcl_Obj)) : list string :=
  (recognized_pairs tableName pairs).*1 ++
  (if decide (0 < unknown_to_map tableName dropUnknown pairs)
   then [default "" mapUnknown] else []).

(** The text of an insert into [tableName] with the given column names and
    [n] placeholders. *)
Definition insert_text (tableName : string) (names : list string) (n : nat)
    (ifNotExists : bool) : string :=
  "INSERT INTO " +:+ tableName +:+ " (" +:+ comma_separated names +:+ ") values (" +:+
  placeholders n +:+ (if ifNotExists then ") IF NOT EXISTS" else ")").

Fixpoint count_char (c : ascii) (s : string) : nat :=
  match s with
  | EmptyString => 0
  | String c' rest => (if decide (c' = c) then 1 else 0) + count_char c rest
  end.

Definition is_collection_bind (b : nat * bound_value) : Prop :=
  match b.2 with BoundCollection _ => True | BoundValue _ _ => False end.

(** The statement a call created has a map bound at the last position, and
    its binds are at the positions 0 .. nFields-1, each once and in order. *)
Definition binds_every_placeholder (b : built) : Prop :=
  ∀ stmt, created b = Some stmt →
    (∀ pos coll, (pos, BoundCollection coll) ∈ binds stmt → pos = fields b - 1) ∧
    (binds stmt).*1 = seq 0 (fields b).

(** The statement has the unknown columns of the list in a map. *)
Definition binds_unknown_columns (tableName : string) (pairs : list (Tcl_Obj * Tcl_Obj))
    (stmt : CassStatement) : Prop :=
  ∃ pos count,
    (pos, BoundCollection (unknown_map count (unknown_pairs tableName pairs))) ∈ binds stmt.

(** *** The options as they are written on a command line *)

Inductive written_option :=
| MapUnknown (column : string)
| NoComplain
| IfNotExists.

#[global] Instance written_option_eq_dec : EqDecision written_option.
Proof. solve_decision. Defined.

Definition option_words (w : written_option) : list Tcl_Obj :=
  match w with
  | MapUnknown column => ["-mapunknown"; column]
  | NoComplain => ["-nocomplain"]
  | IfNotExists => ["-ifnotexists"]
  end.

(** The words of a sequence of options, in order. *)
Definition options_words (ws : list written_option) : list Tcl_Obj :=
  flat_map option_words ws.

(** The columns named by the [-mapunknown] options, in order. *)
Definition mapped_columns (ws : list written_option) : list string :=
  omap (fun w => match w with MapUnknown column => Some column | _ => None end) ws.

(** The elements of a list of pairs: name, value, name, value... *)
Definition unpairs (pairs : list (Tcl_Obj * Tcl_Obj)) : list Tcl_Obj :=
  flat_map (fun p => [p.1; p.2]) pairs.

(** The bind of the map of unknown columns, after the values. *)
Definition map_bind (tableName : string) (dropUnknown : bool)
    (pairs : list (Tcl_Obj * Tcl_Obj)) : list (nat * bound_value) :=
  if decide (0 < unknown_to_map tableName dropUnknown pairs) then
    [(length (recognized_pairs tableName pairs),
      BoundCollection
        (unknown_map (unknown_to_map tableName dropUnknown pairs)
           (unknown_pairs tableName pairs)))]
  else [].

(** The insert for the pairs of a list: the recognized columns with their
    values bound in order and, when unknown columns are mapped, the map
    bound last. *)
Definition insert_statement (tableName : string) (pairs : list (Tcl_Obj * Tcl_Obj))
    (consistencyPtr : option CassConsistency) (mapUnknown : option string)
    (dropUnknown ifNotExists : bool) : CassStatement :=
  mkStatement
    (insert_text tableName (insert_names tableName mapUnknown dropUnknown pairs)
       (field_count tableName dropUnknown pairs) ifNotExists)
    (field_count tableName dropUnknown pairs) consistencyPtr
    (value_binds 0 (typed tableName (recognized_pairs tableName pairs)) ++
     map_bind tableName dropUnknown pairs).

(** The resolver knows the column or says it is unknown; it does not fail
    or answer with another code. *)
Definition resolves (tableName : string) (name : Tcl_Obj) : Prop :=
  (typename_types tableName name).1 = TCL_OK ∨
  (typename_types tableName name).1 = TCL_CONTINUE.

(** The names and values of the pairs can be appended to a map, as text. *)
Definition appends_ok (p : Tcl_Obj * Tcl_Obj) : Prop :=
  append_error CASS_VALUE_TYPE_TEXT p.1 = CASS_OK ∧
  append_error CASS_VALUE_TYPE_TEXT p.2 = CASS_OK.

(** The statement with the condition appended to its text. *)
Definition if_not_exists (stmt : CassStatement) : CassStatement :=
  mkStatement (query stmt +:+ " IF NOT EXISTS") (parameter_count stmt) (consistency stmt)
    (binds stmt).

Definition binding_if_not_exists (b : binding) : binding :=
  mkBinding (bind_interp b) (if_not_exists (statement b)) (bindField b) (bind_return b).

Definition built_if_not_exists (b : built) : built :=
  mkBuilt (code b) (if_not_exists <$> statementPtr b) (interp_after b)
    (if_not_exists <$> created b) (fields b) (resolved b).

(** What returns, changed by [f]; a failed assertion stays. *)
Definition outcome_map {A B : Type} (f : A → B) (o : outcome A) : outcome B :=
  match o with
  | Returned a => Returned (f a)
  | AssertionFailed condition => AssertionFailed condition
  end.

(** What the caller gets of a call: the completion code, [*statementPtr]
    and the interpreter. *)
Definition handed_out (b : built) : tcl_code * option CassStatement * Tcl_Interp :=
  (code b, statementPtr b, interp_after b).

(** The context a failed bind is reported with (line 806). *)
Definition bind_context (tableName : string) (name value : Tcl_Obj)
    (ti : casstcl_cassTypeInfo) : string :=
  " while constructing upsert statement, while attempting to bind field '" +:+ name +:+
  "' of type '" +:+ casstcl_cass_value_type_to_string (cassValueType ti) +:+
  "', value '" +:+ value +:+ "' referencing table '" +:+ tableName +:+ "'".

End Builder.
End Upsert.

(** ** The paginated query executor *)

Module Select.

(** One page as the driver returns it. *)
Record CassResult := mkResult {
  column_names : list string;
  rows : list (list CassValue)
}.

(** A future of [cass_session_execute], through its three accessors
    [cass_future_error_code], the driver's message and
    [cass_future_get_result] ([None] is NULL). *)
Record CassFuture := mkFuture {
  error_code : CassError;
  error_message : string;
  future_result : option CassResult
}.

(** What the session answers to a query: the future of the first execution
    and, when the result has more pages, the paging state, which is what
    the executions after [cass_statement_set_paging_state] will answer. *)
Inductive CassPages :=
| final_page (future : CassFuture)
| page_then (future : CassFuture) (paging_state : CassPages).

(** [casstcl_sessionClientData], as far as [casstcl_select] uses it. *)
Record casstcl_sessionClientData := mkSession {
  interp : Tcl_Interp;
  session : string -> Z -> CassPages
}.

(** Ghost record of what a call did, oldest first: each execution with the
    future it got, each evaluation of the body with its completion code and
    the interpreter it left. *)
Inductive event :=
| Executed (future : CassFuture)
| Evaluated (code : tcl_code) (after : Tcl_Interp).

Section Executor.
Context `{Collaborators}.

(** Modelled from the spec: [casstcl_future_error_to_tcl], which maps the
    driver error of a failed execution to a Tcl error with the driver's code
    and message (4.4, 7). *)
Definition casstcl_future_error_to_tcl (interp : Tcl_Interp) (rc : CassError)
    (future : CassFuture) : tcl_code * Tcl_Interp :=
  (TCL_ERROR,
   set_result (cass_error_message rc +:+ ": " +:+ error_message future) interp).

(** Modelled from the spec: [casstcl_cass_value_to_tcl_obj], the conversion
    of one column value to a host value ([nativeToValue], a black box). *)
Definition casstcl_cass_value_to_tcl_obj (interp : Tcl_Interp) (cassValue : CassValue)
  : tcl_code * option Tcl_Obj * Tcl_Interp :=
  let '(rc, obj) := value_to_obj cassValue in
  (rc, obj,
   if decide (rc = TCL_ERROR) then set_result (value_message cassValue) interp else interp).

Definition null_value : CassValue := mkValue CASS_VALUE_TYPE_UNKNOWN true "".

(** The loop over the columns (lines 209-237): [count] more columns, the
    next one being column [i].  A row has [columnCount] columns and every
    page has the column names of the first, so the two lookups succeed. *)
Fixpoint set_columns (arrayName : string) (result : CassResult) (row : list CassValue)
    (i count : nat) (interp : Tcl_Interp) (tclReturn : tcl_code) : Tcl_Interp * tcl_code :=
  match count with
  | 0 => (interp, tclReturn)
  | S count' =>
      let columnName := default "" (column_names result !! i) in
      let columnValue := default null_value (row !! i) in
      if cass_value_is_null columnValue then
        set_columns arrayName result row (S i) count'
          (Tcl_UnsetVar2 interp arrayName columnName) tclReturn
      else
        match casstcl_cass_value_to_tcl_obj interp columnValue with
        | (TCL_ERROR, _, interp1) => (interp1, TCL_ERROR)
        | (_, None, interp1) =>
            set_columns arrayName result row (S i) count'
              (Tcl_UnsetVar2 interp1 arrayName columnName) tclReturn
        | (_, Some newObj, interp1) =>
            match Tcl_SetVar2Ex interp1 arrayName columnName newObj with
            | None => (Tcl_SetVar2Ex_error interp1 arrayName columnName, TCL_ERROR)
            | Some interp2 => set_columns arrayName result row (S i) count' interp2 tclReturn
            end
        end
  end.

(** [sprintf] of the format: newline, four spaces, then
    ([dquote]select[dquote] body line %d), with [Tcl_GetErrorLine (interp)]. *)
Definition body_line_message (line : Z) : string :=
  newline +:+ "    (" +:+ dquote +:+ "select" +:+ dquote +:+ " body line " +:+
  pretty line +:+ ")".

(** The locals the two loops share. *)
Record loop := mkLoop {
  loop_interp : Tcl_Interp;
  tclReturn : tcl_code;
  columnCount : option nat;
  events : list event
}.

(** The loop over the rows of a page (lines 202-258). *)
Fixpoint process_rows (codeObj : Tcl_Interp -> tcl_code * Tcl_Interp) (arrayName : string)
    (result : CassResult) (count : nat) (rows : list (list CassValue)) (st : loop) : loop :=
  match rows with
  | [] => st
  | row :: rest =>
      let '(interp1, rc1) :=
        set_columns arrayName result row 0 count (loop_interp st) (tclReturn st) in
      let '(evalReturnCode, interp2) := codeObj interp1 in
      let log := events st ++ [Evaluated evalReturnCode interp2] in
      match evalReturnCode with
      | TCL_OK | TCL_CONTINUE =>
          process_rows codeObj arrayName result count rest
            (mkLoop interp2 rc1 (columnCount st) log)
      | TCL_BREAK => mkLoop interp2 TCL_BREAK (columnCount st) log
      | TCL_ERROR =>
          mkLoop (Tcl_AddErrorInfo interp2 (body_line_message (Tcl_GetErrorLine interp2)))
                 TCL_ERROR (columnCount st) log
      | TCL_RETURN => mkLoop interp2 rc1 (columnCount st) log
      end
  end.

(** One turn of the do-while loop (lines 170-267); the boolean tells that the
    turn left the loop by one of its two [break]s. *)
Definition run_page (codeObj : Tcl_Interp -> tcl_code * Tcl_Interp) (arrayName : string)
    (future : CassFuture) (st : loop) : loop * bool :=
  let log := events st ++ [Executed future] in
  match error_code future with
  | CASS_OK =>
      match future_result future with
      | None =>
          (mkLoop (Tcl_AppendResult (Tcl_ResetResult (loop_interp st)) ["future has no result"])
                  TCL_ERROR (columnCount st) log, true)
      | Some result =>
          let count :=
            match columnCount st with
            | None => length (column_names result)
            | Some n => n
            end in
          (process_rows codeObj arrayName result count (rows result)
             (mkLoop (loop_interp st) (tclReturn st) (Some count) log), false)
      end
  | rc =>
      let '(code, interp1) := casstcl_future_error_to_tcl (loop_interp st) rc future in
      (mkLoop interp1 code (columnCount st) log, true)
  end.

(** The do-while loop: another turn when the result has more pages and
    [tclReturn] is still [TCL_OK]. *)
Fixpoint fetch_pages (codeObj : Tcl_Interp -> tcl_code * Tcl_Interp) (arrayName : string)
    (pages : CassPages) (st : loop) : loop :=
  match pages with
  | final_page future => fst (run_page codeObj arrayName future st)
  | page_then future paging_state =>
      let '(st1, broke) := run_page codeObj arrayName future st in
      if broke then st1
      else if decide (tclReturn st1 = TCL_OK) then
        fetch_pages codeObj arrayName paging_state st1
      else st1
  end.

(** What a call leaves behind: the completion code, the interpreter, and
    the events. *)
Record selected := mkSelected {
  code : tcl_code;
  interp_after : Tcl_Interp;
  trace : list event
}.

Definition casstcl_select (ct : casstcl_sessionClientData) (query : string)
    (arrayName : string) (codeObj : Tcl_Interp -> tcl_code * Tcl_Interp)
    (pagingSize : Z) (consistencyPtr : option CassConsistency) : selected :=
  let statement := cass_statement_new query 0 in
  let '(rc, interp1, statement1) :=
    casstcl_setStatementConsistency (interp ct) statement consistencyPtr in
  if decide (rc = TCL_OK) then
    let st :=
      fetch_pages codeObj arrayName (session ct query pagingSize)
        (mkLoop interp1 TCL_OK None []) in
    let interp2 := Tcl_UnsetVar (loop_interp st) arrayName in
    mkSelected (if decide (tclReturn st = TCL_BREAK) then TCL_OK else tclReturn st)
               interp2 (events st)
  else mkSelected TCL_ERROR interp1 [].

(** The completion codes of the evaluations of the body, in order, each
    with the interpreter it left. *)
Definition evaluations (log : list event) : list (tcl_code * Tcl_Interp) :=
  omap (fun e => match e with Evaluated c i => Some (c, i) | Executed _ => None end) log.

(** The futures of the executions, in order. *)
Definition executions (log : list event) : list CassFuture :=
  omap (fun e => match e with Executed f => Some f | Evaluated _ _ => None end) log.

(** The events after which the loops are left for good: the body said
    break or failed, or an execution failed or had no result. *)
Definition stops (e : event) : Prop :=
  match e with
  | Evaluated TCL_BREAK _ | Evaluated TCL_ERROR _ => True
  | Evaluated _ _ => False
  | Executed future => error_code future ≠ CASS_OK ∨ future_result future = None
  end.

(** What the locals are right after such an event. *)
Definition left_with (e : event) (st : loop) : Prop :=
  match e with
  | Evaluated TCL_BREAK after => tclReturn st = TCL_BREAK ∧ loop_interp st = after
  | Evaluated TCL_ERROR after =>
      tclReturn st = TCL_ERROR ∧
      loop_interp st = Tcl_AddErrorInfo after (body_line_message (Tcl_GetErrorLine after))
  | Evaluated _ _ => False
  | Executed future =>
      tclReturn st = TCL_ERROR ∧
      (error_code future = CASS_OK → result (loop_interp st) = "future has no result")
  end.

(** The events [new] end the loops in state [st]: either none of them
    stops, or the last one does, and it is the only one. *)
Definition ends_in (new : list event) (st : loop) : Prop :=
  Forall (fun e => ¬ stops e) new ∨
  ∃ pre e, new = pre ++ [e] ∧ Forall (fun e => ¬ stops e) pre ∧ stops e ∧ left_with e st.

(** Every failure of the body is decorated with the number of the row it
    was evaluated for, counting from 1. *)
Definition decorated_with_row_number (r : selected) : Prop :=
  ∀ k after,
    evaluations (trace r) !! k = Some (TCL_ERROR, after) →
    errorInfo (interp_after r) = errorInfo after +:+ body_line_message (Z.of_nat (S k)).

(** *** Notions the statements about whole queries use *)

(** The futures the session answers with, one per page. *)
Fixpoint futures (pages : CassPages) : list CassFuture :=
  match pages with
  | final_page future => [future]
  | page_then future paging_state => future :: futures paging_state
  end.

(** The future of the first execution. *)
Definition first_future (pages : CassPages) : CassFuture :=
  match pages with
  | final_page future => future
  | page_then future _ => future
  end.

(** The rows of the page a future holds, if it holds one. *)
Definition page_rows (future : CassFuture) : list (list CassValue) :=
  match future_result future with
  | Some result => rows result
  | None => []
  end.

(** The execution succeeded and has a result. *)
Definition answered (future : CassFuture) : Prop :=
  error_code future = CASS_OK ∧ is_Some (future_result future).

(** The value converts to a host value. *)
Definition converts (value : CassValue) : Prop :=
  (value_to_obj value).1 ≠ TCL_ERROR.

(** The name is free for an array: it is not the name of a scalar. *)
Definition array_free (arrayName : string) (interp : Tcl_Interp) : Prop :=
  ∀ value, vars interp !! arrayName ≠ Some (ScalarVar value).

(** What the array holds for a column of the row once the row is stored:
    nothing for a null, else the value as it converts. *)
Definition stored (row : list CassValue) (i : nat) : option Tcl_Obj :=
  match row !! i with
  | Some value => if cass_value_is_null value then None else (value_to_obj value).2
  | None => None
  end.

(** Column [i] of the row has a value that does not convert. *)
Definition unconvertible (row : list CassValue) (i : nat) : Prop :=
  ∃ value, row !! i = Some value ∧ cass_value_is_null value = false ∧
           (value_to_obj value).1 = TCL_ERROR.

(** *** The rows the body is evaluated for *)








End Executor.
End Select.

(** ** The schema introspector *)

Module Columns.

Inductive CassSchemaMetaType :=
| CASS_SCHEMA_META_TYPE_KEYSPACE
| CASS_SCHEMA_META_TYPE_TABLE
| CASS_SCHEMA_META_TYPE_COLUMN.

#[global] Instance CassSchemaMetaType_eq_dec : EqDecision CassSchemaMetaType.
Proof. solve_decision. Defined.

(** A node of the schema metadata: its kind, the name it is entered under
    in its parent, its named fields, and its entries (the tables of a
    keyspace, the columns of a table) in the order the driver's iterator
    yields them. *)
#[warnings="-register-all"] Inductive CassSchemaMeta :=
| mkMeta (type : CassSchemaMetaType) (name : string) (fields : gmap string CassValue)
         (entries : list CassSchemaMeta).

Definition cass_schema_meta_type (meta : CassSchemaMeta) : CassSchemaMetaType :=
  match meta with mkMeta type _ _ _ => type end.

Definition meta_name (meta : CassSchemaMeta) : string :=
  match meta with mkMeta _ name _ _ => name end.

Definition cass_schema_meta_get_field (meta : CassSchemaMeta) (name : string)
  : option CassValue :=
  match meta with mkMeta _ _ fields _ => fields !! name end.

Definition meta_entries (meta : CassSchemaMeta) : list CassSchemaMeta :=
  match meta with mkMeta _ _ _ entries => entries end.

Fixpoint find_entry (entries : list CassSchemaMeta) (name : string)
  : option CassSchemaMeta :=
  match entries with
  | [] => None
  | meta :: rest => if decide (meta_name meta = name) then Some meta else find_entry rest name
  end.

Definition cass_schema_meta_get_entry (meta : CassSchemaMeta) (name : string)
  : option CassSchemaMeta :=
  find_entry (meta_entries meta) name.

(** The schema snapshot: its keyspaces. *)
Definition CassSchema := list CassSchemaMeta.

Definition cass_schema_get_keyspace (schema : CassSchema) (keyspace : string)
  : option CassSchemaMeta :=
  find_entry schema keyspace.

(** [cass_iterator_from_schema_meta]: the entries in iteration order. *)
Definition cass_iterator_from_schema_meta (meta : CassSchemaMeta) : list CassSchemaMeta :=
  meta_entries meta.

Section Introspector.
Context `{Collaborators}.

(** [Tcl_EvalObjv] of [::casstcl::validator_to_type name]. *)
Definition Tcl_EvalObjv_validator_to_type (interp : Tcl_Interp) (name : string)
  : tcl_code * Tcl_Interp :=
  validator_to_type interp name.

(** The loop over the columns of the table (lines 422-492).  The list being
    built was created empty by [Tcl_NewObj], so [Tcl_ListObjAppendElement]
    does not fail on it. *)
Fixpoint list_columns_loop (includeTypes : bool) (columns : list CassSchemaMeta)
    (interp : Tcl_Interp) (listObj : list Tcl_Obj)
  : outcome (tcl_code * Tcl_Interp * list Tcl_Obj) :=
  match columns with
  | [] => Returned (TCL_OK, interp, listObj)
  | columnMeta :: rest =>
      if decide (cass_schema_meta_type columnMeta = CASS_SCHEMA_META_TYPE_COLUMN) then
        match cass_schema_meta_get_field columnMeta "column_name" with
        | None => AssertionFailed "field != NULL"
        | Some fieldValue =>
            if decide (cass_value_type fieldValue = CASS_VALUE_TYPE_VARCHAR) then
              let listObj1 := listObj ++ [cass_value_get_string fieldValue] in
              if includeTypes then
                match cass_schema_meta_get_field columnMeta "validator" with
                | None => AssertionFailed "field != NULL"
                | Some validator =>
                    let name := cass_value_get_string validator in
                    match Tcl_GetVar2Ex interp "::casstcl::validatorTypeLookupCache" name with
                    | Some elementObj =>
                        list_columns_loop includeTypes rest interp (listObj1 ++ [elementObj])
                    | None =>
                        let '(rc, interp1) := Tcl_EvalObjv_validator_to_type interp name in
                        if decide (rc = TCL_ERROR) then Returned (TCL_ERROR, interp1, listObj1)
                        else
                          list_columns_loop includeTypes rest interp1
                            (listObj1 ++ [result interp1])
                    end
                end
              else list_columns_loop includeTypes rest interp listObj1
            else list_columns_loop includeTypes rest interp listObj
        end
      else
        AssertionFailed "cass_schema_meta_type(columnMeta) == CASS_SCHEMA_META_TYPE_COLUMN"
  end.

(** Lines 493-502: the list goes to the caller, and the result is reset
    when the listing succeeded. *)
Definition finish_listing (r : outcome (tcl_code * Tcl_Interp * list Tcl_Obj))
  : outcome (tcl_code * Tcl_Interp * option (list Tcl_Obj)) :=
  match r with
  | Returned (rc, interp, listObj) =>
      Returned (rc, if decide (rc = TCL_OK) then Tcl_ResetResult interp else interp,
                Some listObj)
  | AssertionFailed c => AssertionFailed c
  end.

(** [casstcl_list_columns]: the completion code, the interpreter and
    [*objPtr] (left unset when the keyspace or the table is not found). *)
Definition casstcl_list_columns (interp : Tcl_Interp) (schema : CassSchema)
    (keyspace table : string) (includeTypes : bool)
  : outcome (tcl_code * Tcl_Interp * option (list Tcl_Obj)) :=
  match cass_schema_get_keyspace schema keyspace with
  | None =>
      Returned
        (TCL_ERROR,
         Tcl_AppendResult (Tcl_ResetResult interp) ["keyspace '"; keyspace; "' not found"],
         None)
  | Some keyspaceMeta =>
      match cass_schema_meta_get_entry keyspaceMeta table with
      | None =>
          Returned
            (TCL_ERROR,
             Tcl_AppendResult (Tcl_ResetResult interp)
               ["table '"; table; "' not found in keyspace '"; keyspace; "'"],
             None)
      | Some tableMeta =>
          finish_listing
            (list_columns_loop includeTypes (cass_iterator_from_schema_meta tableMeta)
               interp [])
      end
  end.

(** The names of the entries that have a varchar column name. *)
Definition varchar_names (entries : list CassSchemaMeta) : list Tcl_Obj :=
  omap (fun entry =>
          match cass_schema_meta_get_field entry "column_name" with
          | Some fieldValue =>
              if decide (cass_value_type fieldValue = CASS_VALUE_TYPE_VARCHAR)
              then Some (cass_value_get_string fieldValue) else None
          | None => None
          end) entries.

(** *** Tables and keyspaces *)

(** The loop over the tables of a keyspace (lines 356-369).  The list being
    built was created empty by [Tcl_NewObj], so [Tcl_ListObjAppendElement]
    does not fail on it and [tclReturn] stays [TCL_OK]. *)
Fixpoint list_tables_loop (tables : list CassSchemaMeta) (listObj : list Tcl_Obj)
  : outcome (list Tcl_Obj) :=
  match tables with
  | [] => Returned listObj
  | tableMeta :: rest =>
      if decide (cass_schema_meta_type tableMeta = CASS_SCHEMA_META_TYPE_TABLE) then
        match cass_schema_meta_get_field tableMeta "columnfamily_name" with
        | None => AssertionFailed "field != NULL"
        | Some fieldValue =>
            list_tables_loop rest (listObj ++ [cass_value_get_string fieldValue])
        end
      else
        AssertionFailed "cass_schema_meta_type(tableMeta) == CASS_SCHEMA_META_TYPE_TABLE"
  end.

(** [casstcl_list_tables]: the completion code, the interpreter and
    [*objPtr] (left unset when the keyspace is not found). *)
Definition casstcl_list_tables (interp : Tcl_Interp) (schema : CassSchema) (keyspace : string)
  : outcome (tcl_code * Tcl_Interp * option (list Tcl_Obj)) :=
  match cass_schema_get_keyspace schema keyspace with
  | None =>
      Returned
        (TCL_ERROR,
         Tcl_AppendResult (Tcl_ResetResult interp) ["keyspace '"; keyspace; "' not found"],
         None)
  | Some keyspaceMeta =>
      match list_tables_loop (cass_iterator_from_schema_meta keyspaceMeta) [] with
      | Returned listObj => Returned (TCL_OK, interp, Some listObj)
      | AssertionFailed condition => AssertionFailed condition
      end
  end.

(** The loop over the keyspaces of the schema (lines 305-315).  Nothing is
    asserted here: [None] is where the NULL that [cass_schema_meta_get_field]
    answers for a missing field is passed on to
    [cass_schema_meta_field_value]. *)
Fixpoint list_keyspaces_loop (keyspaces : list CassSchemaMeta) (listObj : list Tcl_Obj)
  : option (list Tcl_Obj) :=
  match keyspaces with
  | [] => Some listObj
  | schemaMeta :: rest =>
      match cass_schema_meta_get_field schemaMeta "keyspace_name" with
      | None => None
      | Some fieldValue =>
          list_keyspaces_loop rest (listObj ++ [cass_value_get_string fieldValue])
      end
  end.

(** [casstcl_list_keyspaces]: the completion code and [*objPtr]; the
    interpreter is not touched. *)
Definition casstcl_list_keyspaces (schema : CassSchema) : option (tcl_code * list Tcl_Obj) :=
  match list_keyspaces_loop schema [] with
  | Some listObj => Some (TCL_OK, listObj)
  | None => None
  end.

(** *** Notions the statements about listings use *)

(** The node is entered in its parent under the name its field holds. *)
Definition named_by (field : string) (meta : CassSchemaMeta) : Prop :=
  ∃ fieldValue,
    cass_schema_meta_get_field meta field = Some fieldValue ∧
    cass_value_get_string fieldValue = meta_name meta.

(** A table as the driver enters it in its keyspace. *)
Definition table_entry (meta : CassSchemaMeta) : Prop :=
  cass_schema_meta_type meta = CASS_SCHEMA_META_TYPE_TABLE ∧
  named_by "columnfamily_name" meta.

Definition validatorTypeLookupCache : string := "::casstcl::validatorTypeLookupCache".

(** A column whose type, if its name is a varchar, is in the cache. *)
Definition type_is_cached (interp : Tcl_Interp) (entry : CassSchemaMeta) : Prop :=
  cass_schema_meta_type entry = CASS_SCHEMA_META_TYPE_COLUMN ∧
  ∃ fieldValue,
    cass_schema_meta_get_field entry "column_name" = Some fieldValue ∧
    (cass_value_type fieldValue = CASS_VALUE_TYPE_VARCHAR →
     ∃ validator,
       cass_schema_meta_get_field entry "validator" = Some validator ∧
       is_Some (Tcl_GetVar2Ex interp validatorTypeLookupCache
                  (cass_value_get_string validator))).

(** The name and the cached type of an entry that has a varchar column
    name. *)
Definition cached_type (interp : Tcl_Interp) (entry : CassSchemaMeta) : list Tcl_Obj :=
  match cass_schema_meta_get_field entry "column_name" with
  | Some fieldValue =>
      if decide (cass_value_type fieldValue = CASS_VALUE_TYPE_VARCHAR) then
        [cass_value_get_string fieldValue;
         default ""
           (cass_schema_meta_get_field entry "validator" ≫= fun validator =>
            Tcl_GetVar2Ex interp validatorTypeLookupCache (cass_value_get_string validator))]
      else []
  | None => []
  end.

(** The names and cached types of the entries: name, type, name, type... *)
Definition cached_types (interp : Tcl_Interp) (entries : list CassSchemaMeta)
  : list Tcl_Obj :=
  flat_map (cached_type interp) entries.

End Introspector.
End Columns.

(** ** The statement of a command line *)

Module Statement.

(** The options of [casstcl_make_statement_from_objv]. *)
Inductive statement_option := OPT_ARRAY | OPT_TABLE | OPT_PREPARED | OPT_CONSISTENCY.

(** [Tcl_GetIndexFromObj (interp, obj, options, "option", TCL_EXACT, &optIndex)]:
    the index of the option, or the message left on failure. *)
Definition Tcl_GetIndexFromObj (obj : Tcl_Obj) : statement_option + string :=
  if decide (obj = "-array") then inl OPT_ARRAY
  else if decide (obj = "-table") then inl OPT_TABLE
  else if decide (obj = "-prepared") then inl OPT_PREPARED
  else if decide (obj = "-consistency") then inl OPT_CONSISTENCY
  else
    inr ("bad option " +:+ dquote +:+ obj +:+ dquote +:+
         ": must be -array, -table, -prepared, or -consistency").

(** [Tcl_WrongNumArgs (interp, objc, objv, message)]: the first [objc]
    words of the command, then the message. *)
Definition Tcl_WrongNumArgs (interp : Tcl_Interp) (words : list Tcl_Obj) (message : string)
  : Tcl_Interp :=
  set_result
    ("wrong # args: should be " +:+ dquote +:+ String.concat " " (words ++ [message]) +:+
     dquote) interp.

(** [*optionString == '-'] *)
Definition starts_with_dash (optionString : string) : bool :=
  match optionString with
  | String c _ => bool_decide (c = "-"%char)
  | EmptyString => false
  end.

(** What the function calls outside this source file, besides
    [Tcl_ListObjGetElements]. *)
Class StatementCollaborators := {
  casstcl_preparedClientData : Type;
  (** [casstcl_prepared_command_to_preparedClientData]: the prepared
      statement behind the command of that name; [None] is NULL. *)
  prepared_command : Tcl_Interp -> string -> option casstcl_preparedClientData;
  (** [casstcl_obj_to_cass_consistency]: the level stored through the out
      pointer, or the message left on failure. *)
  obj_to_cass_consistency : Tcl_Obj -> CassConsistency + string
}.

Section Maker.
Context `{Collaborators} `{StatementCollaborators}.

(** The pointer handed on as [consistencyPtr]: NULL, or the address of the
    local [consistency], which holds a level once
    [casstcl_obj_to_cass_consistency] has stored one; the local is not
    initialised before. *)
Inductive consistency_pointer :=
| NULL
| address_of (consistency : option CassConsistency).

(** The call the function ends with; what it returns is what the function
    returns. *)
Inductive binder_call :=
| casstcl_bind_names_from_prepared (pcd : casstcl_preparedClientData)
    (listObjv : list Tcl_Obj) (consistencyPtr : consistency_pointer)
| casstcl_bind_names_from_array (tableName query arrayName : string)
    (objv : list Tcl_Obj) (consistencyPtr : consistency_pointer)
| casstcl_bind_values_and_types (query : string)
    (objv : list Tcl_Obj) (consistencyPtr : consistency_pointer).

(** [TCL_ERROR] returned by the function itself, or the call it ends
    with. *)
Inductive made :=
| Failed (interp : Tcl_Interp)
| Calls (interp : Tcl_Interp) (call : binder_call).

(** The locals the option loop sets (lines 898-904). *)
Record locals := mkLocals {
  arrayStyle : bool;
  arrayName : option string;
  tableName : option string;
  preparedName : option string;
  consistencyObj : option Tcl_Obj;
  consistency : option CassConsistency
}.

Definition locals0 : locals := mkLocals false None None None None None.

(** How the option loop (lines 927-991) is left: by its condition or its
    [break], with the words from [newObjv[arg]] on; by [goto wrong_numargs];
    or by [return TCL_ERROR]. *)
Inductive parsed :=
| options_done (interp : Tcl_Interp) (l : locals) (rest : list Tcl_Obj)
| wrong_numargs (interp : Tcl_Interp)
| option_error (interp : Tcl_Interp).

Fixpoint parse_options (interp : Tcl_Interp) (args : list Tcl_Obj) (l : locals) : parsed :=
  match args with
  | [] => options_done interp l []
  | optionString :: rest =>
      if starts_with_dash optionString then
        match Tcl_GetIndexFromObj optionString with
        | inr msg => option_error (set_result msg interp)
        | inl optIndex =>
            match rest with
            | [] => wrong_numargs interp
            | value :: rest' =>
                match optIndex with
                | OPT_ARRAY =>
                    parse_options interp rest'
                      (mkLocals true (Some value) (tableName l) (preparedName l)
                         (consistencyObj l) (consistency l))
                | OPT_TABLE =>
                    parse_options interp rest'
                      (mkLocals true (arrayName l) (Some value) (preparedName l)
                         (consistencyObj l) (consistency l))
                | OPT_PREPARED =>
                    parse_options interp rest'
                      (mkLocals (arrayStyle l) (arrayName l) (tableName l) (Some value)
                         (consistencyObj l) (consistency l))
                | OPT_CONSISTENCY =>
                    if decide (0 < String.length value) then
                      match obj_to_cass_consistency value with
                      | inl level =>
                          parse_options interp rest'
                            (mkLocals (arrayStyle l) (arrayName l) (tableName l)
                               (preparedName l) (Some value) (Some level))
                      | inr msg => option_error (set_result msg interp)
                      end
                    else
                      parse_options interp rest'
                        (mkLocals (arrayStyle l) (arrayName l) (tableName l)
                           (preparedName l) (Some value) (consistency l))
                end
            end
        end
      else options_done interp l args
  end.

Definition usage : string :=
  "?-array arrayName? ?-table tableName? ?-prepared preparedName? " +:+
  "?-consistency level? ?query? ?arg...?".

(** [(consistencyObj != NULL) ? &consistency : NULL] *)
Definition consistencyPtr (l : locals) : consistency_pointer :=
  match consistencyObj l with
  | Some _ => address_of (consistency l)
  | None => NULL
  end.

(** Lines 1012-1082, after the option loop; [words] are the words
    [Tcl_WrongNumArgs] keeps. *)
Definition dispatch (interp : Tcl_Interp) (words : list Tcl_Obj) (l : locals)
    (rest : list Tcl_Obj) : made :=
  match preparedName l, rest with
  | None, [] => Failed (Tcl_WrongNumArgs interp words usage)
  | Some name, _ =>
      if arrayStyle l then
        Failed
          (Tcl_AppendResult (Tcl_ResetResult interp)
             ["-prepared cannot be used with -table / -array"])
      else
        match prepared_command interp name with
        | None =>
            Failed
              (Tcl_AppendResult (Tcl_ResetResult interp)
                 ["-prepared argument '"; name;
                  "' isn't a valid prepared statement object"])
        | Some pcd =>
            match rest with
            | [] => Calls interp (casstcl_bind_names_from_prepared pcd [] (consistencyPtr l))
            | [listObj] =>
                match Tcl_ListObjGetElements listObj with
                | inr msg =>
                    Failed
                      (Tcl_AppendResult (set_result msg interp)
                         [" while parsing list of column-value pairs"])
                | inl listObjv =>
                    if Nat.odd (length listObjv) then
                      Failed
                        (Tcl_AppendResult (Tcl_ResetResult interp)
                           ["list must contain an even number of elements"])
                    else
                      Calls interp
                        (casstcl_bind_names_from_prepared pcd listObjv (consistencyPtr l))
                end
            | _ => Failed (Tcl_WrongNumArgs interp words "-prepared prepared ?list?")
            end
        end
  | None, query :: objv =>
      if arrayStyle l then
        match tableName l, arrayName l with
        | None, _ =>
            Failed
              (Tcl_AppendResult (Tcl_ResetResult interp)
                 ["-table must be specified if -array is specified"])
        | Some _, None =>
            Failed
              (Tcl_AppendResult (Tcl_ResetResult interp)
                 ["-array must be specified if -table is specified"])
        | Some table, Some array =>
            Calls interp
              (casstcl_bind_names_from_array table query array objv (consistencyPtr l))
        end
      else Calls interp (casstcl_bind_values_and_types query objv (consistencyPtr l))
  end.

(** [casstcl_make_statement_from_objv], on the words [objv] of the command,
    of which the first [argOffset] come before the options. *)
Definition casstcl_make_statement_from_objv (interp : Tcl_Interp) (objv : list Tcl_Obj)
    (argOffset : nat) : made :=
  let words := take (if decide (argOffset ≤ 2) then argOffset else 2) objv in
  match parse_options interp (drop argOffset objv) locals0 with
  | option_error interp1 => Failed interp1
  | wrong_numargs interp1 => Failed (Tcl_WrongNumArgs interp1 words usage)
  | options_done interp1 l rest => dispatch interp1 words l rest
  end.

(** *** The options as they are written on a command line *)

Inductive written :=
| Array (name : string)
| Table (name : string)
| Prepared (name : string)
| Consistency (level : Tcl_Obj).

Definition words_of (w : written) : list Tcl_Obj :=
  match w with
  | Array name => ["-array"; name]
  | Table name => ["-table"; name]
  | Prepared name => ["-prepared"; name]
  | Consistency level => ["-consistency"; level]
  end.

Definition written_words (ws : list written) : list Tcl_Obj := flat_map words_of ws.

(** What an option, once read, does to the locals. *)
Definition read (l : locals) (w : written) : locals :=
  match w with
  | Array name =>
      mkLocals true (Some name) (tableName l) (preparedName l) (consistencyObj l)
        (consistency l)
  | Table name =>
      mkLocals true (arrayName l) (Some name) (preparedName l) (consistencyObj l)
        (consistency l)
  | Prepared name =>
      mkLocals (arrayStyle l) (arrayName l) (tableName l) (Some name) (consistencyObj l)
        (consistency l)
  | Consistency level =>
      mkLocals (arrayStyle l) (arrayName l) (tableName l) (preparedName l) (Some level)
        (match obj_to_cass_consistency level with
         | inl converted => if decide (0 < String.length level) then Some converted
                            else consistency l
         | inr _ => consistency l
         end)
  end.

(** The level of a consistency option is empty or converts. *)
Definition readable (w : written) : Prop :=
  match w with
  | Consistency level =>
      String.length level = 0 ∨ ∃ converted, obj_to_cass_consistency level = inl converted
  | _ => True
  end.

(** The words end the options: there is none, or the first does not start
    with a dash. *)
Definition ends_options (rest : list Tcl_Obj) : Prop :=
  match rest with
  | [] => True
  | word :: _ => starts_with_dash word = false
  end.

Definition array_names (ws : list written) : list string :=
  omap (fun w => match w with Array name => Some name | _ => None end) ws.

Definition table_names (ws : list written) : list string :=
  omap (fun w => match w with Table name => Some name | _ => None end) ws.

Definition prepared_names (ws : list written) : list string :=
  omap (fun w => match w with Prepared name => Some name | _ => None end) ws.

Definition levels (ws : list written) : list Tcl_Obj :=
  omap (fun w => match w with Consistency level => Some level | _ => None end) ws.

(** The level [casstcl_obj_to_cass_consistency] stores for a word, if it is
    called on it and succeeds. *)
Definition converted (level : Tcl_Obj) : option CassConsistency :=
  if decide (0 < String.length level) then
    match obj_to_cass_consistency level with
    | inl stored => Some stored
    | inr _ => None
    end
  else None.

Definition stored_levels (ws : list written) : list CassConsistency :=
  omap (fun w => match w with Consistency level => converted level | _ => None end) ws.

(** The locals once the options are read: each holds what was written
    last. *)
Definition locals_of (ws : list written) : locals :=
  mkLocals (bool_decide (array_names ws ++ table_names ws ≠ []))
    (last (array_names ws)) (last (table_names ws)) (last (prepared_names ws))
    (last (levels ws)) (last (stored_levels ws)).

(** The pointer handed on once the options are read. *)
Definition pointer_of (ws : list written) : consistency_pointer :=
  match last (levels ws) with
  | Some _ => address_of (last (stored_levels ws))
  | None => NULL
  end.

End Maker.
End Statement.

(** ** The command that makes cass objects *)

Module CassObj.

(** The subcommands of [casstcl_cassObjCmd]. *)
Inductive cass_option := OPT_CREATE | OPT_LOGGING_CALLBACK | OPT_LOG_LEVEL.

Definition Tcl_GetIndexFromObj (obj : Tcl_Obj) : cass_option + string :=
  if decide (obj = "create") then inl OPT_CREATE
  else if decide (obj = "logging_callback") then inl OPT_LOGGING_CALLBACK
  else if decide (obj = "log_level") then inl OPT_LOG_LEVEL
  else
    inr ("bad option " +:+ dquote +:+ obj +:+ dquote +:+
         ": must be create, logging_callback, or log_level").

Inductive CassLogLevel :=
| CASS_LOG_DISABLED | CASS_LOG_CRITICAL | CASS_LOG_ERROR | CASS_LOG_WARN
| CASS_LOG_INFO | CASS_LOG_DEBUG | CASS_LOG_TRACE.

(** [casstcl_obj_to_cass_log_level]: the level stored through the out
    pointer, or the message left on failure. *)
Class LogCollaborators := {
  obj_to_cass_log_level : Tcl_Obj -> CassLogLevel + string
}.

(** What the command reads and writes: the interpreter and its commands
    (each with the number of the session [cass_session_new] made for it),
    the sessions and event sources made so far, the static counter of
    automatic names, and the logging callback and level. *)
Record world := mkWorld {
  world_interp : Tcl_Interp;
  commands : gmap string nat;
  sessions : nat;
  event_sources : nat;
  nextAutoCounter : N;
  casstcl_loggingCallbackObj : option Tcl_Obj;
  log_callback : bool;
  log_level : option CassLogLevel
}.

Definition with_interp (interp : Tcl_Interp) (w : world) : world :=
  mkWorld interp (commands w) (sessions w) (event_sources w) (nextAutoCounter w)
    (casstcl_loggingCallbackObj w) (log_callback w) (log_level w).

(** The counter is an [unsigned long], here of 64 bits. *)
Definition ULONG_WIDTH : N := 64.

Fixpoint string_take (n : nat) (s : string) : string :=
  match n, s with
  | S n', String c rest => String c (string_take n' rest)
  | _, _ => EmptyString
  end.

(** [snprintf (buffer, size, ...)] keeps [size - 1] characters of the text
    at most; [snprintf (NULL, 0, ...)] answers the length of the text. *)
Definition snprintf (size : nat) (text : string) : string := string_take (size - 1) text.

Section Command.
Context `{LogCollaborators}.

Definition casstcl_cassObjCmd (w : world) (objv : list Tcl_Obj) : tcl_code * world :=
  match objv with
  | objName :: subcommand :: args =>
      match Tcl_GetIndexFromObj subcommand with
      | inr msg => (TCL_ERROR, with_interp (set_result msg (world_interp w)) w)
      | inl OPT_CREATE =>
          match args with
          | [name] =>
              let automatic := bool_decide (name = "#auto") in
              let baseNameLength :=
                String.length objName + String.length (pretty (nextAutoCounter w)) + 1 in
              let commandName :=
                if automatic
                then snprintf baseNameLength (objName +:+ pretty (nextAutoCounter w))
                else name in
              (TCL_OK,
               mkWorld (set_result commandName (world_interp w))
                 (<[commandName := sessions w]> (commands w))
                 (S (sessions w)) (S (event_sources w))
                 (if automatic then ((nextAutoCounter w + 1) mod 2 ^ ULONG_WIDTH)%N
                  else nextAutoCounter w)
                 (casstcl_loggingCallbackObj w) (log_callback w) (log_level w))
          | _ =>
              (TCL_ERROR,
               with_interp
                 (Statement.Tcl_WrongNumArgs (world_interp w) (take 1 objv) "option arg") w)
          end
      | inl OPT_LOGGING_CALLBACK =>
          match args with
          | [callback] =>
              (TCL_OK,
               mkWorld (world_interp w) (commands w) (sessions w) (event_sources w)
                 (nextAutoCounter w) (Some callback) true (log_level w))
          | _ =>
              (TCL_ERROR,
               with_interp
                 (Statement.Tcl_WrongNumArgs (world_interp w) (take 1 objv) "option arg") w)
          end
      | inl OPT_LOG_LEVEL =>
          match args with
          | [level] =>
              match obj_to_cass_log_level level with
              | inl cassLogLevel =>
                  (TCL_OK,
                   mkWorld (world_interp w) (commands w) (sessions w) (event_sources w)
                     (nextAutoCounter w) (casstcl_loggingCallbackObj w) (log_callback w)
                     (Some cassLogLevel))
              | inr msg => (TCL_ERROR, with_interp (set_result msg (world_interp w)) w)
              end
          | _ =>
              (TCL_ERROR,
               with_interp
                 (Statement.Tcl_WrongNumArgs (world_interp w) (take 2 objv) "level") w)
          end
      end
  | _ =>
      (TCL_ERROR,
       with_interp
         (Statement.Tcl_WrongNumArgs (world_interp w) (take 1 objv) "subcommand ?args?") w)
  end.

(** [count] objects made in a row with [create #auto], for the command
    [objName]: the names the calls leave in the result, oldest first, and the
    world after the last call. *)
Fixpoint create_autos (objName : string) (count : nat) (w : world) : list string * world :=
  match count with
  | 0 => ([], w)
  | S count' =>
      let w1 := (casstcl_cassObjCmd w [objName; "create"; "#auto"]).2 in
      let '(names, w2) := create_autos objName count' w1 in
      (result (world_interp w1) :: names, w2)
  end.

(** The automatic name for a value of the counter. *)
Definition automatic_name (objName : string) (counter : N) : string :=
  objName +:+ pretty counter.

End Command.
End CassObj.

(** ** A concrete setting: the table [ks.users] *)

Module Fixture.

(** The elements of a list written as words separated by single spaces. *)
Fixpoint words_from (word : string) (s : string) : list string :=
  match s with
  | EmptyString => if decide (word = "") then [] else [word]
  | String c rest =>
      if decide (c = " "%char) then word :: words_from "" rest
      else words_from (word +:+ String c "") rest
  end.

Definition words (s : string) : list string := words_from "" s.

Fixpoint all_digits (s : string) : bool :=
  match s with
  | EmptyString => true
  | String c rest => bool_decide (48 <= nat_of_ascii c <= 57) && all_digits rest
  end.

Definition text_type : casstcl_cassTypeInfo :=
  mkTypeInfo CASS_VALUE_TYPE_TEXT CASS_VALUE_TYPE_UNKNOWN CASS_VALUE_TYPE_UNKNOWN.
Definition int_type : casstcl_cassTypeInfo :=
  mkTypeInfo CASS_VALUE_TYPE_INT CASS_VALUE_TYPE_UNKNOWN CASS_VALUE_TYPE_UNKNOWN.
Definition uuid_type : casstcl_cassTypeInfo :=
  mkTypeInfo CASS_VALUE_TYPE_UUID CASS_VALUE_TYPE_UNKNOWN CASS_VALUE_TYPE_UNKNOWN.
Definition text_map_type : casstcl_cassTypeInfo :=
  mkTypeInfo CASS_VALUE_TYPE_MAP CASS_VALUE_TYPE_TEXT CASS_VALUE_TYPE_TEXT.
Definition unknown_type : casstcl_cassTypeInfo :=
  mkTypeInfo CASS_VALUE_TYPE_UNKNOWN CASS_VALUE_TYPE_UNKNOWN CASS_VALUE_TYPE_UNKNOWN.

(** [ks.users] has the columns [id uuid], [name text], [age int] and
    [extra map<text,text>]; no other table exists. *)
Definition users_types (table : string) (column : Tcl_Obj) : tcl_code * casstcl_cassTypeInfo :=
  if decide (table = "ks.users") then
    if decide (column = "id") then (TCL_OK, uuid_type)
    else if decide (column = "name") then (TCL_OK, text_type)
    else if decide (column = "age") then (TCL_OK, int_type)
    else if decide (column = "extra") then (TCL_OK, text_map_type)
    else (TCL_CONTINUE, unknown_type)
  else (TCL_ERROR, unknown_type).

(** Values convert, except a non-number as an [int]. *)
Definition users_bind_code (type : casstcl_cassTypeInfo) (value : Tcl_Obj) : tcl_code :=
  if decide (cassValueType type = CASS_VALUE_TYPE_INT) then
    if all_digits value then TCL_OK else TCL_ERROR
  else TCL_OK.

Definition users : Collaborators := {|
  Tcl_ListObjGetElements := fun obj => inl (words obj);
  typename_types := users_types;
  typename_message := fun table _ => "table '" +:+ table +:+ "' not found";
  consistency_error := fun _ => CASS_OK;
  bind_code := users_bind_code;
  bind_message := fun _ value => "expected integer but got '" +:+ value +:+ "'";
  casstcl_cass_value_type_to_string := fun _ => "int";
  append_error := fun _ _ => CASS_OK;
  bind_collection_error := fun _ _ => CASS_OK;
  cass_error_message := fun _ => "driver error";
  value_to_obj := fun v => (TCL_OK, Some (cass_value_get_string v));
  value_message := fun _ => "conversion failed";
  validator_to_type := fun interp name => (TCL_OK, set_result "text" interp)
|}.

(** A resolver whose answers disagree: it says [TCL_CONTINUE] for
    [nickname] and yet stores a type for it. *)
Definition careless_types (table : string) (column : Tcl_Obj)
  : tcl_code * casstcl_cassTypeInfo :=
  if decide (column = "nickname") then (TCL_CONTINUE, text_type) else users_types table column.

Definition careless : Collaborators := {|
  Tcl_ListObjGetElements := fun obj => inl (words obj);
  typename_types := careless_types;
  typename_message := fun table _ => "table '" +:+ table +:+ "' not found";
  consistency_error := fun _ => CASS_OK;
  bind_code := users_bind_code;
  bind_message := fun _ value => "expected integer but got '" +:+ value +:+ "'";
  casstcl_cass_value_type_to_string := fun _ => "int";
  append_error := fun _ _ => CASS_OK;
  bind_collection_error := fun _ _ => CASS_OK;
  cass_error_message := fun _ => "driver error";
  value_to_obj := fun v => (TCL_OK, Some (cass_value_get_string v));
  value_message := fun _ => "conversion failed";
  validator_to_type := fun interp name => (TCL_OK, set_result "text" interp)
|}.

Definition interp0 : Tcl_Interp := mkInterp "" 0 "" ∅.

(** The statements built from some lists for [ks.users]. *)
Definition insert_id_name : CassStatement :=
  mkStatement "INSERT INTO ks.users (id,name) values (?,?)" 2 None
    [(0, BoundValue uuid_type "1"); (1, BoundValue text_type "Bob")].

Definition insert_id_name_extra : CassStatement :=
  mkStatement "INSERT INTO ks.users (id,name,extra) values (?,?,?)" 3 None
    [(0, BoundValue uuid_type "1"); (1, BoundValue text_type "Bob");
     (2, BoundCollection
           (mkCollection CASS_COLLECTION_TYPE_MAP 1
              [(CASS_VALUE_TYPE_TEXT, "nickname"); (CASS_VALUE_TYPE_TEXT, "Bobby")]))].

(** A query on [ks.users] answered with ten rows in two pages of five. *)
Definition text_value (s : string) : CassValue := mkValue CASS_VALUE_TYPE_VARCHAR false s.

Definition user_row (id name : string) : list CassValue := [text_value id; text_value name].

Definition users_page (rows : list (list CassValue)) : Select.CassFuture :=
  Select.mkFuture CASS_OK "" (Some (Select.mkResult ["id"; "name"] rows)).

Definition ten_rows : Select.CassPages :=
  Select.page_then
    (users_page [user_row "1" "Ann"; user_row "2" "Bob"; user_row "3" "Cid";
                 user_row "4" "Dee"; user_row "5" "Eve"])
    (Select.final_page
       (users_page [user_row "6" "Fay"; user_row "7" "Gus"; user_row "8" "Hal";
                    user_row "9" "Ida"; user_row "10" "Jim"])).

Definition ten_rows_session : Select.casstcl_sessionClientData :=
  Select.mkSession interp0 (fun _ _ => ten_rows).

(** A session whose execution succeeds without a result. *)
Definition no_result : Select.CassFuture := Select.mkFuture CASS_OK "" None.

Definition no_result_session : Select.casstcl_sessionClientData :=
  Select.mkSession interp0 (fun _ _ => Select.final_page no_result).

(** A body that says break on the row with the given id. *)
Definition breaks_at (id : string) (interp : Tcl_Interp) : tcl_code * Tcl_Interp :=
  if decide (Tcl_GetVar2Ex interp "row" "id" = Some id) then (TCL_BREAK, interp)
  else (TCL_OK, interp).


(** A body that fails, on its given line, on the row with the given id. *)
Definition fails_at (id : string) (line : Z) (interp : Tcl_Interp) : tcl_code * Tcl_Interp :=
  if decide (Tcl_GetVar2Ex interp "row" "id" = Some id) then
    (TCL_ERROR, mkInterp "boom" line "boom" (vars interp))
  else (TCL_OK, interp).

(** The schema: keyspace [ks], table [users] with the columns [id] and
    [name] and, between them, an entry whose column name is not a varchar. *)
Definition column_entry (name validator : string) : Columns.CassSchemaMeta :=
  Columns.mkMeta Columns.CASS_SCHEMA_META_TYPE_COLUMN name
    (<["column_name" := text_value name]> (<["validator" := text_value validator]> ∅)) [].

Definition nameless_entry : Columns.CassSchemaMeta :=
  Columns.mkMeta Columns.CASS_SCHEMA_META_TYPE_COLUMN ""
    (<["column_name" := mkValue CASS_VALUE_TYPE_BLOB false ""]>
       (<["validator" := text_value "org.apache.cassandra.db.marshal.BytesType"]> ∅)) [].

Definition users_table : Columns.CassSchemaMeta :=
  Columns.mkMeta Columns.CASS_SCHEMA_META_TYPE_TABLE "users" ∅
    [column_entry "id" "org.apache.cassandra.db.marshal.UUIDType";
     nameless_entry;
     column_entry "name" "org.apache.cassandra.db.marshal.UTF8Type"].

Definition ks_schema : Columns.CassSchema :=
  [Columns.mkMeta Columns.CASS_SCHEMA_META_TYPE_KEYSPACE "ks" ∅ [users_table]].

(** What is left of a call whose first bind fails: [age] is an [int]. *)
Definition insert_age_name_extra : Upsert.built :=
  Upsert.mkBuilt TCL_ERROR None
    (set_result
       ("expected integer but got 'abc' while constructing upsert statement, " +:+
        "while attempting to bind field 'age' of type 'int', value 'abc' " +:+
        "referencing table 'ks.users'") interp0)
    (Some
       (mkStatement "INSERT INTO ks.users (age,name,extra) values (?,?,?)" 3 None
          [(1, BoundCollection
                 (mkCollection CASS_COLLECTION_TYPE_MAP 1
                    [(CASS_VALUE_TYPE_TEXT, "nickname"); (CASS_VALUE_TYPE_TEXT, "Bobby")]))]))
    3 [int_type; text_type; unknown_type].

(** A stricter setting for the same table: a list with an open brace does
    not parse, the type of the column [broken] cannot be resolved, the
    consistency level [SERIAL] is refused, a value of a custom type does not
    convert, and the validator [org.example.Mystery] is not known. *)
Fixpoint has_char (c : ascii) (s : string) : bool :=
  match s with
  | EmptyString => false
  | String c' rest => bool_decide (c' = c) || has_char c rest
  end.

Definition strict_list (obj : Tcl_Obj) : list Tcl_Obj + string :=
  if has_char "{" obj then inr "unmatched open brace in list" else inl (words obj).

Definition strict_types (table : string) (column : Tcl_Obj)
  : tcl_code * casstcl_cassTypeInfo :=
  if decide (column = "broken") then (TCL_ERROR, unknown_type) else users_types table column.

Definition strict : Collaborators := {|
  Tcl_ListObjGetElements := strict_list;
  typename_types := strict_types;
  typename_message := fun table column =>
    "cannot resolve '" +:+ column +:+ "' of table '" +:+ table +:+ "'";
  consistency_error := fun level =>
    match level with CASS_CONSISTENCY_SERIAL => CASS_ERROR 1 | _ => CASS_OK end;
  bind_code := users_bind_code;
  bind_message := fun _ value => "expected integer but got '" +:+ value +:+ "'";
  casstcl_cass_value_type_to_string := fun _ => "int";
  append_error := fun _ _ => CASS_OK;
  bind_collection_error := fun _ _ => CASS_OK;
  cass_error_message := fun _ => "driver error";
  value_to_obj := fun v =>
    if decide (cass_value_type v = CASS_VALUE_TYPE_CUSTOM) then (TCL_ERROR, None)
    else (TCL_OK, Some (cass_value_get_string v));
  value_message := fun _ => "conversion failed";
  validator_to_type := fun interp name =>
    if decide (name = "org.example.Mystery")
    then (TCL_ERROR, set_result ("unknown validator " +:+ name) interp)
    else (TCL_OK, set_result "text" interp)
|}.

(** A body that always answers with the same code and changes nothing. *)
Definition always (code : tcl_code) (interp : Tcl_Interp) : tcl_code * Tcl_Interp :=
  (code, interp).

(** A session whose second execution fails. *)
Definition unavailable : Select.CassFuture :=
  Select.mkFuture (CASS_ERROR 1) "no hosts available" None.

Definition five_rows_then_unavailable : Select.casstcl_sessionClientData :=
  Select.mkSession interp0
    (fun _ _ =>
       Select.page_then
         (users_page [user_row "1" "Ann"; user_row "2" "Bob"; user_row "3" "Cid";
                      user_row "4" "Dee"; user_row "5" "Eve"])
         (Select.final_page unavailable)).


(** A session whose first page has, in its second row, a name of a custom
    type; a second page follows. *)
Definition custom_row : list CassValue :=
  [text_value "2"; mkValue CASS_VALUE_TYPE_CUSTOM false "?"].

Definition custom_result : Select.CassResult :=
  Select.mkResult ["id"; "name"] [user_row "1" "Ann"; custom_row; user_row "3" "Cid"].

Definition custom_session : Select.casstcl_sessionClientData :=
  Select.mkSession interp0
    (fun _ _ =>
       Select.page_then (Select.mkFuture CASS_OK "" (Some custom_result))
         (Select.final_page (users_page [user_row "4" "Dee"]))).

(** A session whose second page is the one with the custom name; a third
    page follows. *)
Definition late_custom_session : Select.casstcl_sessionClientData :=
  Select.mkSession interp0
    (fun _ _ =>
       Select.page_then (users_page [user_row "8" "Hal"; user_row "9" "Ida"])
         (Select.page_then (Select.mkFuture CASS_OK "" (Some custom_result))
            (Select.final_page (users_page [user_row "4" "Dee"])))).

(** An interpreter where the array [row] holds a name and one more
    element, and a row whose name is null. *)
Definition stale_interp : Tcl_Interp :=
  mkInterp "" 0 ""
    (<["row" := ArrayVar (<["name" := "Old"]> (<["seen" := "yes"]> ∅))]> ∅).

Definition nameless_row : list CassValue :=
  [text_value "7"; mkValue CASS_VALUE_TYPE_VARCHAR true ""].

(** A schema whose keyspaces and tables carry their names: the keyspace
    [system] with the table [local], and the keyspace [shop] with the tables
    [users] and [orders]; the type of [orders.total] has an unknown
    validator. *)
Definition named_table (name : string) (columns : list Columns.CassSchemaMeta)
  : Columns.CassSchemaMeta :=
  Columns.mkMeta Columns.CASS_SCHEMA_META_TYPE_TABLE name
    (<["columnfamily_name" := text_value name]> ∅) columns.

Definition named_keyspace (name : string) (tables : list Columns.CassSchemaMeta)
  : Columns.CassSchemaMeta :=
  Columns.mkMeta Columns.CASS_SCHEMA_META_TYPE_KEYSPACE name
    (<["keyspace_name" := text_value name]> ∅) tables.

Definition shop_users : Columns.CassSchemaMeta :=
  named_table "users"
    [column_entry "id" "org.apache.cassandra.db.marshal.UUIDType";
     nameless_entry;
     column_entry "name" "org.apache.cassandra.db.marshal.UTF8Type"].

Definition shop_orders : Columns.CassSchemaMeta :=
  named_table "orders"
    [column_entry "id" "org.apache.cassandra.db.marshal.UUIDType";
     column_entry "total" "org.example.Mystery";
     column_entry "note" "org.apache.cassandra.db.marshal.UTF8Type"].

Definition shop : Columns.CassSchemaMeta := named_keyspace "shop" [shop_users; shop_orders].

Definition shop_schema : Columns.CassSchema :=
  [named_keyspace "system"
     [named_table "local" [column_entry "key" "org.apache.cassandra.db.marshal.UTF8Type"]];
   shop].

(** An interpreter that has a result left over and the types of two
    validators in the cache. *)
Definition cached_interp : Tcl_Interp :=
  mkInterp "left over" 0 ""
    (<["::casstcl::validatorTypeLookupCache" :=
         ArrayVar
           (<["org.apache.cassandra.db.marshal.UUIDType" := "uuid"]>
              (<["org.apache.cassandra.db.marshal.UTF8Type" := "text"]> ∅))]> ∅).

(** One prepared statement, [insert_user], and two consistency levels by
    name. *)
Definition prepared_users : Statement.StatementCollaborators := {|
  Statement.casstcl_preparedClientData := string;
  Statement.prepared_command := fun _ name =>
    if decide (name = "insert_user")
    then Some "INSERT INTO ks.users (id, name) VALUES (?, ?)" else None;
  Statement.obj_to_cass_consistency := fun obj =>
    if decide (obj = "quorum") then inl CASS_CONSISTENCY_QUORUM
    else if decide (obj = "one") then inl CASS_CONSISTENCY_ONE
    else inr ("unknown consistency level '" +:+ obj +:+ "'")
|}.

(** Log levels by name, and a world where nothing was made yet. *)
Definition levels_by_name : CassObj.LogCollaborators := {|
  CassObj.obj_to_cass_log_level := fun obj =>
    if decide (obj = "debug") then inl CassObj.CASS_LOG_DEBUG
    else if decide (obj = "warn") then inl CassObj.CASS_LOG_WARN
    else inr ("unknown log level '" +:+ obj +:+ "'")
|}.

Definition world0 : CassObj.world := CassObj.mkWorld interp0 ∅ 0 0 0 None false None.

End Fixture.

(** * Facts *)

(** ** The upsert statement builder *)

Section UpsertFacts.
Context `{Collaborators}.
Import Upsert.

(* strings *)
Lemma string_app_cons x (a b : string) : String x a +:+ b = String x (a +:+ b).
Proof. reflexivity. Qed.

Lemma string_app_assoc (a b c : string) : (a +:+ b) +:+ c = a +:+ (b +:+ c).
Proof.
  induction a as [|x a IH]; [done|].
  rewrite !string_app_cons. by f_equal.
Qed.

Lemma string_app_nil_r (a : string) : a +:+ "" = a.
Proof.
  induction a as [|x a IH]; [done|].
  rewrite string_app_cons. by f_equal.
Qed.

Lemma count_char_app c (a b : string) :
  count_char c (a +:+ b) = count_char c a + count_char c b.
Proof.
  induction a as [|x a IH]; [done|].
  rewrite string_app_cons. simpl. rewrite IH. lia.
Qed.

Lemma placeholders_S n : placeholders (S (S n)) = "?," +:+ placeholders (S n).
Proof. reflexivity. Qed.

Lemma count_char_placeholders n : count_char "?" (placeholders n) = n.
Proof.
  induction n as [|n IH]; [done|].
  destruct n as [|n]; [done|].
  rewrite placeholders_S, count_char_app, IH. reflexivity.
Qed.


Lemma placeholders_snoc k : placeholders (S k) +:+ ",?" = placeholders (S (S k)).
Proof.
  induction k as [|k IH]; [done|].
  rewrite (placeholders_S (S k)), (placeholders_S k), string_app_assoc. by f_equal.
Qed.

Lemma append_placeholders_more i n k ds0 :
  append_placeholders (S i) n (ds0 +:+ placeholders (S k)) = ds0 +:+ placeholders (S k + n).
Proof.
  revert i k. induction n as [|n IH]; intros i k; simpl.
  - by rewrite Nat.add_0_r.
  - destruct (decide (0 < S i)); [|lia].
    unfold Tcl_DStringAppend.
    rewrite string_app_assoc, placeholders_snoc, IH. f_equal. f_equal. lia.
Qed.

Lemma append_placeholders_closed n ds0 :
  append_placeholders 0 n ds0 = ds0 +:+ placeholders n.
Proof.
  destruct n as [|n]; simpl.
  - by rewrite string_app_nil_r.
  - unfold Tcl_DStringAppend. change "?" with (placeholders 1).
    by rewrite append_placeholders_more.
Qed.

Lemma comma_separated_snoc (seen : list string) (name : string) :
  (if bool_decide (seen ≠ []) then comma_separated seen +:+ "," else comma_separated seen)
    +:+ name = comma_separated (seen ++ [name]).
Proof.
  induction seen as [|a seen IH]; [done|].
  rewrite bool_decide_eq_true_2 by done.
  destruct seen as [|b seen]; [apply string_app_assoc|].
  rewrite bool_decide_eq_true_2 in IH by done.
  change (comma_separated (a :: b :: seen)) with (a +:+ "," +:+ comma_separated (b :: seen)).
  change (comma_separated ((a :: b :: seen) ++ [name]))
    with (a +:+ "," +:+ comma_separated ((b :: seen) ++ [name])).
  rewrite <- IH. by rewrite !string_app_assoc.
Qed.

Lemma scan_columns_known t m d name value rest st rc ti :
  typename_types t name = (rc, ti) → rc ≠ TCL_ERROR → rc ≠ TCL_CONTINUE →
  scan_columns t m d ((name, value) :: rest) st =
  scan_columns t m d rest
    (mkScan (scan_interp st)
       (Tcl_DStringAppend
          (if didOne st then Tcl_DStringAppend (ds st) "," else ds st) name)
       (S (nFields st)) true (nUnknownToMap st) (typeInfo st ++ [ti]) rc).
Proof.
  intros E H1 H2. simpl. unfold casstcl_typename_obj_to_cass_value_types. rewrite E.
  rewrite decide_False by done. by destruct rc.
Qed.

Lemma scan_columns_unknown t m d name value rest st ti :
  typename_types t name = (TCL_CONTINUE, ti) →
  scan_columns t m d ((name, value) :: rest) st =
  if d then
    scan_columns t m d rest
      (mkScan (scan_interp st) (ds st) (nFields st) (didOne st) (nUnknownToMap st)
         (typeInfo st ++ [ti]) TCL_OK)
  else
    match m with
    | Some _ =>
        scan_columns t m d rest
          (mkScan (scan_interp st) (ds st) (nFields st) (didOne st) (S (nUnknownToMap st))
             (typeInfo st ++ [ti]) TCL_OK)
    | None =>
        mkScan
          (Tcl_AppendResult (Tcl_ResetResult (scan_interp st))
             ["unknown column '"; name; "' in upsert for table '"; t; "'"])
          (ds st) (nFields st) (didOne st) (nUnknownToMap st) (typeInfo st ++ [ti]) TCL_ERROR
    end.
Proof.
  intros E. simpl. unfold casstcl_typename_obj_to_cass_value_types. rewrite E.
  by rewrite decide_False by done.
Qed.

Lemma scan_columns_error t m d name value rest st ti :
  typename_types t name = (TCL_ERROR, ti) →
  scan_columns t m d ((name, value) :: rest) st =
  mkScan (set_result (typename_message t name) (scan_interp st))
    (ds st) (nFields st) (didOne st) (nUnknownToMap st) (typeInfo st ++ [ti]) TCL_ERROR.
Proof.
  intros E. simpl. unfold casstcl_typename_obj_to_cass_value_types. rewrite E.
  by rewrite decide_True by done.
Qed.

Lemma recognized_pairs_cons t (p : Tcl_Obj * Tcl_Obj) pairs :
  recognized_pairs t (p :: pairs) =
  if decide (recognized t p.1) then p :: recognized_pairs t pairs else recognized_pairs t pairs.
Proof. unfold recognized_pairs. by rewrite filter_cons. Qed.

Lemma unknown_pairs_cons t (p : Tcl_Obj * Tcl_Obj) pairs :
  unknown_pairs t (p :: pairs) =
  if decide (recognized t p.1) then unknown_pairs t pairs else p :: unknown_pairs t pairs.
Proof.
  unfold unknown_pairs. rewrite filter_cons.
  destruct (decide (recognized t p.1)).
  - rewrite decide_False; [done | by intros Hx].
  - by rewrite decide_True.
Qed.

Lemma scan_columns_closed t m d pairs :
  ∀ (seen : list string) ds0 interp unk types rc0,
  Forall (fun p => (typename_types t p.1).1 ≠ TCL_ERROR) pairs →
  (d = true ∨ is_Some m ∨ Forall (fun p => recognized t p.1) pairs) →
  scan_columns t m d pairs
    (mkScan interp (ds0 +:+ comma_separated seen) (length seen)
            (bool_decide (seen ≠ [])) unk types rc0)
  = mkScan interp
      (ds0 +:+ comma_separated (seen ++ (recognized_pairs t pairs).*1))
      (length (seen ++ (recognized_pairs t pairs).*1))
      (bool_decide (seen ++ (recognized_pairs t pairs).*1 ≠ []))
      (unk + if d then 0 else length (unknown_pairs t pairs))
      (types ++ (typed t pairs).*2)
      (code_after t rc0 pairs).
Proof.
  induction pairs as [|[name value] pairs IH]; intros seen ds0 interp unk types rc0 Hne Hpol.
  - unfold recognized_pairs, unknown_pairs, typed. simpl.
    rewrite !app_nil_r. destruct d; by rewrite Nat.add_0_r.
  - apply Forall_cons in Hne as [Hne1 Hne].
    assert (Hpol' : d = true ∨ is_Some m ∨ Forall (fun p => recognized t p.1) pairs).
    { destruct Hpol as [?|[?|Hall]]; auto. apply Forall_cons in Hall as [_ ?]; auto. }
    rewrite recognized_pairs_cons, unknown_pairs_cons.
    unfold recognized in *. cbn [fst snd code_after typed map fmap list_fmap] in *.
    destruct (typename_types t name) as [rc ti] eqn:E. cbn [fst snd] in *.
    destruct (decide (rc = TCL_CONTINUE)) as [->|Hrc].
    + destruct (decide (TCL_CONTINUE ≠ TCL_CONTINUE)) as [?|_]; [done|].
      rewrite (scan_columns_unknown _ _ _ _ _ _ _ ti) by done.
      cbn [scan_interp ds nFields didOne nUnknownToMap typeInfo].
      destruct d.
      * rewrite IH by done. by rewrite <- app_assoc.
      * destruct m as [mcol|].
        -- rewrite IH by done. rewrite <- app_assoc. cbn [length]. f_equal. lia.
        -- exfalso. destruct Hpol as [?|[[? ?]|Hall]]; try done.
           apply Forall_cons in Hall as [Hx _]. cbn in Hx. rewrite E in Hx. by apply Hx.
    + destruct (decide (rc ≠ TCL_CONTINUE)) as [_|?]; [|done].
      rewrite (scan_columns_known _ _ _ _ _ _ _ rc ti) by done.
      cbn [scan_interp ds nFields didOne nUnknownToMap typeInfo].
      assert (Hds : Tcl_DStringAppend
                  (if bool_decide (seen ≠ []) then
                     Tcl_DStringAppend (ds0 +:+ comma_separated seen) ","
                   else ds0 +:+ comma_separated seen) name
                = ds0 +:+ comma_separated (seen ++ [name])).
      { rewrite <- comma_separated_snoc. unfold Tcl_DStringAppend.
        destruct (bool_decide (seen ≠ [])); by rewrite !string_app_assoc. }
      rewrite Hds.
      replace (S (length seen)) with (length (seen ++ [name]))
        by (rewrite length_app; simpl; lia).
      replace true with (bool_decide (seen ++ [name] ≠ []))
        by (apply bool_decide_eq_true_2; by destruct seen).
      rewrite IH by done. cbn [fmap list_fmap fst]. by rewrite <- !app_assoc.
Qed.

Lemma scan_columns_ok_inv t m d pairs :
  ∀ st, tclReturn (scan_columns t m d pairs st) = TCL_OK →
  Forall (fun p => (typename_types t p.1).1 ≠ TCL_ERROR) pairs ∧
  (d = true ∨ is_Some m ∨ Forall (fun p => recognized t p.1) pairs).
Proof.
  induction pairs as [|[name value] pairs IH]; intros st Hok.
  - split; [constructor|]. right. right. constructor.
  - destruct (typename_types t name) as [rc ti] eqn:E.
    destruct (decide (rc = TCL_ERROR)) as [->|Herr].
    { by rewrite (scan_columns_error _ _ _ _ _ _ _ ti) in Hok. }
    destruct (decide (rc = TCL_CONTINUE)) as [->|Hrc].
    + rewrite (scan_columns_unknown _ _ _ _ _ _ _ ti) in Hok by done.
      destruct d.
      * apply IH in Hok as [Hne _]. split; [|by left].
        constructor; [simpl; by rewrite E | done].
      * destruct m as [mcol|]; [|done].
        apply IH in Hok as [Hne _]. split; [|by right; left].
        constructor; [simpl; by rewrite E | done].
    + rewrite (scan_columns_known _ _ _ _ _ _ _ rc ti) in Hok by done.
      apply IH in Hok as [Hne Hpol]. split.
      * constructor; [simpl; by rewrite E | done].
      * destruct Hpol as [?|[?|Hall]]; auto. right. right.
        constructor; [|done]. unfold recognized. simpl. by rewrite E.
Qed.

(** With drop-unknown set, the first loop does not look at map-unknown. *)
Lemma scan_columns_drop t m pairs :
  ∀ st, scan_columns t m true pairs st = scan_columns t None true pairs st.
Proof.
  induction pairs as [|[name value] pairs IH]; intros st; [done|].
  destruct (typename_types t name) as [rc ti] eqn:E.
  destruct (decide (rc = TCL_ERROR)) as [->|Herr].
  { by rewrite !(scan_columns_error _ _ _ _ _ _ _ ti). }
  destruct (decide (rc = TCL_CONTINUE)) as [->|Hrc].
  - rewrite !(scan_columns_unknown _ _ _ _ _ _ _ ti) by done. apply IH.
  - rewrite !(scan_columns_known _ _ _ _ _ _ _ rc ti) by done. apply IH.
Qed.

Lemma scan_columns_drop_unknown t m pairs :
  ∀ st, nUnknownToMap (scan_columns t m true pairs st) = nUnknownToMap st.
Proof.
  induction pairs as [|[name value] pairs IH]; intros st; [done|].
  destruct (typename_types t name) as [rc ti] eqn:E.
  destruct (decide (rc = TCL_ERROR)) as [->|Herr].
  { by rewrite !(scan_columns_error _ _ _ _ _ _ _ ti). }
  destruct (decide (rc = TCL_CONTINUE)) as [->|Hrc].
  - rewrite !(scan_columns_unknown _ _ _ _ _ _ _ ti) by done. by rewrite IH.
  - rewrite !(scan_columns_known _ _ _ _ _ _ _ rc ti) by done. by rewrite IH.
Qed.

(** Without a policy, the first loop stops at the first unknown column. *)
Lemma scan_columns_first_unknown t pairs :
  ∀ st name value,
  Forall (fun p => (typename_types t p.1).1 ≠ TCL_ERROR) pairs →
  head (unknown_pairs t pairs) = Some (name, value) →
  tclReturn (scan_columns t None false pairs st) = TCL_ERROR ∧
  scan_interp (scan_columns t None false pairs st) =
    Tcl_AppendResult (Tcl_ResetResult (scan_interp st))
      ["unknown column '"; name; "' in upsert for table '"; t; "'"].
Proof.
  induction pairs as [|[k v] pairs IH]; intros st name value Hne Hhd; [done|].
  apply Forall_cons in Hne as [Hne1 Hne]. simpl in Hne1.
  rewrite unknown_pairs_cons in Hhd. unfold recognized in Hhd. simpl in Hhd.
  destruct (typename_types t k) as [rc ti] eqn:E. simpl in Hne1, Hhd.
  destruct (decide (rc ≠ TCL_CONTINUE)) as [Hrc|Hrc].
  - rewrite (scan_columns_known _ _ _ _ _ _ _ rc ti) by done.
    match goal with |- context [scan_columns _ _ _ _ ?s] =>
      exact (IH s name value Hne Hhd) end.
  - assert (rc = TCL_CONTINUE) as ->
      by (destruct (decide (rc = TCL_CONTINUE)); [done | by destruct Hrc]).
    rewrite (scan_columns_unknown _ _ _ _ _ _ _ ti) by done.
    simpl in Hhd. by inversion Hhd; subst.
Qed.

Lemma bindable_cons (c : Tcl_Obj * Tcl_Obj * casstcl_cassTypeInfo) columns :
  bindable (c :: columns) =
  if decide (cassValueType c.2 = CASS_VALUE_TYPE_UNKNOWN) then bindable columns
  else c :: bindable columns.
Proof.
  unfold bindable. rewrite filter_cons.
  destruct (decide (cassValueType c.2 = CASS_VALUE_TYPE_UNKNOWN)).
  - by rewrite decide_False by (intros Hx; by apply Hx).
  - by rewrite decide_True.
Qed.

Lemma bind_columns_skip t fields name value ti rest st :
  cassValueType ti = CASS_VALUE_TYPE_UNKNOWN →
  bind_columns t fields ((name, value, ti) :: rest) st = bind_columns t fields rest st.
Proof. intros E. simpl. by rewrite decide_True. Qed.

Lemma bind_columns_step t fields name value ti rest st :
  cassValueType ti ≠ CASS_VALUE_TYPE_UNKNOWN → bindField st < fields →
  bind_columns t fields ((name, value, ti) :: rest) st =
  match bind_code ti value with
  | TCL_OK =>
      bind_columns t fields rest
        (mkBinding (bind_interp st)
           (statement_bind (statement st) (bindField st) (BoundValue ti value))
           (S (bindField st)) TCL_OK)
  | TCL_ERROR =>
      Returned
        (mkBinding
           (Tcl_AppendResult (set_result (bind_message ti value) (bind_interp st))
              [" while constructing upsert statement, while attempting to bind field '";
               name; "' of type '"; casstcl_cass_value_type_to_string (cassValueType ti);
               "', value '"; value; "' referencing table '"; t; "'"])
           (statement st) (S (bindField st)) TCL_ERROR)
  | rc =>
      bind_columns t fields rest
        (mkBinding (set_result (bind_message ti value) (bind_interp st)) (statement st)
           (S (bindField st)) rc)
  end.
Proof.
  intros E Hlt. simpl. rewrite decide_False by done. rewrite decide_True by done.
  unfold casstcl_bind_tcl_obj. by destruct (bind_code ti value).
Qed.

Lemma bind_columns_assert t fields name value ti rest st :
  cassValueType ti ≠ CASS_VALUE_TYPE_UNKNOWN → ¬ bindField st < fields →
  bind_columns t fields ((name, value, ti) :: rest) st = AssertionFailed "bindField < nFields".
Proof. intros E Hlt. simpl. rewrite decide_False by done. by rewrite decide_False by done. Qed.

(** The second loop returns when [fields] leaves room for the columns it
    binds; the statement only gains binds, each at the position its column
    has among those. *)
Lemma bind_columns_returns t fields columns :
  ∀ st, bindField st + length (bindable columns) ≤ fields →
  ∃ st' new,
    bind_columns t fields columns st = Returned st' ∧
    bindField st' ≤ bindField st + length (bindable columns) ∧
    (bind_return st ≠ TCL_ERROR → bind_return st' ≠ TCL_ERROR →
     bindField st' = bindField st + length (bindable columns)) ∧
    statement st' =
      mkStatement (query (statement st)) (parameter_count (statement st))
        (consistency (statement st)) (binds (statement st) ++ new) ∧
    new `sublist_of` value_binds (bindField st) (bindable columns).
Proof.
  induction columns as [|[[name value] ti] columns IH]; intros st Hroom.
  - exists st, []. simpl. rewrite app_nil_r. split_and!; try done; try lia.
    + by destruct (statement st).
  - rewrite bindable_cons in *. cbn [snd] in *.
    destruct (decide (cassValueType ti = CASS_VALUE_TYPE_UNKNOWN)) as [E|E].
    + rewrite bind_columns_skip by done. by apply IH.
    + cbn [length value_binds] in *.
      rewrite bind_columns_step by (done || lia).
      destruct (bind_code ti value) eqn:Hc.
      2:{ eexists _, []. split; [reflexivity|]. cbn. rewrite app_nil_r.
          split_and!; try done; try lia.
          - by destruct (statement st).
          - apply sublist_nil_l. }
      1:{ match goal with |- context [bind_columns _ _ _ ?s] =>
            destruct (IH s) as (st' & new & -> & Hle & Hall & Hst & Hsub); [simpl; lia|] end.
          cbn in Hle, Hall, Hst, Hsub.
          exists st', ((bindField st, BoundValue ti value) :: new).
          split_and!; try done; try lia.
          - intros _ Hne. rewrite Hall by done. lia.
          - rewrite Hst. by rewrite <- app_assoc.
          - by apply sublist_skip. }
      all: match goal with |- context [bind_columns _ _ _ ?s] =>
            destruct (IH s) as (st' & new & -> & Hle & Hall & Hst & Hsub); [simpl; lia|] end;
          cbn in Hle, Hall, Hst, Hsub; exists st', new;
          (split_and!; try done; try lia;
           [ intros _ Hne; rewrite Hall by done; lia
           | by apply sublist_cons ]).
Qed.

Lemma value_binds_length i (columns : list (Tcl_Obj * Tcl_Obj * casstcl_cassTypeInfo)) :
  length (value_binds i columns) = length columns.
Proof.
  revert i. induction columns as [|[[k v] ti] columns IH]; intros i; simpl; [done|].
  by rewrite IH.
Qed.

Lemma value_binds_positions i (columns : list (Tcl_Obj * Tcl_Obj * casstcl_cassTypeInfo)) :
  (value_binds i columns).*1 = seq i (length columns).
Proof.
  revert i. induction columns as [|[[k v] ti] columns IH]; intros i; simpl; [done|].
  by rewrite IH.
Qed.

(** When every bind succeeds, the second loop binds each bindable column
    once, in order. *)
Lemma bind_columns_all_ok t fields columns :
  ∀ st, bindField st + length (bindable columns) ≤ fields →
  Forall binds_ok (bindable columns) →
  bind_columns t fields columns st =
  Returned
    (mkBinding (bind_interp st)
       (mkStatement (query (statement st)) (parameter_count (statement st))
          (consistency (statement st))
          (binds (statement st) ++ value_binds (bindField st) (bindable columns)))
       (bindField st + length (bindable columns))
       (if decide (bindable columns = []) then bind_return st else TCL_OK)).
Proof.
  induction columns as [|[[name value] ti] columns IH]; intros st Hroom Hok.
  - simpl. rewrite app_nil_r, Nat.add_0_r. destruct st as [? [] ? ?]; done.
  - rewrite bindable_cons in *. cbn [snd] in *.
    destruct (decide (cassValueType ti = CASS_VALUE_TYPE_UNKNOWN)) as [E|E].
    + rewrite bind_columns_skip by done. by apply IH.
    + cbn [length value_binds] in *. apply Forall_cons in Hok as [Hc Hok]. unfold binds_ok in Hc. cbn in Hc.
      rewrite bind_columns_step by (done || lia). rewrite Hc.
      rewrite IH by (done || (simpl; lia)). cbn.
      rewrite <- app_assoc. cbn. do 2 f_equal; [lia|].
      by destruct (decide (bindable columns = [])).
Qed.

Lemma unbindable_cons (c : Tcl_Obj * Tcl_Obj * casstcl_cassTypeInfo) columns :
  unbindable (c :: columns) =
  if decide (cassValueType c.2 = CASS_VALUE_TYPE_UNKNOWN) then c :: unbindable columns
  else unbindable columns.
Proof. unfold unbindable. by rewrite filter_cons. Qed.

(** The third loop leaves [TCL_OK] only if it was [TCL_OK] before and every
    append succeeded; the map then holds every unknown column. *)
Lemma collect_unknown_ok columns :
  ∀ interp collection rc interp' collection' rc',
  collect_unknown columns interp collection rc = (interp', collection', rc') →
  rc' = TCL_OK →
  rc = TCL_OK ∧ interp' = interp ∧
  collection' =
    mkCollection (collection_type collection) (item_count collection)
      (items collection ++ map_items (unbindable columns).*1).
Proof.
  induction columns as [|[[name value] ti] columns IH];
    intros interp collection rc interp' collection' rc' Hrun Hok.
  - simpl in Hrun. inversion Hrun; subst. unfold map_items. simpl. rewrite app_nil_r.
    by destruct collection'.
  - rewrite unbindable_cons. cbn [snd]. simpl in Hrun.
    destruct (decide (cassValueType ti = CASS_VALUE_TYPE_UNKNOWN)) as [E|E];
      [|by apply (IH _ _ _ _ _ _ Hrun)].
    unfold casstcl_append_tcl_obj_to_collection in Hrun.
    destruct (append_error CASS_VALUE_TYPE_TEXT name) eqn:E1;
      [|simpl in Hrun; inversion Hrun; congruence].
    cbn [items collection_type item_count] in Hrun.
    destruct (append_error CASS_VALUE_TYPE_TEXT value) eqn:E2;
      [|simpl in Hrun; inversion Hrun; congruence].
    apply IH in Hrun as (-> & -> & ->); [|done].
    split_and!; try done. cbn. unfold map_items. cbn. by rewrite <- !app_assoc.
Qed.

Lemma zip_typed t pairs : zip pairs (typed t pairs).*2 = typed t pairs.
Proof. induction pairs as [|p pairs IH]; simpl; [done | by f_equal]. Qed.

Lemma bindable_typed t pairs :
  Forall (fun p => agrees t p.1) pairs →
  bindable (typed t pairs) = typed t (recognized_pairs t pairs).
Proof.
  induction 1 as [|p pairs Hp _ IH]; [done|].
  cbn [typed map]. rewrite bindable_cons, recognized_pairs_cons. cbn [snd].
  fold (typed t pairs). rewrite IH. unfold agrees, recognized in *.
  destruct (decide (cassValueType (typename_types t p.1).2 = CASS_VALUE_TYPE_UNKNOWN)) as [E|E];
    destruct (decide ((typename_types t p.1).1 ≠ TCL_CONTINUE)) as [E'|E']; try done.
  - apply Hp in E. done.
  - exfalso. apply E' . intros Hx. by apply Hp in Hx.
Qed.

Lemma unbindable_typed t pairs :
  Forall (fun p => agrees t p.1) pairs →
  (unbindable (typed t pairs)).*1 = unknown_pairs t pairs.
Proof.
  induction 1 as [|p pairs Hp _ IH]; [done|].
  cbn [typed map]. rewrite unbindable_cons, unknown_pairs_cons. cbn [snd].
  fold (typed t pairs). unfold agrees, recognized in *.
  destruct (decide (cassValueType (typename_types t p.1).2 = CASS_VALUE_TYPE_UNKNOWN)) as [E|E];
    destruct (decide ((typename_types t p.1).1 ≠ TCL_CONTINUE)) as [E'|E'];
    cbn; rewrite ?IH; try done.
  - apply Hp in E. done.
  - exfalso. apply E'. intros Hx. by apply Hp in Hx.
Qed.

Lemma typed_length t pairs : length (typed t pairs) = length pairs.
Proof. unfold typed. by rewrite length_map. Qed.

Lemma finish_text_closed interp ds0 (names : list string) unk types rc m ine :
  finish_text
    (mkScan interp (ds0 +:+ comma_separated names) (length names)
       (bool_decide (names ≠ [])) unk types rc) m ine
  = (ds0 +:+ comma_separated (names ++ if decide (0 < unk) then [default "" m] else [])
       +:+ ") values ("
       +:+ placeholders (length (names ++ if decide (0 < unk) then [default "" m] else []))
       +:+ (if ine then ") IF NOT EXISTS" else ")"),
     length (names ++ if decide (0 < unk) then [default "" m] else [])).
Proof.
  unfold finish_text. cbn [nUnknownToMap didOne ds nFields].
  destruct (decide (0 < unk)).
  - rewrite append_placeholders_closed. unfold Tcl_DStringAppend.
    rewrite length_app. cbn [length]. rewrite Nat.add_1_r. f_equal.
    rewrite <- comma_separated_snoc.
    destruct (bool_decide (names ≠ [])); by rewrite !string_app_assoc.
  - rewrite append_placeholders_closed. unfold Tcl_DStringAppend.
    rewrite app_nil_r. f_equal. by rewrite !string_app_assoc.
Qed.

(** The call, once the list has been split and the first loop went through
    all the pairs. *)
Lemma upsert_scanned interp t listObj listObjv c m d ine :
  Tcl_ListObjGetElements listObj = inl listObjv →
  Nat.odd (length listObjv) = false →
  Forall (fun p => (typename_types t p.1).1 ≠ TCL_ERROR) (pairs_of listObjv) →
  (d = true ∨ is_Some m ∨ Forall (fun p => recognized t p.1) (pairs_of listObjv)) →
  upsert interp t listObj c m d ine =
  bind_statement interp t (typed t (pairs_of listObjv)) c
    (insert_text t (insert_names t m d (pairs_of listObjv))
       (field_count t d (pairs_of listObjv)) ine)
    (field_count t d (pairs_of listObjv))
    (unknown_to_map t d (pairs_of listObjv))
    (code_after t TCL_OK (pairs_of listObjv)).
Proof.
  intros Hparse Hodd Hne Hpol. unfold upsert. rewrite Hparse, Hodd.
  set (ds0 := Tcl_DStringAppend (Tcl_DStringAppend (Tcl_DStringAppend Tcl_DStringInit
                "INSERT INTO ") t) " (").
  pose proof (scan_columns_closed t m d (pairs_of listObjv) [] ds0 interp 0 [] TCL_OK Hne Hpol)
    as Hscan.
  change (comma_separated []) with "" in Hscan. rewrite string_app_nil_r in Hscan.
  cbn [length app] in Hscan.
  rewrite (bool_decide_eq_false_2 ([] ≠ [])) in Hscan by (intros Hx; by apply Hx).
  rewrite Hscan. clear Hscan. cbn [nUnknownToMap tclReturn scan_interp typeInfo plus].
  rewrite zip_typed, finish_text_closed.
  assert (Hlen : length (insert_names t m d (pairs_of listObjv))
                 = field_count t d (pairs_of listObjv)).
  { unfold insert_names, field_count. rewrite length_app, length_fmap.
    by destruct (decide _). }
  rewrite <- Hlen.
  unfold insert_text, insert_names, unknown_to_map, ds0, Tcl_DStringAppend, Tcl_DStringInit.
  cbv beta iota zeta. by rewrite !string_app_assoc.
Qed.

Lemma set_consistency_spec interp stmt c rc interp1 stmt1 :
  casstcl_setStatementConsistency interp stmt c = (rc, interp1, stmt1) →
  query stmt1 = query stmt ∧ parameter_count stmt1 = parameter_count stmt ∧
  binds stmt1 = binds stmt ∧
  (rc = TCL_OK → consistency stmt = None → consistency stmt1 = c).
Proof.
  unfold casstcl_setStatementConsistency. intros Hset.
  destruct c as [lvl|]; [|by inversion Hset; subst].
  destruct (consistency_error lvl); inversion Hset; subst; done.
Qed.

Lemma statement_eta (stmt : CassStatement) :
  stmt = mkStatement (query stmt) (parameter_count stmt) (consistency stmt) (binds stmt).
Proof. by destruct stmt. Qed.

(** What the binding part leaves, whatever the outcome of the binds. *)
Lemma bind_statement_spec interp t columns c text n unk rc0 :
  length (bindable columns) + (if decide (0 < unk) then 1 else 0) ≤ n →
  ∃ b,
    bind_statement interp t columns c text n unk rc0 = Returned b ∧
    fields b = n ∧
    (created b = None → statementPtr b = None ∧ code b ≠ TCL_OK) ∧
    ∀ stmt, created b = Some stmt →
      query stmt = text ∧ parameter_count stmt = n ∧
      ∃ scalars mapb,
        binds stmt = scalars ++ mapb ∧
        scalars `sublist_of` value_binds 0 (bindable columns) ∧
        (mapb = [] ∨
         ∃ pos coll, mapb = [(pos, BoundCollection coll)] ∧
                     pos ≤ length (bindable columns) ∧ 0 < unk) ∧
        (code b = TCL_OK →
           statementPtr b = Some stmt ∧ consistency stmt = c ∧
           mapb = (if decide (0 < unk) then
                     [(length (bindable columns),
                       BoundCollection (unknown_map unk (unbindable columns).*1))]
                   else []) ∧
           (Forall binds_ok (bindable columns) →
            scalars = value_binds 0 (bindable columns))) ∧
        (code b ≠ TCL_OK → statementPtr b = None).
Proof.
  intros Hroom. unfold bind_statement.
  destruct (decide (rc0 = TCL_OK)) as [->|Hrc0].
  2:{ eexists. split; [reflexivity|]. cbn. split_and!; try done. }
  destruct (casstcl_setStatementConsistency interp (cass_statement_new text n) c)
    as [[rc interp1] stmt1] eqn:Hset.
  apply set_consistency_spec in Hset as (Hq & Hp & Hb & Hc). cbn in Hq, Hp, Hb, Hc.
  destruct (decide (rc = TCL_OK)) as [->|Hrc].
  2:{ eexists. split; [reflexivity|]. cbn. split_and!; try done.
      intros stmt [= <-]. split_and!; try done.
      exists [], []. rewrite Hb. split_and!; try done; [apply sublist_nil_l | by left]. }
  destruct (bind_columns_returns t n columns (mkBinding interp1 stmt1 0 TCL_OK))
    as (st' & new & Hrun & Hle & Hall & Hst & Hsub); [cbn; lia|].
  cbn in Hle, Hall, Hst, Hsub. rewrite Hb, Hq, Hp in Hst. cbn in Hst.
  rewrite Hrun. unfold bind_unknown_map.
  assert (Hnew : Forall binds_ok (bindable columns) →
                 new = value_binds 0 (bindable columns)).
  { intros Hok.
    rewrite (bind_columns_all_ok t n columns) in Hrun by (done || (cbn; lia)).
    inversion Hrun as [Hst']. rewrite <- Hst' in Hst. cbn in Hst.
    rewrite Hb in Hst. cbn in Hst. by inversion Hst. }
  destruct (decide (0 < unk)) as [Hunk|Hunk].
  - destruct (collect_unknown columns (bind_interp st')
                (cass_collection_new CASS_COLLECTION_TYPE_MAP unk) (bind_return st'))
      as [[interp2 coll] rc2] eqn:Hcol.
    rewrite decide_True by lia.
    unfold cass_statement_bind_collection.
    destruct (bind_collection_error (bindField st') coll) eqn:Hbc.
    + eexists. split; [reflexivity|]. cbn. split_and!; try done.
      intros stmt [= <-]. rewrite Hst. cbn. split_and!; try done.
      exists new, [(bindField st', BoundCollection coll)].
      split_and!; try done.
      * right. exists (bindField st'), coll. split_and!; try done.
      * intros ->. rewrite decide_True by done. split_and!; try done.
        -- by rewrite Hc.
        -- apply collect_unknown_ok in Hcol as (Hbr & -> & ->); [|done].
           rewrite Hall by (rewrite ?Hbr; done). done.
      * intros Hne. by rewrite decide_False.
    + eexists. split; [reflexivity|]. cbn. split_and!; try done.
      intros stmt [= <-]. rewrite Hst. cbn. split_and!; try done.
      exists new, []. rewrite app_nil_r. split_and!; try done. by left.
  - eexists. split; [reflexivity|]. cbn. split_and!; try done.
    intros stmt [= <-]. rewrite Hst. cbn. split_and!; try done.
    exists new, []. rewrite app_nil_r. split_and!; try done.
    + by left.
    + intros ->. rewrite decide_True by done. split_and!; try done. by rewrite Hc.
    + intros Hne. by rewrite decide_False.
Qed.

Lemma finish_text_unmapped sc m ine :
  nUnknownToMap sc = 0 → finish_text sc m ine = finish_text sc None ine.
Proof. unfold finish_text. intros ->. by rewrite decide_False by lia. Qed.

(** With both options given, in either order, the builder is called with
    drop-unknown set and the map column named. *)
Lemma both_options_from_objv interp t listObj c mapColumn :
  casstcl_make_upsert_statement_from_objv interp
    ["-mapunknown"; mapColumn; "-nocomplain"; t; listObj] c
  = casstcl_make_upsert_statement interp t listObj c (Some mapColumn) true false
  ∧ casstcl_make_upsert_statement_from_objv interp
      ["-nocomplain"; "-mapunknown"; mapColumn; t; listObj] c
    = casstcl_make_upsert_statement interp t listObj c (Some mapColumn) true false
  ∧ casstcl_make_upsert_statement_from_objv interp ["-nocomplain"; t; listObj] c
    = casstcl_make_upsert_statement interp t listObj c None true false.
Proof. by split_and!. Qed.

(** C5: a list with an odd number of elements is refused with the
    argument error, before any column is resolved (no entry of the type
    cache is filled in) and without a statement. *)
Theorem odd_list_is_refused interp t listObj listObjv c m d ine :
  Tcl_ListObjGetElements listObj = inl listObjv →
  Nat.odd (length listObjv) = true →
  casstcl_make_upsert_statement interp t listObj c m d ine
    = Returned
        (TCL_ERROR, None,
         set_result "key-value pair list must contain an even number of elements" interp)
  ∧ ∃ b, upsert interp t listObj c m d ine = Returned b ∧
         resolved b = [] ∧ created b = None ∧ statementPtr b = None.
Proof.
  intros Hparse Hodd. unfold casstcl_make_upsert_statement, upsert.
  rewrite Hparse, Hodd. split; [done|]. eexists. by split_and!.
Qed.

(** C6: without drop-unknown and without map-unknown, a list with a column
    the table does not have is refused; the message names the first such
    column and the table, and no statement is handed out. *)
Theorem unknown_column_is_refused interp t listObj listObjv c ine :
  Tcl_ListObjGetElements listObj = inl listObjv →
  Nat.odd (length listObjv) = false →
  Forall (fun p => (typename_types t p.1).1 ≠ TCL_ERROR) (pairs_of listObjv) →
  Exists (fun p => ¬ recognized t p.1) (pairs_of listObjv) →
  ∃ name value,
    head (unknown_pairs t (pairs_of listObjv)) = Some (name, value) ∧
    casstcl_make_upsert_statement interp t listObj c None false ine
      = Returned
          (TCL_ERROR, None,
           set_result ("unknown column '" +:+ name +:+ "' in upsert for table '" +:+ t +:+ "'")
             interp).
Proof.
  intros Hparse Hodd Hne Hex.
  destruct (unknown_pairs t (pairs_of listObjv)) as [|[name value] rest] eqn:Hunk.
  { exfalso. apply Exists_exists in Hex as (p & Hin & Hp).
    assert (p ∈ unknown_pairs t (pairs_of listObjv)) as Hin'
      by (unfold unknown_pairs; by apply list_elem_of_filter).
    rewrite Hunk in Hin'. by apply not_elem_of_nil in Hin'. }
  exists name, value. split; [done|].
  unfold casstcl_make_upsert_statement, upsert. rewrite Hparse, Hodd.
  match goal with |- context [scan_columns _ _ _ _ ?s] =>
    destruct (scan_columns_first_unknown t (pairs_of listObjv) s name value Hne) as [Hrc Hin];
      [by rewrite Hunk|] end.
  destruct (finish_text _ None ine) as [text n].
  unfold bind_statement. rewrite Hrc. rewrite decide_False by done.
  cbn [code statementPtr interp_after]. rewrite Hin. cbn [scan_interp].
  do 3 f_equal.
Qed.

Lemma code_after_ok t pairs :
  Forall (fun p => (typename_types t p.1).1 = TCL_OK) pairs →
  code_after t TCL_OK pairs = TCL_OK.
Proof.
  induction 1 as [|p pairs Hp _ IH]; [done|].
  cbn [code_after]. rewrite Hp. by rewrite decide_False by done.
Qed.

Lemma recognized_pairs_all t pairs :
  Forall (fun p => recognized t p.1) pairs → recognized_pairs t pairs = pairs.
Proof.
  induction 1 as [|p pairs Hp _ IH]; [done|].
  rewrite recognized_pairs_cons, decide_True by done. by f_equal.
Qed.

Lemma unknown_pairs_none t pairs :
  Forall (fun p => recognized t p.1) pairs → unknown_pairs t pairs = [].
Proof.
  induction 1 as [|p pairs Hp _ IH]; [done|].
  by rewrite unknown_pairs_cons, decide_True by done.
Qed.

Lemma count_char_comma_separated (names : list string) :
  Forall (fun name => count_char "?" name = 0) names →
  count_char "?" (comma_separated names) = 0.
Proof.
  induction 1 as [|name names Hn _ IH]; [done|].
  destruct names as [|name' names]; [done|].
  change (comma_separated (name :: name' :: names))
    with (name +:+ "," +:+ comma_separated (name' :: names)).
  rewrite !count_char_app, Hn, IH. done.
Qed.

Lemma count_char_insert_text t names n ine :
  count_char "?" t = 0 → Forall (fun name => count_char "?" name = 0) names →
  count_char "?" (insert_text t names n ine) = n.
Proof.
  intros Ht Hnames. unfold insert_text.
  rewrite !count_char_app, Ht, count_char_comma_separated, count_char_placeholders by done.
  change (count_char "?" "INSERT INTO ") with 0. change (count_char "?" " (") with 0.
  change (count_char "?" ") values (") with 0.
  destruct ine;
    [change (count_char "?" ") IF NOT EXISTS") with 0 | change (count_char "?" ")") with 0];
    lia.
Qed.

Lemma set_consistency_accepted interp stmt c :
  (∀ level, c = Some level → consistency_error level = CASS_OK) →
  consistency stmt = None →
  casstcl_setStatementConsistency interp stmt c =
  (TCL_OK, interp, mkStatement (query stmt) (parameter_count stmt) c (binds stmt)).
Proof.
  intros Hok Hnone. unfold casstcl_setStatementConsistency.
  destruct c as [level|].
  - rewrite (Hok level) by done. done.
  - rewrite (statement_eta stmt) at 1. by rewrite Hnone.
Qed.

(** C3: when every column of a list with an even number of elements
    resolves, and the values bind, the builder hands out a statement whose
    parameter count and whose placeholders number as the recognized
    columns, plus one when unknown columns were mapped (none are, here). *)
Theorem placeholders_match_recognized_columns interp t listObj listObjv c m d ine :
  Tcl_ListObjGetElements listObj = inl listObjv →
  Nat.odd (length listObjv) = false →
  Forall (fun p => (typename_types t p.1).1 = TCL_OK) (pairs_of listObjv) →
  Forall (fun p => agrees t p.1) (pairs_of listObjv) →
  (∀ level, c = Some level → consistency_error level = CASS_OK) →
  Forall binds_ok (typed t (pairs_of listObjv)) →
  ∃ stmt interp',
    casstcl_make_upsert_statement interp t listObj c m d ine
      = Returned (TCL_OK, Some stmt, interp') ∧
    parameter_count stmt =
      length (recognized_pairs t (pairs_of listObjv)) +
      (if decide (0 < unknown_to_map t d (pairs_of listObjv)) then 1 else 0) ∧
    query stmt =
      insert_text t (insert_names t m d (pairs_of listObjv)) (parameter_count stmt) ine ∧
    count_char "?" (placeholders (parameter_count stmt)) = parameter_count stmt ∧
    (count_char "?" t = 0 → Forall (fun p => count_char "?" p.1 = 0) (pairs_of listObjv) →
     count_char "?" (query stmt) = parameter_count stmt) ∧
    length (binds stmt) = parameter_count stmt.
Proof.
  intros Hparse Hodd Hres Hagree Hcons Hbind.
  set (pairs := pairs_of listObjv) in *.
  assert (Hrec : Forall (fun p => recognized t p.1) pairs).
  { eapply Forall_impl; [exact Hres|]. intros p Hp. unfold recognized. by rewrite Hp. }
  assert (Hne : Forall (fun p => (typename_types t p.1).1 ≠ TCL_ERROR) pairs).
  { eapply Forall_impl; [exact Hres|]. intros p Hp. by rewrite Hp. }
  assert (Hunk : unknown_to_map t d pairs = 0).
  { unfold unknown_to_map. rewrite unknown_pairs_none by done. by destruct d. }
  assert (Hn : field_count t d pairs = length pairs).
  { unfold field_count. rewrite Hunk, recognized_pairs_all by done.
    rewrite decide_False by lia. lia. }
  assert (Hnames : insert_names t m d pairs = pairs.*1).
  { unfold insert_names. rewrite Hunk, recognized_pairs_all by done.
    rewrite decide_False by lia. by rewrite app_nil_r. }
  assert (Hall : bindable (typed t pairs) = typed t pairs).
  { rewrite bindable_typed by done. by rewrite recognized_pairs_all. }
  unfold casstcl_make_upsert_statement.
  rewrite (upsert_scanned _ _ _ listObjv) by auto.
  fold pairs. rewrite Hnames, Hunk.
  rewrite code_after_ok by done.
  unfold bind_statement. rewrite decide_True by done.
  rewrite set_consistency_accepted by done. rewrite decide_True by done.
  rewrite bind_columns_all_ok; rewrite Hall; cbn [bindField];
    [|rewrite typed_length; lia|done].
  unfold bind_unknown_map. rewrite decide_False by lia.
  cbn [bind_return statement bind_interp].
  assert (Hrc : (if decide (typed t pairs = []) then TCL_OK else TCL_OK) = TCL_OK)
    by (by destruct (decide _)).
  rewrite Hrc. rewrite decide_True by done. cbn [code statementPtr interp_after].
  eexists _, _. split; [reflexivity|]. cbn [parameter_count query binds cass_statement_new].
  split_and!; try done.
  - unfold field_count. by rewrite Hunk.
  - apply count_char_placeholders.
  - intros Ht Hp. apply count_char_insert_text; [done|].
    by apply Forall_fmap.
  - cbn [app]. rewrite value_binds_length, typed_length. lia.
Qed.

(** The whole call, for a resolver whose two answers agree: it returns,
    and a statement it created has the insert text, the field count, and
    binds as follows. *)
Lemma upsert_spec interp t listObj listObjv c m d ine :
  Tcl_ListObjGetElements listObj = inl listObjv →
  Forall (fun p => agrees t p.1) (pairs_of listObjv) →
  let pairs := pairs_of listObjv in
  let columns := typed t (recognized_pairs t pairs) in
  let unk := unknown_to_map t d pairs in
  ∃ b,
    upsert interp t listObj c m d ine = Returned b ∧
    (created b = None → statementPtr b = None ∧ code b ≠ TCL_OK) ∧
    ∀ stmt, created b = Some stmt →
      (d = true ∨ is_Some m ∨ Forall (fun p => recognized t p.1) pairs) ∧
      fields b = field_count t d pairs ∧
      query stmt = insert_text t (insert_names t m d pairs) (field_count t d pairs) ine ∧
      parameter_count stmt = field_count t d pairs ∧
      ∃ scalars mapb,
        binds stmt = scalars ++ mapb ∧
        scalars `sublist_of` value_binds 0 columns ∧
        (mapb = [] ∨
         ∃ pos coll, mapb = [(pos, BoundCollection coll)] ∧ pos ≤ length columns ∧ 0 < unk) ∧
        (code b = TCL_OK →
           statementPtr b = Some stmt ∧ consistency stmt = c ∧
           mapb = (if decide (0 < unk) then
                     [(length columns,
                       BoundCollection (unknown_map unk (unknown_pairs t pairs)))]
                   else []) ∧
           (Forall binds_ok columns → scalars = value_binds 0 columns)) ∧
        (code b ≠ TCL_OK → statementPtr b = None).
Proof.
  intros Hparse Hagree pairs columns unk.
  destruct (Nat.odd (length listObjv)) eqn:Hodd.
  { unfold upsert. rewrite Hparse, Hodd. eexists. split; [reflexivity|]. by cbn. }
  destruct (decide (tclReturn
              (scan_columns t m d pairs
                 (mkScan interp
                    (Tcl_DStringAppend
                       (Tcl_DStringAppend (Tcl_DStringAppend Tcl_DStringInit "INSERT INTO ") t)
                       " (") 0 false 0 [] TCL_OK)) = TCL_OK)) as [Hok|Hfail].
  - apply scan_columns_ok_inv in Hok as [Hne Hpol].
    rewrite (upsert_scanned _ _ _ listObjv) by done. fold pairs.
    destruct (bind_statement_spec interp t (typed t pairs) c
                (insert_text t (insert_names t m d pairs) (field_count t d pairs) ine)
                (field_count t d pairs) (unknown_to_map t d pairs)
                (code_after t TCL_OK pairs))
      as (b & Hrun & Hfields & Hnone & Hsome).
    { rewrite bindable_typed, typed_length by done. unfold field_count. lia. }
    exists b. split; [done|]. split; [done|].
    intros stmt Hcreated.
    destruct (Hsome stmt Hcreated) as (Hq & Hp & scalars & mapb & Hb & Hsub & Hmap & Hcode & Hbad).
    rewrite bindable_typed in * by done.
    rewrite unbindable_typed in Hcode by done.
    rewrite typed_length in *.
    split_and!; try done.
    exists scalars, mapb. unfold columns, unk. rewrite typed_length.
    split_and!; done.
  - unfold upsert. rewrite Hparse, Hodd. fold pairs.
    destruct (finish_text _ m ine) as [text n].
    unfold bind_statement. rewrite decide_False by done.
    eexists. split; [reflexivity|]. by cbn.
Qed.

Lemma value_binds_lookup i (columns : list (Tcl_Obj * Tcl_Obj * casstcl_cassTypeInfo)) pos bv :
  (pos, bv) ∈ value_binds i columns →
  i ≤ pos ∧ ∃ name value ti,
    columns !! (pos - i) = Some (name, value, ti) ∧ bv = BoundValue ti value.
Proof.
  revert i. induction columns as [|[[k v] ti] columns IH]; intros i Hin.
  - by apply not_elem_of_nil in Hin.
  - cbn [value_binds] in Hin. apply elem_of_cons in Hin as [[= -> ->]|Hin].
    + split; [lia|]. exists k, v, ti. by rewrite Nat.sub_diag.
    + apply IH in Hin as (Hle & name & value & ti' & Hlook & ->).
      split; [lia|]. exists name, value, ti'. split; [|done].
      replace (pos - i) with (S (pos - S i)) by lia. done.
Qed.

Lemma value_binds_not_collection i
    (columns : list (Tcl_Obj * Tcl_Obj * casstcl_cassTypeInfo)) :
  Forall (fun x => ¬ is_collection_bind x) (value_binds i columns).
Proof.
  revert i. induction columns as [|[[k v] ti] columns IH]; intros i; cbn [value_binds].
  - constructor.
  - constructor; [|apply IH]. unfold is_collection_bind. cbn. tauto.
Qed.

Lemma sublist_Forall {A} (P : A → Prop) (l k : list A) :
  l `sublist_of` k → Forall P k → Forall P l.
Proof.
  intros Hsub Hk. apply Forall_forall. intros x Hx.
  apply (proj1 (Forall_forall _ _) Hk). by apply (sublist_subseteq _ _ Hsub).
Qed.

(** C1, as the code has it: when both drop-unknown and map-unknown are set,
    drop-unknown takes precedence.  The call does exactly what it does with
    drop-unknown alone, and so it is for the two options on the command
    line, in either order.  A statement it hands out (the resolver's two
    answers agreeing) names the recognized columns only and has no map
    bound: the unknown columns are left out. *)
Theorem drop_unknown_takes_precedence interp t listObj c mapColumn ine :
  upsert interp t listObj c (Some mapColumn) true ine = upsert interp t listObj c None true ine
  ∧ casstcl_make_upsert_statement interp t listObj c (Some mapColumn) true ine
    = casstcl_make_upsert_statement interp t listObj c None true ine
  ∧ casstcl_make_upsert_statement_from_objv interp
      ["-mapunknown"; mapColumn; "-nocomplain"; t; listObj] c
    = casstcl_make_upsert_statement_from_objv interp ["-nocomplain"; t; listObj] c
  ∧ casstcl_make_upsert_statement_from_objv interp
      ["-nocomplain"; "-mapunknown"; mapColumn; t; listObj] c
    = casstcl_make_upsert_statement_from_objv interp ["-nocomplain"; t; listObj] c
  ∧ ∀ listObjv stmt interp',
      Tcl_ListObjGetElements listObj = inl listObjv →
      Forall (fun p => agrees t p.1) (pairs_of listObjv) →
      casstcl_make_upsert_statement interp t listObj c (Some mapColumn) true ine
        = Returned (TCL_OK, Some stmt, interp') →
      query stmt =
        insert_text t (recognized_pairs t (pairs_of listObjv)).*1
          (length (recognized_pairs t (pairs_of listObjv))) ine ∧
      parameter_count stmt = length (recognized_pairs t (pairs_of listObjv)) ∧
      Forall (fun x => ¬ is_collection_bind x) (binds stmt).
Proof.
  assert (Hup : ∀ ine', upsert interp t listObj c (Some mapColumn) true ine'
                        = upsert interp t listObj c None true ine').
  { intros ine'. unfold upsert.
    destruct (Tcl_ListObjGetElements listObj) as [listObjv|msg]; [|done].
    destruct (Nat.odd (length listObjv)); [done|].
    rewrite scan_columns_drop.
    rewrite finish_text_unmapped; [done|]. by rewrite scan_columns_drop_unknown. }
  assert (Hmake : ∀ ine', casstcl_make_upsert_statement interp t listObj c (Some mapColumn) true ine'
                          = casstcl_make_upsert_statement interp t listObj c None true ine').
  { intros ine'. unfold casstcl_make_upsert_statement. by rewrite Hup. }
  destruct (both_options_from_objv interp t listObj c mapColumn) as (H1 & H2 & H3).
  split_and!; [done | done | | |].
  - exact (eq_trans H1 (eq_trans (Hmake false) (eq_sym H3))).
  - exact (eq_trans H2 (eq_trans (Hmake false) (eq_sym H3))).
  - intros listObjv stmt interp' Hparse Hagree Hrun.
    destruct (upsert_spec interp t listObj listObjv c (Some mapColumn) true ine Hparse Hagree)
      as (b & Hb & Hnone & Hsome).
    unfold casstcl_make_upsert_statement in Hrun. rewrite Hb in Hrun.
    injection Hrun as Hcode Hptr Hint.
    destruct (created b) as [stmt'|] eqn:Hcreated.
    2:{ destruct (Hnone eq_refl) as [_ Hbad]. done. }
    destruct (Hsome stmt' eq_refl)
      as (_ & Hfields & Hq & Hp & scalars & mapb & Hbinds & Hsub & _ & Hok & _).
    destruct (Hok Hcode) as (Hptr' & _ & Hmap & _).
    rewrite Hptr in Hptr'. injection Hptr' as <-.
    assert (Hcount : field_count t true (pairs_of listObjv)
                     = length (recognized_pairs t (pairs_of listObjv))).
    { unfold field_count, unknown_to_map. rewrite decide_False by lia. lia. }
    assert (Hnames : insert_names t (Some mapColumn) true (pairs_of listObjv)
                     = (recognized_pairs t (pairs_of listObjv)).*1).
    { unfold insert_names, unknown_to_map. rewrite decide_False by lia. by rewrite app_nil_r. }
    rewrite Hcount, Hnames in Hq. rewrite Hcount in Hp.
    unfold unknown_to_map in Hmap. rewrite decide_False in Hmap by lia.
    split_and!; try done. rewrite Hbinds, Hmap, app_nil_r.
    eapply sublist_Forall; [exact Hsub | apply value_binds_not_collection].
Qed.

(** C4: with map-unknown set and drop-unknown unset, a statement built from
    a list that has unknown columns names the map column last, after the
    recognized columns, and its last bind, the only one of a collection, is
    a map holding the names and values of all the unknown columns, as
    text. *)
Theorem unknown_columns_are_mapped_last interp t listObj listObjv c mapColumn ine stmt interp' :
  Tcl_ListObjGetElements listObj = inl listObjv →
  Forall (fun p => agrees t p.1) (pairs_of listObjv) →
  unknown_pairs t (pairs_of listObjv) ≠ [] →
  casstcl_make_upsert_statement interp t listObj c (Some mapColumn) false ine
    = Returned (TCL_OK, Some stmt, interp') →
  let known := recognized_pairs t (pairs_of listObjv) in
  let unknown := unknown_pairs t (pairs_of listObjv) in
  query stmt = insert_text t (known.*1 ++ [mapColumn]) (S (length known)) ine ∧
  parameter_count stmt = S (length known) ∧
  ∃ scalars,
    binds stmt =
      scalars ++
      [(length known,
        BoundCollection
          (mkCollection CASS_COLLECTION_TYPE_MAP (length unknown) (map_items unknown)))] ∧
    scalars `sublist_of` value_binds 0 (typed t known) ∧
    Forall (fun x => ¬ is_collection_bind x) scalars.
Proof.
  intros Hparse Hagree Hunk Hrun known unknown.
  destruct (upsert_spec interp t listObj listObjv c (Some mapColumn) false ine Hparse Hagree)
    as (b & Hb & Hnone & Hsome).
  unfold casstcl_make_upsert_statement in Hrun. rewrite Hb in Hrun.
  injection Hrun as Hcode Hptr Hint.
  destruct (created b) as [stmt'|] eqn:Hcreated.
  2:{ destruct (Hnone eq_refl) as [_ Hbad]. done. }
  destruct (Hsome stmt' eq_refl)
    as (_ & Hfields & Hq & Hp & scalars & mapb & Hbinds & Hsub & _ & Hok & _).
  destruct (Hok Hcode) as (Hptr' & _ & Hmap & _).
  rewrite Hptr in Hptr'. injection Hptr' as <-.
  assert (Hpos : 0 < unknown_to_map t false (pairs_of listObjv)).
  { unfold unknown_to_map. clear -Hunk.
    destruct (unknown_pairs t (pairs_of listObjv)); [done | cbn; lia]. }
  assert (Hcount : field_count t false (pairs_of listObjv) = S (length known)).
  { unfold field_count. rewrite decide_True by done. fold known. lia. }
  assert (Hnames : insert_names t (Some mapColumn) false (pairs_of listObjv)
                   = known.*1 ++ [mapColumn]).
  { unfold insert_names. by rewrite decide_True by done. }
  rewrite Hcount, Hnames in Hq. rewrite Hcount in Hp.
  rewrite decide_True in Hmap by done. rewrite typed_length in Hmap.
  split_and!; try done.
  exists scalars. rewrite Hbinds, Hmap. split_and!; try done.
  eapply sublist_Forall; [exact Hsub | apply value_binds_not_collection].
Qed.

(** C10, as the code has it: for a resolver whose two answers agree, the
    call returns, so neither assertion fails; every bind it made on the
    statement is at a position below [nFields]; a value is bound at the
    position its column has among the recognized columns, that is at the
    number of recognized columns before it, and in their order; at most one
    map is bound, after the values.  When the statement is handed out and
    every value was accepted, the positions bound are 0 .. nFields-1, each
    once and in order, so that a map is at nFields-1. *)
Theorem binds_stay_below_fields interp t listObj listObjv c m d ine :
  Tcl_ListObjGetElements listObj = inl listObjv →
  Forall (fun p => agrees t p.1) (pairs_of listObjv) →
  let columns := typed t (recognized_pairs t (pairs_of listObjv)) in
  ∃ b,
    upsert interp t listObj c m d ine = Returned b ∧
    ∀ stmt, created b = Some stmt →
      Forall (fun x => x.1 < fields b) (binds stmt) ∧
      (∀ pos ti value, (pos, BoundValue ti value) ∈ binds stmt →
         ∃ name, columns !! pos = Some (name, value, ti)) ∧
      (∃ scalars mapb,
         binds stmt = scalars ++ mapb ∧ scalars `sublist_of` value_binds 0 columns ∧
         Forall is_collection_bind mapb ∧ length mapb ≤ 1) ∧
      (code b = TCL_OK → Forall binds_ok columns →
         (binds stmt).*1 = seq 0 (fields b) ∧
         ∀ pos coll, (pos, BoundCollection coll) ∈ binds stmt → pos = fields b - 1).
Proof.
  intros Hparse Hagree columns.
  destruct (upsert_spec interp t listObj listObjv c m d ine Hparse Hagree)
    as (b & Hb & Hnone & Hsome).
  exists b. split; [done|]. intros stmt Hcreated.
  destruct (Hsome stmt Hcreated)
    as (_ & Hfields & _ & _ & scalars & mapb & Hbinds & Hsub & Hmap & Hok & _).
  fold columns in Hsub, Hmap, Hok.
  assert (Hlen : length columns = length (recognized_pairs t (pairs_of listObjv)))
    by apply typed_length.
  assert (Hscalar : ∀ pos bv, (pos, bv) ∈ scalars →
            pos < length columns ∧
            ∃ name value ti, columns !! pos = Some (name, value, ti) ∧ bv = BoundValue ti value).
  { intros pos bv Hin. apply (sublist_subseteq _ _ Hsub) in Hin.
    apply value_binds_lookup in Hin as (_ & name & value & ti & Hlook & ->).
    rewrite Nat.sub_0_r in Hlook. split; [by eapply lookup_lt_Some|]. by exists name, value, ti. }
  assert (Hmapb : Forall is_collection_bind mapb ∧ length mapb ≤ 1 ∧
                  ∀ pos bv, (pos, bv) ∈ mapb → pos ≤ length columns ∧
                    0 < unknown_to_map t d (pairs_of listObjv)).
  { destruct Hmap as [->|(pos & coll & -> & Hle & Hpos)].
    - split_and!; [constructor | cbn; lia |]. intros ? ? Hin. by apply not_elem_of_nil in Hin.
    - split_and!; [by repeat constructor | cbn; lia |].
      intros pos' bv Hin. apply list_elem_of_singleton in Hin as [= -> ->]. done. }
  destruct Hmapb as (Hcoll & Hone & Hmpos).
  split_and!.
  - rewrite Hbinds, Hfields. apply Forall_app. split; apply Forall_forall; intros [pos bv] Hin.
    + apply Hscalar in Hin as [Hlt _]. unfold field_count. cbn. lia.
    + apply Hmpos in Hin as [Hle Hpos]. unfold field_count. rewrite decide_True by done.
      cbn. lia.
  - intros pos ti value Hin. rewrite Hbinds in Hin. apply elem_of_app in Hin as [Hin|Hin].
    + apply Hscalar in Hin as (_ & name & value' & ti' & Hlook & [= -> ->]). by exists name.
    + exfalso. by apply (proj1 (Forall_forall _ _) Hcoll) in Hin.
  - by exists scalars, mapb.
  - intros Hcode Hall. destruct (Hok Hcode) as (_ & _ & -> & Hfull). rewrite (Hfull Hall) in *.
    rewrite Hbinds, Hfields. unfold field_count.
    destruct (decide (0 < unknown_to_map t d (pairs_of listObjv))) as [Hpos|Hpos].
    + split.
      * rewrite fmap_app, value_binds_positions. cbn. rewrite Nat.add_1_r, seq_S.
        by rewrite <- Hlen.
      * intros pos coll Hin. apply elem_of_app in Hin as [Hin|Hin].
        -- apply value_binds_lookup in Hin as (_ & ? & ? & ? & _ & ?). done.
        -- apply list_elem_of_singleton in Hin as [= -> _]. lia.
    + split.
      * rewrite app_nil_r, value_binds_positions, Nat.add_0_r. by rewrite Hlen.
      * intros pos coll Hin. rewrite app_nil_r in Hin.
        apply value_binds_lookup in Hin as (_ & ? & ? & ? & _ & ?). done.
Qed.

End UpsertFacts.

(** *** The builder on [ks.users] *)

Section UpsertExamples.
Import Upsert Fixture.
#[local] Existing Instance users.

Ltac agreeing :=
  cbn [pairs_of];
  repeat (apply Forall_cons; split;
          [split; intros Hx; vm_compute in Hx; try discriminate Hx; reflexivity|]);
  apply Forall_nil_2.

(** C1 fails as stated: with drop-unknown and map-unknown both set,
    [nickname] is dropped, not put into [extra]. *)
Lemma both_policies_drop_the_unknown_column :
  casstcl_make_upsert_statement interp0 "ks.users" "id 1 name Bob nickname Bobby" None
    (Some "extra") true false
  = Returned (TCL_OK, Some insert_id_name, interp0)
  ∧ casstcl_make_upsert_statement_from_objv interp0
      ["-mapunknown"; "extra"; "-nocomplain"; "ks.users"; "id 1 name Bob nickname Bobby"] None
    = Returned (TCL_OK, Some insert_id_name, interp0)
  ∧ ¬ binds_unknown_columns "ks.users" [("id", "1"); ("name", "Bob"); ("nickname", "Bobby")]
        insert_id_name.
Proof.
  split; [reflexivity|]. split; [reflexivity|]. intros (pos & count & Hin). cbn in Hin.
  repeat (apply elem_of_cons in Hin as [Hin|Hin]; [discriminate Hin|]).
  by apply not_elem_of_nil in Hin.
Qed.

Lemma drop_unknown_takes_precedence_witness :
  query insert_id_name = insert_text "ks.users" [("id", "1"); ("name", "Bob")].*1 2 false ∧
  parameter_count insert_id_name = 2 ∧
  Forall (fun x => ¬ is_collection_bind x) (binds insert_id_name).
Proof.
  assert (Hagree : Forall (fun p => agrees "ks.users" p.1)
                      (pairs_of ["id"; "1"; "name"; "Bob"; "nickname"; "Bobby"]))
    by agreeing.
  exact (proj2 (proj2 (proj2 (proj2
           (drop_unknown_takes_precedence interp0 "ks.users" "id 1 name Bob nickname Bobby"
              None "extra" false))))
           ["id"; "1"; "name"; "Bob"; "nickname"; "Bobby"] insert_id_name interp0
           eq_refl Hagree eq_refl).
Defined.

Lemma placeholders_match_recognized_columns_witness :
  ∃ stmt interp',
    casstcl_make_upsert_statement interp0 "ks.users" "id 1 name Bob" None None false false
      = Returned (TCL_OK, Some stmt, interp') ∧
    parameter_count stmt = 2 + 0 ∧
    query stmt = "INSERT INTO ks.users (id,name) values (?,?)" ∧
    count_char "?" (placeholders (parameter_count stmt)) = parameter_count stmt ∧
    (count_char "?" "ks.users" = 0 →
     Forall (fun p => count_char "?" p.1 = 0) [("id", "1"); ("name", "Bob")] →
     count_char "?" (query stmt) = parameter_count stmt) ∧
    length (binds stmt) = parameter_count stmt.
Proof.
  destruct (placeholders_match_recognized_columns interp0 "ks.users" "id 1 name Bob"
              ["id"; "1"; "name"; "Bob"] None None false false)
    as (stmt & interp' & Hrun & Hcount & Hquery & Hmarks & Hall & Hbinds).
  - reflexivity.
  - reflexivity.
  - repeat constructor.
  - agreeing.
  - intros level Hlevel. discriminate Hlevel.
  - repeat constructor.
  - exists stmt, interp'. split_and!; try done.
    rewrite Hquery, Hcount. reflexivity.
Defined.

Lemma unknown_columns_are_mapped_last_witness :
  query insert_id_name_extra
    = insert_text "ks.users" ([("id", "1"); ("name", "Bob")].*1 ++ ["extra"]) 3 false ∧
  parameter_count insert_id_name_extra = 3 ∧
  ∃ scalars,
    binds insert_id_name_extra =
      scalars ++
      [(2, BoundCollection
             (mkCollection CASS_COLLECTION_TYPE_MAP 1 (map_items [("nickname", "Bobby")])))] ∧
    scalars `sublist_of`
      value_binds 0 (typed "ks.users" [("id", "1"); ("name", "Bob")]) ∧
    Forall (fun x => ¬ is_collection_bind x) scalars.
Proof.
  assert (Hagree : Forall (fun p => agrees "ks.users" p.1)
                      (pairs_of ["id"; "1"; "name"; "Bob"; "nickname"; "Bobby"]))
    by agreeing.
  assert (Hunknown : unknown_pairs "ks.users"
                       (pairs_of ["id"; "1"; "name"; "Bob"; "nickname"; "Bobby"]) ≠ [])
    by (vm_compute; discriminate).
  exact (unknown_columns_are_mapped_last interp0 "ks.users" "id 1 name Bob nickname Bobby"
           ["id"; "1"; "name"; "Bob"; "nickname"; "Bobby"] None "extra" false
           insert_id_name_extra interp0 eq_refl Hagree Hunknown eq_refl).
Defined.

Lemma odd_list_is_refused_witness :
  casstcl_make_upsert_statement interp0 "ks.users" "id 1 name" None None false false
    = Returned
        (TCL_ERROR, None,
         set_result "key-value pair list must contain an even number of elements" interp0)
  ∧ ∃ b, upsert interp0 "ks.users" "id 1 name" None None false false = Returned b ∧
         resolved b = [] ∧ created b = None ∧ statementPtr b = None.
Proof.
  apply (odd_list_is_refused interp0 "ks.users" "id 1 name" ["id"; "1"; "name"]).
  - reflexivity.
  - reflexivity.
Defined.

Lemma unknown_column_is_refused_witness :
  ∃ name value,
    head (unknown_pairs "ks.users" [("id", "1"); ("nickname", "Bobby"); ("name", "Bob")])
      = Some (name, value) ∧
    casstcl_make_upsert_statement interp0 "ks.users" "id 1 nickname Bobby name Bob" None
      None false false
      = Returned
          (TCL_ERROR, None,
           set_result
             ("unknown column '" +:+ name +:+ "' in upsert for table '" +:+ "ks.users" +:+ "'")
             interp0).
Proof.
  apply (unknown_column_is_refused interp0 "ks.users" "id 1 nickname Bobby name Bob"
           ["id"; "1"; "nickname"; "Bobby"; "name"; "Bob"] None false).
  - reflexivity.
  - reflexivity.
  - cbn [pairs_of]. repeat (apply Forall_cons; split; [vm_compute; discriminate|]).
    apply Forall_nil_2.
  - cbn [pairs_of]. apply Exists_cons_tl, Exists_cons_hd.
    intros Hx. apply Hx. reflexivity.
Defined.

(** C10 fails as stated: [age] is an [int] and [abc] does not bind, so the
    second loop stops with [bindField] at 1; the map is then bound at
    position 1, not at nFields-1 = 2, and positions 0 and 2 stay unbound. *)
Lemma failed_bind_moves_the_map :
  upsert interp0 "ks.users" "age abc name Bob nickname Bobby" None (Some "extra") false false
    = Returned insert_age_name_extra
  ∧ ¬ binds_every_placeholder insert_age_name_extra.
Proof.
  split; [reflexivity|]. intros Hclaim.
  destruct (Hclaim _ eq_refl) as [_ Hseq]. discriminate Hseq.
Qed.

(** The agreement of the resolver's two answers is needed: with the
    careless resolver and drop-unknown, [nickname] is not counted in
    [nFields] by the first loop and yet bound by the second, whose assertion
    then fails. *)
Lemma assertion_needs_agreement :
  @upsert careless interp0 "ks.users" "id 1 nickname Bobby" None None true false
  = AssertionFailed "bindField < nFields".
Proof. reflexivity. Qed.

Lemma binds_stay_below_fields_witness :
  ∃ b,
    upsert interp0 "ks.users" "id 1 name Bob nickname Bobby" None (Some "extra") false false
      = Returned b ∧
    ∀ stmt, created b = Some stmt →
      Forall (fun x => x.1 < fields b) (binds stmt) ∧
      (∀ pos ti value, (pos, BoundValue ti value) ∈ binds stmt →
         ∃ name,
           typed "ks.users" [("id", "1"); ("name", "Bob")] !! pos = Some (name, value, ti)) ∧
      (∃ scalars mapb,
         binds stmt = scalars ++ mapb ∧
         scalars `sublist_of` value_binds 0 (typed "ks.users" [("id", "1"); ("name", "Bob")]) ∧
         Forall is_collection_bind mapb ∧ length mapb ≤ 1) ∧
      (code b = TCL_OK →
       Forall binds_ok (typed "ks.users" [("id", "1"); ("name", "Bob")]) →
         (binds stmt).*1 = seq 0 (fields b) ∧
         ∀ pos coll, (pos, BoundCollection coll) ∈ binds stmt → pos = fields b - 1).
Proof.
  assert (Hagree : Forall (fun p => agrees "ks.users" p.1)
                      (pairs_of ["id"; "1"; "name"; "Bob"; "nickname"; "Bobby"]))
    by agreeing.
  exact (binds_stay_below_fields interp0 "ks.users" "id 1 name Bob nickname Bobby"
           ["id"; "1"; "name"; "Bob"; "nickname"; "Bobby"] None (Some "extra") false false
           eq_refl Hagree).
Defined.

End UpsertExamples.

(** ** The paginated query executor *)

Section SelectFacts.
Context `{Collaborators}.
Import Select.

Lemma ends_in_clean_cons e new st :
  ¬ stops e → ends_in new st → ends_in (e :: new) st.
Proof.
  intros He [Hclean|(pre & e' & -> & Hpre & Hstop & Hleft)].
  - left. by constructor.
  - right. exists (e :: pre), e'. split_and!; try done. by constructor.
Qed.

Lemma ends_in_clean_app new1 new2 st :
  Forall (fun e => ¬ stops e) new1 → ends_in new2 st → ends_in (new1 ++ new2) st.
Proof.
  induction 1 as [|e new1 He _ IH]; [done|].
  intros Hend. cbn [app]. apply ends_in_clean_cons; auto.
Qed.

(** The rows of a page: the loop adds evaluations, ending as [ends_in]
    says. *)
Lemma process_rows_log codeObj arrayName result count rows :
  ∀ st, ∃ new,
    events (process_rows codeObj arrayName result count rows st) = events st ++ new ∧
    ends_in new (process_rows codeObj arrayName result count rows st).
Proof.
  induction rows as [|row rows IH]; intros st.
  - exists []. cbn. rewrite app_nil_r. split; [done | by left].
  - cbn [process_rows].
    destruct (set_columns arrayName result row 0 count (loop_interp st) (tclReturn st))
      as [interp1 rc1].
    destruct (codeObj interp1) as [evalReturnCode interp2].
    destruct evalReturnCode.
    1, 5: match goal with |- context [process_rows _ _ _ _ _ ?s] =>
            destruct (IH s) as (new & Hev & Hend) end;
          cbn [events] in Hev;
          match goal with |- context [Evaluated ?c ?i] =>
            exists (Evaluated c i :: new) end;
          (split;
           [ by rewrite Hev, <- app_assoc
           | apply ends_in_clean_cons; [cbn; tauto | done] ]).
    + exists [Evaluated TCL_ERROR interp2]. cbn. split; [done|].
      right. exists [], (Evaluated TCL_ERROR interp2). by split_and!.
    + exists [Evaluated TCL_RETURN interp2]. cbn. split; [done|].
      left. repeat constructor. cbn. tauto.
    + exists [Evaluated TCL_BREAK interp2]. cbn. split; [done|].
      right. exists [], (Evaluated TCL_BREAK interp2). by split_and!.
Qed.

Lemma left_with_not_ok e st : stops e → left_with e st → tclReturn st ≠ TCL_OK.
Proof.
  destruct e as [future|code after]; cbn.
  - intros _ [-> _]. done.
  - destruct code; try tauto; intros _ [-> _]; done.
Qed.

Lemma ends_in_ok new st :
  ends_in new st → tclReturn st = TCL_OK → Forall (fun e => ¬ stops e) new.
Proof.
  intros [Hclean|(pre & e & -> & Hpre & Hstop & Hleft)] Hok; [done|].
  by apply left_with_not_ok in Hleft.
Qed.

(** One turn of the do-while loop. *)
Lemma run_page_log codeObj arrayName future st :
  ∃ new,
    events (run_page codeObj arrayName future st).1 = events st ++ Executed future :: new ∧
    ends_in (Executed future :: new) (run_page codeObj arrayName future st).1 ∧
    ((run_page codeObj arrayName future st).2 = true →
     new = [] ∧ stops (Executed future)).
Proof.
  unfold run_page. destruct (error_code future) eqn:Herr.
  - destruct (future_result future) as [result|] eqn:Hres.
    + match goal with |- context [process_rows _ _ _ ?n _ ?s] =>
        destruct (process_rows_log codeObj arrayName result n (rows result) s)
          as (new & Hev & Hend) end.
      cbn [events] in Hev. exists new. cbn [fst snd]. split_and!; [| | done].
      * by rewrite Hev, <- app_assoc.
      * apply ends_in_clean_cons; [|done]. cbn. rewrite Herr, Hres. intros [?|?]; done.
    + exists []. cbn [fst snd events]. split_and!; [done | | ].
      * right. exists [], (Executed future). cbn. split_and!; try done. by right.
      * intros _. split; [done|]. cbn. by right.
  - exists []. cbn [fst snd events casstcl_future_error_to_tcl]. split_and!; [done | | ].
    + right. exists [], (Executed future). cbn. rewrite Herr. split_and!; try done. by left.
    + intros _. split; [done|]. cbn. rewrite Herr. by left.
Qed.

(** The do-while loop. *)
Lemma fetch_pages_log codeObj arrayName pages :
  ∀ st, ∃ new,
    events (fetch_pages codeObj arrayName pages st) = events st ++ new ∧
    ends_in new (fetch_pages codeObj arrayName pages st).
Proof.
  induction pages as [future|future pages IH]; intros st; cbn [fetch_pages].
  - destruct (run_page_log codeObj arrayName future st) as (new & Hev & Hend & _).
    by exists (Executed future :: new).
  - destruct (run_page_log codeObj arrayName future st) as (new & Hev & Hend & Hbroke).
    destruct (run_page codeObj arrayName future st) as [st1 broke]. cbn [fst snd] in *.
    destruct broke; [by exists (Executed future :: new)|].
    destruct (decide (tclReturn st1 = TCL_OK)) as [Hok|Hne];
      [|by exists (Executed future :: new)].
    destruct (IH st1) as (new2 & Hev2 & Hend2).
    exists ((Executed future :: new) ++ new2). split.
    + by rewrite Hev2, Hev, <- app_assoc.
    + apply ends_in_clean_app; [|done]. by eapply ends_in_ok.
Qed.

Lemma evaluations_app log1 log2 :
  evaluations (log1 ++ log2) = evaluations log1 ++ evaluations log2.
Proof. unfold evaluations. by rewrite omap_app. Qed.

Lemma executions_app log1 log2 :
  executions (log1 ++ log2) = executions log1 ++ executions log2.
Proof. unfold executions. by rewrite omap_app. Qed.

Lemma evaluations_elem code after log :
  (code, after) ∈ evaluations log → Evaluated code after ∈ log.
Proof.
  unfold evaluations. intros Hin. apply list_elem_of_omap in Hin as (e & He & Hf).
  destruct e; [done|]. by injection Hf as -> ->.
Qed.

Lemma executions_elem future log : future ∈ executions log → Executed future ∈ log.
Proof.
  unfold executions. intros Hin. apply list_elem_of_omap in Hin as (e & He & Hf).
  destruct e; [|done]. by injection Hf as ->.
Qed.

(** An event that stops, found in the events of the loops, is the last of
    them, and the locals are as it leaves them. *)
Lemma stopping_event_is_last new st e :
  ends_in new st → e ∈ new → stops e →
  ∃ pre, new = pre ++ [e] ∧ Forall (fun e => ¬ stops e) pre ∧ left_with e st.
Proof.
  intros [Hclean|(pre & e' & -> & Hpre & Hstop & Hleft)] Hin He.
  - exfalso. by apply (proj1 (Forall_forall _ _) Hclean e Hin).
  - apply elem_of_app in Hin as [Hin|Hin].
    + exfalso. by apply (proj1 (Forall_forall _ _) Hpre e Hin).
    + apply list_elem_of_singleton in Hin as ->. by exists pre.
Qed.

(** The whole call: its events end as [ends_in] says, in locals from which
    the completion code and the interpreter follow. *)
Lemma casstcl_select_log ct query arrayName codeObj pagingSize c :
  let r := casstcl_select ct query arrayName codeObj pagingSize c in
  trace r = [] ∨
  ∃ st,
    ends_in (trace r) st ∧
    code r = (if decide (tclReturn st = TCL_BREAK) then TCL_OK else tclReturn st) ∧
    interp_after r = Tcl_UnsetVar (loop_interp st) arrayName.
Proof.
  unfold casstcl_select.
  destruct (casstcl_setStatementConsistency (interp ct) (cass_statement_new query 0) c)
    as [[rc interp1] stmt1].
  destruct (decide (rc = TCL_OK)); [|by left]. right.
  match goal with |- context [fetch_pages _ _ ?p ?s] =>
    destruct (fetch_pages_log codeObj arrayName p s) as (new & Hev & Hend);
    exists (fetch_pages codeObj arrayName p s) end.
  cbn [events app] in Hev. cbn [trace code interp_after]. rewrite Hev. by split_and!.
Qed.

Lemma fetch_pages_starts codeObj arrayName pages st :
  ∃ future rest,
    events (fetch_pages codeObj arrayName pages st) = events st ++ Executed future :: rest.
Proof.
  destruct pages as [future|future pages]; cbn [fetch_pages].
  - destruct (run_page_log codeObj arrayName future st) as (new & Hev & _). eauto.
  - destruct (run_page_log codeObj arrayName future st) as (new & Hev & _).
    destruct (run_page codeObj arrayName future st) as [st1 broke]. cbn [fst] in Hev.
    destruct broke; [eauto|]. destruct (decide (tclReturn st1 = TCL_OK)); [|eauto].
    destruct (fetch_pages_log codeObj arrayName pages st1) as (new2 & Hev2 & _).
    exists future, (new ++ new2). rewrite Hev2, Hev, <- app_assoc. done.
Qed.

Lemma casstcl_select_starts ct query arrayName codeObj pagingSize c :
  let r := casstcl_select ct query arrayName codeObj pagingSize c in
  trace r = [] ∨ ∃ future rest, trace r = Executed future :: rest.
Proof.
  unfold casstcl_select.
  destruct (casstcl_setStatementConsistency (interp ct) (cass_statement_new query 0) c)
    as [[rc interp1] stmt1].
  destruct (decide (rc = TCL_OK)); [|by left]. right.
  match goal with |- context [fetch_pages _ _ ?p ?s] =>
    destruct (fetch_pages_starts codeObj arrayName p s) as (future & rest & Hev) end.
  cbn [trace]. rewrite Hev. eauto.
Qed.

(** An evaluation that stops the loops is the last event of the call. *)
Lemma stopped_by_evaluation ct query arrayName codeObj pagingSize c k code0 after :
  let r := casstcl_select ct query arrayName codeObj pagingSize c in
  evaluations (trace r) !! k = Some (code0, after) →
  stops (Evaluated code0 after) →
  ∃ st pre,
    trace r = pre ++ [Evaluated code0 after] ∧
    length (evaluations (trace r)) = S k ∧
    left_with (Evaluated code0 after) st ∧
    code r = (if decide (tclReturn st = TCL_BREAK) then TCL_OK else tclReturn st) ∧
    interp_after r = Tcl_UnsetVar (loop_interp st) arrayName.
Proof.
  intros r Hk Hstop.
  assert (Hin : Evaluated code0 after ∈ trace r)
    by (eapply evaluations_elem, list_elem_of_lookup_2, Hk).
  destruct (casstcl_select_log ct query arrayName codeObj pagingSize c)
    as [Hnil|(st & Hend & Hcode & Hint)]; fold r in Hnil || fold r in Hend, Hcode, Hint.
  { rewrite Hnil in Hin. by apply not_elem_of_nil in Hin. }
  destruct (stopping_event_is_last _ _ _ Hend Hin Hstop) as (pre & Htrace & Hpre & Hleft).
  exists st, pre. split_and!; try done.
  rewrite Htrace, evaluations_app in Hk |- *. cbn in Hk |- *. rewrite length_app. cbn.
  destruct (decide (k < length (evaluations pre))) as [Hlt|Hge].
  - exfalso. rewrite lookup_app_l in Hk by done.
    apply list_elem_of_lookup_2, evaluations_elem in Hk.
    by apply (proj1 (Forall_forall _ _) Hpre _ Hk).
  - rewrite lookup_app_r in Hk by lia.
    destruct (k - length (evaluations pre)) as [|n] eqn:Hn; [lia|done].
Qed.

(** An execution that fails or has no result is the last event. *)
Lemma stopped_by_execution ct query arrayName codeObj pagingSize c k future :
  let r := casstcl_select ct query arrayName codeObj pagingSize c in
  executions (trace r) !! k = Some future →
  stops (Executed future) →
  ∃ st pre,
    trace r = pre ++ [Executed future] ∧
    length (executions (trace r)) = S k ∧
    left_with (Executed future) st ∧
    code r = (if decide (tclReturn st = TCL_BREAK) then TCL_OK else tclReturn st) ∧
    interp_after r = Tcl_UnsetVar (loop_interp st) arrayName.
Proof.
  intros r Hk Hstop.
  assert (Hin : Executed future ∈ trace r)
    by (eapply executions_elem, list_elem_of_lookup_2, Hk).
  destruct (casstcl_select_log ct query arrayName codeObj pagingSize c)
    as [Hnil|(st & Hend & Hcode & Hint)]; fold r in Hnil || fold r in Hend, Hcode, Hint.
  { rewrite Hnil in Hin. by apply not_elem_of_nil in Hin. }
  destruct (stopping_event_is_last _ _ _ Hend Hin Hstop) as (pre & Htrace & Hpre & Hleft).
  exists st, pre. split_and!; try done.
  rewrite Htrace, executions_app in Hk |- *. cbn in Hk |- *. rewrite length_app. cbn.
  destruct (decide (k < length (executions pre))) as [Hlt|Hge].
  - exfalso. rewrite lookup_app_l in Hk by done.
    apply list_elem_of_lookup_2, executions_elem in Hk.
    by apply (proj1 (Forall_forall _ _) Hpre _ Hk).
  - rewrite lookup_app_r in Hk by lia.
    destruct (k - length (executions pre)) as [|n] eqn:Hn; [lia|done].
Qed.

(** *** The rows the body is evaluated for *)










(** C7, as the code has it: when the body fails, that evaluation is the
    last event of the call, the call fails, and the error info the body left
    is extended with the line of the body the interpreter reports the error
    at, not with the number of the row. *)
Theorem body_failure_is_decorated_with_its_line ct query arrayName codeObj pagingSize c k after :
  let r := casstcl_select ct query arrayName codeObj pagingSize c in
  evaluations (trace r) !! k = Some (TCL_ERROR, after) →
  length (evaluations (trace r)) = S k ∧
  last (trace r) = Some (Evaluated TCL_ERROR after) ∧
  code r = TCL_ERROR ∧
  errorInfo (interp_after r) = errorInfo after +:+ body_line_message (errorLine after) ∧
  result (interp_after r) = result after.
Proof.
  intros r Hk.
  destruct (stopped_by_evaluation ct query arrayName codeObj pagingSize c k _ _ Hk)
    as (st & pre & Htrace & Hlen & [Hrc Hint] & Hcode & Hafter); [done|].
  fold r in Htrace, Hlen, Hcode, Hafter. split_and!; [done | | | |].
  - rewrite Htrace. apply last_snoc.
  - rewrite Hcode, Hrc. by rewrite decide_False.
  - by rewrite Hafter, Hint.
  - by rewrite Hafter, Hint.
Qed.

(** C8: an execution that succeeds without a result is the last event of
    the call, so the body is not evaluated for it; the call returns
    [TCL_ERROR] with the message that the future has no result.  When it is
    the first execution, the body is never evaluated. *)
Theorem missing_result_is_an_error ct query arrayName codeObj pagingSize c k future :
  let r := casstcl_select ct query arrayName codeObj pagingSize c in
  executions (trace r) !! k = Some future →
  error_code future = CASS_OK →
  future_result future = None →
  last (trace r) = Some (Executed future) ∧
  length (executions (trace r)) = S k ∧
  code r = TCL_ERROR ∧
  result (interp_after r) = "future has no result" ∧
  (k = 0 → trace r = [Executed future] ∧ evaluations (trace r) = []).
Proof.
  intros r Hk Herr Hres.
  destruct (stopped_by_execution ct query arrayName codeObj pagingSize c k _ Hk)
    as (st & pre & Htrace & Hlen & [Hrc Hmsg] & Hcode & Hafter); [by right|].
  fold r in Htrace, Hlen, Hcode, Hafter. split_and!; [| done | | |].
  - rewrite Htrace. apply last_snoc.
  - rewrite Hcode, Hrc. by rewrite decide_False.
  - rewrite Hafter. cbn. by apply Hmsg.
  - intros ->. rewrite Htrace, executions_app, length_app in Hlen. cbn in Hlen.
    assert (pre = []) as ->.
    { destruct (casstcl_select_starts ct query arrayName codeObj pagingSize c)
        as [Hnil|(f & rest & Hstart)]; fold r in Hnil || fold r in Hstart.
      - rewrite Htrace in Hnil. by destruct pre.
      - rewrite Htrace in Hstart. destruct pre as [|e pre]; [done|].
        injection Hstart as -> _. cbn in Hlen. lia. }
    by rewrite Htrace.
Qed.

End SelectFacts.

(** *** Queries on [ks.users] *)

Section SelectExamples.
Import Select Fixture.
#[local] Existing Instance users.



(** C7 fails as stated: a body that fails on its line 1 while row 3 is
    processed leaves "body line 1" in the error info, as it does when it
    fails on row 1; the number of the row is nowhere in it. *)
Lemma body_failure_is_not_decorated_with_the_row :
  let r1 := casstcl_select ten_rows_session "SELECT id, name FROM ks.users" "row"
              (fails_at "1" 1) 5 None in
  let r3 := casstcl_select ten_rows_session "SELECT id, name FROM ks.users" "row"
              (fails_at "3" 1) 5 None in
  length (evaluations (trace r1)) = 1 ∧
  length (evaluations (trace r3)) = 3 ∧
  errorInfo (interp_after r3) =
    "boom" +:+ newline +:+ "    (" +:+ dquote +:+ "select" +:+ dquote +:+ " body line 1)" ∧
  errorInfo (interp_after r1) = errorInfo (interp_after r3) ∧
  ¬ decorated_with_row_number r3.
Proof.
  cbv zeta. split_and!; try (vm_compute; reflexivity).
  intros Hclaim.
  specialize (Hclaim 2
    (default interp0
       (snd <$> evaluations
          (trace (casstcl_select ten_rows_session "SELECT id, name FROM ks.users" "row"
                    (fails_at "3" 1) 5 None)) !! 2))).
  assert (Hk : evaluations
                 (trace (casstcl_select ten_rows_session "SELECT id, name FROM ks.users" "row"
                           (fails_at "3" 1) 5 None)) !! 2
               = Some (TCL_ERROR,
                       default interp0
                         (snd <$> evaluations
                            (trace (casstcl_select ten_rows_session
                                      "SELECT id, name FROM ks.users" "row"
                                      (fails_at "3" 1) 5 None)) !! 2)))
    by (vm_compute; reflexivity).
  apply Hclaim in Hk. vm_compute in Hk. discriminate Hk.
Qed.

Lemma body_failure_is_decorated_with_its_line_witness :
  ∃ after,
    let r := casstcl_select ten_rows_session "SELECT id, name FROM ks.users" "row"
               (fails_at "3" 7) 5 None in
    evaluations (trace r) !! 2 = Some (TCL_ERROR, after) ∧
    length (evaluations (trace r)) = 3 ∧
    last (trace r) = Some (Evaluated TCL_ERROR after) ∧
    code r = TCL_ERROR ∧
    errorInfo (interp_after r) = errorInfo after +:+ body_line_message 7 ∧
    result (interp_after r) = result after.
Proof.
  exists (default interp0
            (snd <$> evaluations
               (trace (casstcl_select ten_rows_session "SELECT id, name FROM ks.users" "row"
                         (fails_at "3" 7) 5 None)) !! 2)).
  cbv zeta.
  assert (Hk : evaluations
                 (trace (casstcl_select ten_rows_session "SELECT id, name FROM ks.users" "row"
                           (fails_at "3" 7) 5 None)) !! 2
               = Some (TCL_ERROR,
                       default interp0
                         (snd <$> evaluations
                            (trace (casstcl_select ten_rows_session
                                      "SELECT id, name FROM ks.users" "row"
                                      (fails_at "3" 7) 5 None)) !! 2)))
    by (vm_compute; reflexivity).
  destruct (body_failure_is_decorated_with_its_line ten_rows_session
              "SELECT id, name FROM ks.users" "row" (fails_at "3" 7) 5 None 2 _ Hk)
    as (Hlen & Hlast & Hcode & Hinfo & Hresult).
  split; [exact Hk|]. split; [exact Hlen|]. split; [exact Hlast|]. split; [exact Hcode|].
  split; [exact Hinfo | exact Hresult].
Defined.

Lemma missing_result_is_an_error_witness :
  let r := casstcl_select no_result_session "SELECT id, name FROM ks.users" "row"
             (breaks_at "3") 5 None in
  executions (trace r) !! 0 = Some no_result ∧
  last (trace r) = Some (Executed no_result) ∧
  length (executions (trace r)) = 1 ∧
  code r = TCL_ERROR ∧
  result (interp_after r) = "future has no result" ∧
  (0 = 0 → trace r = [Executed no_result] ∧ evaluations (trace r) = []).
Proof.
  cbv zeta. split; [reflexivity|].
  apply (missing_result_is_an_error no_result_session "SELECT id, name FROM ks.users" "row"
           (breaks_at "3") 5 None 0 no_result); reflexivity.
Defined.

End SelectExamples.

(** ** The schema introspector *)

Section ColumnsFacts.
Context `{Collaborators}.
Import Columns.

(** What the loop does with one entry depends on the rest of the entries
    only through what the loop does with them. *)
Lemma list_columns_loop_rest includeTypes entry rest1 rest2 :
  (∀ interp listObj,
     list_columns_loop includeTypes rest1 interp listObj
     = list_columns_loop includeTypes rest2 interp listObj) →
  ∀ interp listObj,
    list_columns_loop includeTypes (entry :: rest1) interp listObj
    = list_columns_loop includeTypes (entry :: rest2) interp listObj.
Proof.
  intros Hrest interp listObj. cbn [list_columns_loop].
  repeat (match goal with
          | |- context [match ?x with _ => _ end] => destruct x
          end; try done); by rewrite ?Hrest.
Qed.

(** An entry whose column name is not a varchar leaves the list and the
    interpreter as they are. *)
Lemma list_columns_loop_skip includeTypes entry fieldValue rest interp listObj :
  cass_schema_meta_type entry = CASS_SCHEMA_META_TYPE_COLUMN →
  cass_schema_meta_get_field entry "column_name" = Some fieldValue →
  cass_value_type fieldValue ≠ CASS_VALUE_TYPE_VARCHAR →
  list_columns_loop includeTypes (entry :: rest) interp listObj
  = list_columns_loop includeTypes rest interp listObj.
Proof.
  intros Htype Hfield Hshape. cbn [list_columns_loop].
  rewrite decide_True by done. rewrite Hfield. by rewrite decide_False by done.
Qed.

Lemma list_columns_loop_without includeTypes before entry fieldValue after :
  cass_schema_meta_type entry = CASS_SCHEMA_META_TYPE_COLUMN →
  cass_schema_meta_get_field entry "column_name" = Some fieldValue →
  cass_value_type fieldValue ≠ CASS_VALUE_TYPE_VARCHAR →
  ∀ interp listObj,
    list_columns_loop includeTypes (before ++ entry :: after) interp listObj
    = list_columns_loop includeTypes (before ++ after) interp listObj.
Proof.
  intros Htype Hfield Hshape.
  induction before as [|first before IH]; intros interp listObj; cbn [app].
  - by eapply list_columns_loop_skip.
  - by apply list_columns_loop_rest.
Qed.

(** Without the types, the loop lists those names. *)
Lemma list_columns_loop_names entries :
  Forall (fun entry =>
            cass_schema_meta_type entry = CASS_SCHEMA_META_TYPE_COLUMN ∧
            is_Some (cass_schema_meta_get_field entry "column_name")) entries →
  ∀ interp listObj,
    list_columns_loop false entries interp listObj
    = Returned (TCL_OK, interp, listObj ++ varchar_names entries).
Proof.
  induction 1 as [|entry entries [Htype [fieldValue Hfield]] _ IH]; intros interp listObj.
  - cbn. by rewrite app_nil_r.
  - cbn [list_columns_loop varchar_names omap list_omap].
    rewrite decide_True by done. rewrite Hfield.
    destruct (decide (cass_value_type fieldValue = CASS_VALUE_TYPE_VARCHAR)).
    + rewrite IH. by rewrite <- app_assoc.
    + by rewrite IH.
Qed.

(** C9: an entry of the table whose column-name field is not a varchar is
    skipped: the listing is the listing of the other entries, whatever they
    are and with or without the types.  In particular a listing of names
    succeeds with the names of the well-formed entries before and after
    it. *)
Theorem misshapen_entries_are_skipped interp schema keyspace table includeTypes
    keyspaceMeta tableMeta before entry fieldValue after :
  cass_schema_get_keyspace schema keyspace = Some keyspaceMeta →
  cass_schema_meta_get_entry keyspaceMeta table = Some tableMeta →
  cass_iterator_from_schema_meta tableMeta = before ++ entry :: after →
  cass_schema_meta_type entry = CASS_SCHEMA_META_TYPE_COLUMN →
  cass_schema_meta_get_field entry "column_name" = Some fieldValue →
  cass_value_type fieldValue ≠ CASS_VALUE_TYPE_VARCHAR →
  casstcl_list_columns interp schema keyspace table includeTypes
    = finish_listing (list_columns_loop includeTypes (before ++ after) interp []) ∧
  (includeTypes = false →
   Forall (fun e => cass_schema_meta_type e = CASS_SCHEMA_META_TYPE_COLUMN ∧
                    is_Some (cass_schema_meta_get_field e "column_name")) (before ++ after) →
   casstcl_list_columns interp schema keyspace table includeTypes
     = Returned (TCL_OK, Tcl_ResetResult interp,
                 Some (varchar_names before ++ varchar_names after))).
Proof.
  intros Hks Htable Hentries Htype Hfield Hshape.
  assert (Hskip : casstcl_list_columns interp schema keyspace table includeTypes
                  = finish_listing (list_columns_loop includeTypes (before ++ after) interp [])).
  { unfold casstcl_list_columns. rewrite Hks, Htable, Hentries.
    by erewrite list_columns_loop_without. }
  split; [done|]. intros -> Hwell. rewrite Hskip, list_columns_loop_names by done.
  cbn. unfold varchar_names. by rewrite omap_app.
Qed.

End ColumnsFacts.

(** *** The columns of [ks.users] *)

Section ColumnsExamples.
Import Columns Fixture.
#[local] Existing Instance users.

Lemma misshapen_entries_are_skipped_witness :
  casstcl_list_columns interp0 ks_schema "ks" "users" false
    = finish_listing
        (list_columns_loop false
           ([column_entry "id" "org.apache.cassandra.db.marshal.UUIDType"] ++
            [column_entry "name" "org.apache.cassandra.db.marshal.UTF8Type"]) interp0 []) ∧
  (false = false →
   Forall (fun e => cass_schema_meta_type e = CASS_SCHEMA_META_TYPE_COLUMN ∧
                    is_Some (cass_schema_meta_get_field e "column_name"))
     ([column_entry "id" "org.apache.cassandra.db.marshal.UUIDType"] ++
      [column_entry "name" "org.apache.cassandra.db.marshal.UTF8Type"]) →
   casstcl_list_columns interp0 ks_schema "ks" "users" false
     = Returned (TCL_OK, Tcl_ResetResult interp0,
                 Some (varchar_names [column_entry "id" "org.apache.cassandra.db.marshal.UUIDType"]
                       ++ varchar_names
                            [column_entry "name" "org.apache.cassandra.db.marshal.UTF8Type"]))).
Proof.
  apply (misshapen_entries_are_skipped interp0 ks_schema "ks" "users" false
           (mkMeta CASS_SCHEMA_META_TYPE_KEYSPACE "ks" ∅ [users_table]) users_table
           [column_entry "id" "org.apache.cassandra.db.marshal.UUIDType"]
           nameless_entry (mkValue CASS_VALUE_TYPE_BLOB false "")
           [column_entry "name" "org.apache.cassandra.db.marshal.UTF8Type"]).
  - reflexivity.
  - reflexivity.
  - reflexivity.
  - reflexivity.
  - reflexivity.
  - vm_compute. discriminate.
Defined.

End ColumnsExamples.


(** ** More on the upsert statement builder *)

Section UpsertCoverage.
Context `{Collaborators}.
Import Upsert.

(** *** The command line *)

Lemma bool_decide_elem_of_other (w w' : written_option) ws :
  w ≠ w' → bool_decide (w ∈ w' :: ws) = bool_decide (w ∈ ws).
Proof.
  intros Hne. apply bool_decide_ext. rewrite elem_of_cons.
  split; [intros [?|?]; done | by right].
Qed.

(** The option loop on the words of written options, followed by more
    words: each option sets its local, the last [-mapunknown] wins. *)
Lemma parse_options_app interp ws more :
  ∀ o,
  parse_options interp (options_words ws ++ more) o =
  parse_options interp more
    (mkOptions (opt_ifNotExists o || bool_decide (IfNotExists ∈ ws))
               (opt_dropUnknown o || bool_decide (NoComplain ∈ ws))
               (from_option Some (opt_mapUnknown o) (last (mapped_columns ws)))).
Proof.
  induction ws as [|w ws IH]; intros o.
  - cbn. rewrite !orb_false_r. by destruct o.
  - destruct w as [column| |]; cbn [options_words flat_map option_words app parse_options].
    + change (Tcl_GetIndexFromObj "-mapunknown") with (@inl _ string OPT_MAPUNKNOWN).
      cbn iota. fold (options_words ws). rewrite IH.
      cbn [opt_ifNotExists opt_dropUnknown opt_mapUnknown mapped_columns omap list_omap].
      fold (mapped_columns ws).
      rewrite !bool_decide_elem_of_other by done.
      do 2 f_equal. rewrite last_cons. by destruct (last (mapped_columns ws)).
    + change (Tcl_GetIndexFromObj "-nocomplain") with (@inl _ string OPT_NOCOMPLAIN).
      cbn iota. fold (options_words ws). rewrite IH.
      cbn [opt_ifNotExists opt_dropUnknown opt_mapUnknown mapped_columns omap list_omap].
      fold (mapped_columns ws).
      rewrite (bool_decide_elem_of_other IfNotExists NoComplain) by done.
      rewrite (bool_decide_eq_true_2 (NoComplain ∈ NoComplain :: ws)) by apply list_elem_of_here.
      by rewrite orb_true_r.
    + change (Tcl_GetIndexFromObj "-ifnotexists") with (@inl _ string OPT_IFNOTEXISTS).
      cbn iota. fold (options_words ws). rewrite IH.
      cbn [opt_ifNotExists opt_dropUnknown opt_mapUnknown mapped_columns omap list_omap].
      fold (mapped_columns ws).
      rewrite (bool_decide_elem_of_other NoComplain IfNotExists) by done.
      rewrite (bool_decide_eq_true_2 (IfNotExists ∈ IfNotExists :: ws))
        by apply list_elem_of_here.
      by rewrite orb_true_r.
Qed.

(** The call on some words followed by a table and a list: the option loop
    goes over the words, and the builder gets the rest. *)
Lemma from_objv_split interp (opts : list Tcl_Obj) (t listObj : Tcl_Obj) c :
  casstcl_make_upsert_statement_from_objv interp (opts ++ [t; listObj]) c =
  match parse_options interp opts (mkOptions false false None) with
  | (interp1, None) => Returned (TCL_ERROR, None, interp1)
  | (interp1, Some o) =>
      casstcl_make_upsert_statement interp1 t listObj c
        (opt_mapUnknown o) (opt_dropUnknown o) (opt_ifNotExists o)
  end.
Proof.
  unfold casstcl_make_upsert_statement_from_objv.
  rewrite length_app. cbn [length]. rewrite decide_False by lia.
  replace (length opts + 2 - 2) with (length opts) by lia.
  replace (length opts + 2 - 1) with (length opts + 1) by lia.
  rewrite take_app_length.
  rewrite (lookup_app_r opts _ (length opts)) by lia.
  rewrite (lookup_app_r opts _ (length opts + 1)) by lia.
  replace (length opts - length opts) with 0 by lia.
  replace (length opts + 1 - length opts) with 1 by lia.
  done.
Qed.

(** X1: the options of the upsert command line are read in any order and
    any number of times; the call is the builder's call on the table and the
    list, with drop-unknown and if-not-exists set exactly when their option
    was written, and with the column of the last [-mapunknown]. *)
Theorem options_are_read_in_any_order interp ws t listObj c :
  casstcl_make_upsert_statement_from_objv interp (options_words ws ++ [t; listObj]) c
  = casstcl_make_upsert_statement interp t listObj c
      (last (mapped_columns ws)) (bool_decide (NoComplain ∈ ws))
      (bool_decide (IfNotExists ∈ ws)).
Proof.
  rewrite from_objv_split.
  rewrite <- (app_nil_r (options_words ws)), parse_options_app.
  cbn [parse_options opt_ifNotExists opt_dropUnknown opt_mapUnknown orb].
  by destruct (last (mapped_columns ws)).
Qed.

(** X2: a [-mapunknown] that is the last word before the table name is
    refused with the message that it requires a column name, whatever
    options precede it; the table name is never taken for the column, and
    the builder is not called. *)
Theorem mapunknown_needs_a_column_name interp ws t listObj c :
  casstcl_make_upsert_statement_from_objv interp
    (options_words ws ++ ["-mapunknown"; t; listObj]) c
  = Returned (TCL_ERROR, None, set_result "-mapunknown requires a column name" interp).
Proof.
  change (options_words ws ++ ["-mapunknown"; t; listObj])
    with (options_words ws ++ ["-mapunknown"] ++ [t; listObj]).
  rewrite app_assoc, from_objv_split, parse_options_app.
  reflexivity.
Qed.

(** X3: the first word before the table name that is not one of the three
    options is refused with the message of [Tcl_GetIndexFromObj] naming it,
    whatever options precede and whatever words follow; the builder is not
    called. *)
Theorem unknown_option_is_refused interp ws word more t listObj c :
  word ∉ ["-mapunknown"; "-nocomplain"; "-ifnotexists"] →
  casstcl_make_upsert_statement_from_objv interp
    (options_words ws ++ word :: more ++ [t; listObj]) c
  = Returned
      (TCL_ERROR, None,
       set_result
         ("bad option " +:+ dquote +:+ word +:+ dquote +:+
          ": must be -mapunknown, -nocomplain, or -ifnotexists") interp).
Proof.
  intros Hword.
  apply not_elem_of_cons in Hword as [H1 Hword].
  apply not_elem_of_cons in Hword as [H2 Hword].
  apply not_elem_of_cons in Hword as [H3 _].
  change (options_words ws ++ word :: more ++ [t; listObj])
    with (options_words ws ++ (word :: more) ++ [t; listObj]).
  rewrite app_assoc, from_objv_split, parse_options_app.
  cbn [parse_options]. unfold Tcl_GetIndexFromObj.
  by rewrite !decide_False by done.
Qed.

(** X12: when the list of key-value pairs does not parse, the call fails
    with the parser's message followed by "while parsing list of key-value
    pairs", whatever options were written; no statement is handed out. *)
Theorem unparsable_list_is_refused interp ws t listObj c msg :
  Tcl_ListObjGetElements listObj = inr msg →
  casstcl_make_upsert_statement_from_objv interp (options_words ws ++ [t; listObj]) c
  = Returned
      (TCL_ERROR, None, set_result (msg +:+ " while parsing list of key-value pairs") interp).
Proof.
  intros Hparse. rewrite from_objv_split.
  rewrite <- (app_nil_r (options_words ws)), parse_options_app.
  cbn [parse_options]. unfold casstcl_make_upsert_statement, upsert. rewrite Hparse.
  reflexivity.
Qed.

(** *** The statement pointer *)

Lemma bind_statement_handed interp t columns c text n unk rc0 b :
  bind_statement interp t columns c text n unk rc0 = Returned b →
  (is_Some (statementPtr b) ↔ code b = TCL_OK) ∧
  (∀ stmt, statementPtr b = Some stmt → created b = Some stmt).
Proof.
  unfold bind_statement, bind_unknown_map.
  repeat (match goal with
          | |- context [decide ?P] => destruct (decide P)
          | |- context [casstcl_setStatementConsistency ?a ?b ?c] =>
              destruct (casstcl_setStatementConsistency a b c) as [[? ?] ?]
          | |- context [bind_columns ?a ?b ?c ?d] => destruct (bind_columns a b c d)
          | |- context [collect_unknown ?a ?b ?c ?d] =>
              destruct (collect_unknown a b c d) as [[? ?] ?]
          | |- context [cass_statement_bind_collection ?a ?b ?c] =>
              destruct (cass_statement_bind_collection a b c) as [[|?] ?]
          | |- context [casstcl_cass_error_to_tcl ?a ?b] =>
              destruct (casstcl_cass_error_to_tcl a b)
          end; cbn [code statementPtr created]);
    intros [= <-]; cbn [code statementPtr created];
    repeat (match goal with |- context [decide ?P] => destruct (decide P) end);
    (split; [split; [intros [? ?]; congruence | intros; by eauto] | intros ? [= <-]; done])
    || (split; [split; [intros [? [=]] | intros; congruence] | intros ? [=]]).
Qed.

Lemma upsert_handed interp t listObj c m d ine b :
  upsert interp t listObj c m d ine = Returned b →
  (is_Some (statementPtr b) ↔ code b = TCL_OK) ∧
  (∀ stmt, statementPtr b = Some stmt → created b = Some stmt).
Proof.
  unfold upsert.
  destruct (Tcl_ListObjGetElements listObj) as [listObjv|msg].
  2:{ intros [= <-]. cbn. split; [split; [intros [? [=]] | done] | done]. }
  destruct (Nat.odd (length listObjv)).
  { intros [= <-]. cbn. split; [split; [intros [? [=]] | done] | done]. }
  destruct (finish_text _ m ine) as [text n]. apply bind_statement_handed.
Qed.

(** X4: whenever the call returns, a statement is stored through the
    statement pointer exactly when the completion code is [TCL_OK]. *)
Theorem statement_is_handed_out_iff_ok interp objv c rc ptr interp' :
  casstcl_make_upsert_statement_from_objv interp objv c = Returned (rc, ptr, interp') →
  (is_Some ptr ↔ rc = TCL_OK).
Proof.
  unfold casstcl_make_upsert_statement_from_objv.
  destruct (decide (length objv < 2)).
  { intros [= <- <- _]. split; [intros [? [=]] | done]. }
  destruct (parse_options _ _ _) as [interp1 [o|]].
  2:{ intros [= <- <- _]. split; [intros [? [=]] | done]. }
  unfold casstcl_make_upsert_statement.
  destruct (upsert _ _ _ _ _ _ _) as [b|] eqn:Hb; [|done].
  intros [= <- <- _]. by apply upsert_handed in Hb as [? _].
Qed.

(** *** The statement of a valid list *)

Lemma resolves_no_error t (pairs : list (Tcl_Obj * Tcl_Obj)) :
  Forall (fun p => resolves t p.1) pairs →
  Forall (fun p => (typename_types t p.1).1 ≠ TCL_ERROR) pairs.
Proof.
  intros Hres. eapply Forall_impl; [exact Hres|].
  intros p [Hp|Hp]; by rewrite Hp.
Qed.

Lemma code_after_resolves t (pairs : list (Tcl_Obj * Tcl_Obj)) :
  Forall (fun p => resolves t p.1) pairs → code_after t TCL_OK pairs = TCL_OK.
Proof.
  induction 1 as [|p pairs Hp _ IH]; [done|].
  cbn [code_after]. destruct Hp as [Hp|Hp]; rewrite Hp.
  - by rewrite decide_False by done.
  - by rewrite decide_True by done.
Qed.

(** When every append succeeds, the third loop puts every unknown column
    into the map and leaves the rest as it is. *)
Lemma collect_unknown_all_ok columns :
  ∀ interp collection rc,
  Forall appends_ok (unbindable columns).*1 →
  collect_unknown columns interp collection rc =
  (interp,
   mkCollection (collection_type collection) (item_count collection)
     (items collection ++ map_items (unbindable columns).*1),
   rc).
Proof.
  induction columns as [|[[name value] ti] columns IH]; intros interp collection rc Hok.
  - cbn. unfold map_items. cbn. rewrite app_nil_r. by destruct collection.
  - rewrite unbindable_cons in *. cbn [snd] in *. cbn [collect_unknown].
    destruct (decide (cassValueType ti = CASS_VALUE_TYPE_UNKNOWN)) as [E|E]; [|by apply IH].
    cbn [fmap list_fmap fst] in Hok. apply Forall_cons in Hok as [[Hname Hvalue] Hok].
    cbn [fst snd] in Hname, Hvalue.
    unfold casstcl_append_tcl_obj_to_collection. rewrite Hname.
    cbn [collection_type item_count items]. rewrite Hvalue.
    rewrite IH by done. cbn [collection_type item_count items fmap list_fmap fst].
    unfold map_items. cbn [flat_map fst snd app]. by rewrite <- !app_assoc.
Qed.

(** The call on a list whose columns resolve, whose values bind and whose
    unknown columns, if they are mapped, go into the map. *)
Lemma upsert_builds interp t listObj listObjv c m d ine :
  Tcl_ListObjGetElements listObj = inl listObjv →
  Nat.odd (length listObjv) = false →
  Forall (fun p => resolves t p.1) (pairs_of listObjv) →
  Forall (fun p => agrees t p.1) (pairs_of listObjv) →
  (d = true ∨ is_Some m ∨ Forall (fun p => recognized t p.1) (pairs_of listObjv)) →
  (∀ level, c = Some level → consistency_error level = CASS_OK) →
  Forall binds_ok (typed t (recognized_pairs t (pairs_of listObjv))) →
  (0 < unknown_to_map t d (pairs_of listObjv) →
   Forall appends_ok (unknown_pairs t (pairs_of listObjv)) ∧
   bind_collection_error (length (recognized_pairs t (pairs_of listObjv)))
     (unknown_map (unknown_to_map t d (pairs_of listObjv))
        (unknown_pairs t (pairs_of listObjv))) = CASS_OK) →
  upsert interp t listObj c m d ine =
  Returned
    (mkBuilt TCL_OK (Some (insert_statement t (pairs_of listObjv) c m d ine)) interp
       (Some (insert_statement t (pairs_of listObjv) c m d ine))
       (field_count t d (pairs_of listObjv)) (typed t (pairs_of listObjv)).*2).
Proof.
  intros Hparse Hodd Hres Hagree Hpol Hcons Hbind Hmap.
  set (pairs := pairs_of listObjv) in *.
  rewrite (upsert_scanned _ _ _ listObjv) by auto using resolves_no_error.
  fold pairs. rewrite code_after_resolves by done.
  unfold bind_statement. rewrite decide_True by done.
  rewrite set_consistency_accepted by done. rewrite decide_True by done.
  rewrite bind_columns_all_ok; rewrite bindable_typed by done;
    [|cbn [bindField]; rewrite typed_length; unfold field_count; lia|done].
  cbn [bindField statement bind_interp bind_return cass_statement_new query parameter_count
       consistency binds app].
  rewrite typed_length.
  assert (Hrc : (if decide (typed t (recognized_pairs t pairs) = []) then TCL_OK else TCL_OK)
                = TCL_OK) by (by destruct (decide _)).
  rewrite Hrc. unfold bind_unknown_map.
  cbn [bindField statement bind_interp bind_return].
  unfold insert_statement, map_bind.
  destruct (decide (0 < unknown_to_map t d pairs)) as [Hunk|Hunk].
  - destruct (Hmap Hunk) as [Happ Hcoll].
    rewrite collect_unknown_all_ok; rewrite unbindable_typed by done; [|done].
    rewrite decide_True by (unfold field_count; rewrite decide_True by done; lia).
    unfold cass_statement_bind_collection.
    cbn [cass_collection_new collection_type item_count items app].
    fold (unknown_map (unknown_to_map t d pairs) (unknown_pairs t pairs)).
    rewrite !Nat.add_0_l, Hcoll. by rewrite decide_True by done.
  - rewrite decide_True by done. by rewrite app_nil_r.
Qed.

(** X5: for a list with an even number of elements whose columns the
    resolver knows or calls unknown, under a policy for the unknown ones,
    when the consistency level is accepted, the values bind and the unknown
    columns (if they are mapped) go into the map, the builder succeeds,
    leaves the interpreter as it is and hands out the insert of the
    recognized columns, their values bound in order at positions
    0, 1, ..., with the map of the unknown columns bound last. *)
Theorem valid_list_builds_the_insert interp t listObj listObjv c m d ine :
  Tcl_ListObjGetElements listObj = inl listObjv →
  Nat.odd (length listObjv) = false →
  Forall (fun p => resolves t p.1) (pairs_of listObjv) →
  Forall (fun p => agrees t p.1) (pairs_of listObjv) →
  (d = true ∨ is_Some m ∨ Forall (fun p => recognized t p.1) (pairs_of listObjv)) →
  (∀ level, c = Some level → consistency_error level = CASS_OK) →
  Forall binds_ok (typed t (recognized_pairs t (pairs_of listObjv))) →
  (0 < unknown_to_map t d (pairs_of listObjv) →
   Forall appends_ok (unknown_pairs t (pairs_of listObjv)) ∧
   bind_collection_error (length (recognized_pairs t (pairs_of listObjv)))
     (unknown_map (unknown_to_map t d (pairs_of listObjv))
        (unknown_pairs t (pairs_of listObjv))) = CASS_OK) →
  casstcl_make_upsert_statement interp t listObj c m d ine
  = Returned (TCL_OK, Some (insert_statement t (pairs_of listObjv) c m d ine), interp)
  ∧ (binds (insert_statement t (pairs_of listObjv) c m d ine)).*1
    = seq 0 (parameter_count (insert_statement t (pairs_of listObjv) c m d ine)).
Proof.
  intros Hparse Hodd Hres Hagree Hpol Hcons Hbind Hmap. split.
  - unfold casstcl_make_upsert_statement.
    by rewrite (upsert_builds _ _ _ listObjv).
  - unfold insert_statement, map_bind, field_count. cbn [binds parameter_count].
    rewrite fmap_app, value_binds_positions, typed_length.
    destruct (decide (0 < unknown_to_map t d (pairs_of listObjv))).
    + cbn [fmap list_fmap fst]. by rewrite Nat.add_1_r, seq_S.
    + cbn [fmap list_fmap]. by rewrite app_nil_r, Nat.add_0_r.
Qed.

(** *** Dropping unknown columns *)

Lemma pairs_of_unpairs pairs : pairs_of (unpairs pairs) = pairs.
Proof.
  induction pairs as [|[name value] pairs IH]; [done|].
  cbn [unpairs flat_map app fst snd pairs_of]. fold (unpairs pairs). by rewrite IH.
Qed.

Lemma unpairs_even pairs : Nat.odd (length (unpairs pairs)) = false.
Proof.
  induction pairs as [|[name value] pairs IH]; [done|].
  cbn [unpairs flat_map app fst snd length]. fold (unpairs pairs).
  by rewrite Nat.odd_succ_succ.
Qed.

Lemma recognized_pairs_recognized t pairs :
  Forall (fun p => recognized t p.1) (recognized_pairs t pairs).
Proof.
  apply Forall_forall. intros p Hp. unfold recognized_pairs in Hp.
  by apply list_elem_of_filter in Hp as [? _].
Qed.

Lemma recognized_pairs_Forall (P : Tcl_Obj * Tcl_Obj → Prop) t pairs :
  Forall P pairs → Forall P (recognized_pairs t pairs).
Proof.
  intros Hall. apply Forall_forall. intros p Hp. unfold recognized_pairs in Hp.
  apply list_elem_of_filter in Hp as [_ Hp].
  by apply (proj1 (Forall_forall _ _) Hall).
Qed.

(** The second loop only looks at the columns it binds. *)
Lemma bind_columns_bindable t n columns :
  ∀ st, bind_columns t n columns st = bind_columns t n (bindable columns) st.
Proof.
  induction columns as [|[[name value] ti] columns IH]; intros st; [done|].
  rewrite bindable_cons. cbn [snd].
  destruct (decide (cassValueType ti = CASS_VALUE_TYPE_UNKNOWN)) as [E|E].
  - rewrite bind_columns_skip by done. apply IH.
  - cbn [bind_columns]. rewrite !(decide_False (P := cassValueType ti = _)) by done.
    destruct (decide (bindField st < n)); [|done].
    destruct (casstcl_bind_tcl_obj _ _ _ _ _) as [[rc interp1] stmt1].
    destruct rc; try done; apply IH.
Qed.

(** When no column is mapped, the caller gets what it gets for the columns
    that are bound. *)
Lemma bind_statement_bindable interp t columns c text n rc0 :
  outcome_map handed_out (bind_statement interp t columns c text n 0 rc0) =
  outcome_map handed_out (bind_statement interp t (bindable columns) c text n 0 rc0).
Proof.
  unfold bind_statement.
  destruct (decide (rc0 = TCL_OK)); [|done].
  destruct (casstcl_setStatementConsistency _ _ _) as [[rc interp1] stmt1].
  destruct (decide (rc = TCL_OK)); [|done].
  rewrite bind_columns_bindable.
  destruct (bind_columns _ _ _ _) as [b|]; [|done].
  unfold bind_unknown_map. by rewrite !decide_False by lia.
Qed.

(** X6: with drop-unknown set, the builder does for a list what it does,
    under any policy, for the list without its unknown columns: the same
    completion code, statement and interpreter. *)
Theorem dropping_is_filtering interp t listObj listObj' listObjv c m m' d' ine :
  Tcl_ListObjGetElements listObj = inl listObjv →
  Nat.odd (length listObjv) = false →
  Tcl_ListObjGetElements listObj' = inl (unpairs (recognized_pairs t (pairs_of listObjv))) →
  Forall (fun p => resolves t p.1) (pairs_of listObjv) →
  Forall (fun p => agrees t p.1) (pairs_of listObjv) →
  casstcl_make_upsert_statement interp t listObj c m true ine
  = casstcl_make_upsert_statement interp t listObj' c m' d' ine.
Proof.
  intros Hparse Hodd Hparse' Hres Hagree.
  set (pairs := pairs_of listObjv) in *.
  set (known := recognized_pairs t pairs) in *.
  assert (Hknown : Forall (fun p => recognized t p.1) known)
    by apply recognized_pairs_recognized.
  assert (Hres' : Forall (fun p => resolves t p.1) known)
    by (by apply recognized_pairs_Forall).
  assert (Hnone : ∀ d0, unknown_to_map t d0 known = 0).
  { intros d0. unfold unknown_to_map. rewrite unknown_pairs_none by done. by destruct d0. }
  change (casstcl_make_upsert_statement interp t listObj c m true ine)
    with (outcome_map handed_out (upsert interp t listObj c m true ine)).
  change (casstcl_make_upsert_statement interp t listObj' c m' d' ine)
    with (outcome_map handed_out (upsert interp t listObj' c m' d' ine)).
  rewrite (upsert_scanned _ _ _ listObjv) by auto using resolves_no_error.
  rewrite (upsert_scanned _ _ _ (unpairs known));
    rewrite ?pairs_of_unpairs; auto using resolves_no_error, unpairs_even.
  fold pairs. rewrite !code_after_resolves by done.
  unfold insert_names, field_count. rewrite Hnone.
  change (unknown_to_map t true pairs) with 0.
  rewrite (recognized_pairs_all t known) by done. fold known.
  rewrite bind_statement_bindable. by rewrite bindable_typed by done.
Qed.

(** *** The condition [IF NOT EXISTS] *)

Lemma finish_text_if_not_exists sc m :
  finish_text sc m true =
  ((finish_text sc m false).1 +:+ " IF NOT EXISTS", (finish_text sc m false).2).
Proof.
  unfold finish_text. destruct (decide (0 < nUnknownToMap sc));
    cbn [fst snd]; unfold Tcl_DStringAppend; by rewrite !string_app_assoc.
Qed.

Lemma bind_columns_if_not_exists t n columns :
  ∀ st, bind_columns t n columns (binding_if_not_exists st)
        = outcome_map binding_if_not_exists (bind_columns t n columns st).
Proof.
  induction columns as [|[[name value] ti] columns IH]; intros st; [done|].
  cbn [bind_columns].
  destruct (decide (cassValueType ti = CASS_VALUE_TYPE_UNKNOWN)); [apply IH|].
  cbn [binding_if_not_exists bindField bind_interp statement].
  destruct (decide (bindField st < n)); [|done].
  unfold casstcl_bind_tcl_obj.
  destruct (bind_code ti value); try done;
    match goal with |- context [bind_columns _ _ _ ?s] =>
      match goal with |- _ = outcome_map _ (bind_columns _ _ _ ?s') =>
        change s with (binding_if_not_exists s'); apply IH end end.
Qed.

Lemma bind_statement_if_not_exists interp t columns c text n unk rc0 :
  bind_statement interp t columns c (text +:+ " IF NOT EXISTS") n unk rc0
  = outcome_map built_if_not_exists (bind_statement interp t columns c text n unk rc0).
Proof.
  unfold bind_statement. destruct (decide (rc0 = TCL_OK)); [|done].
  change (cass_statement_new (text +:+ " IF NOT EXISTS") n)
    with (if_not_exists (cass_statement_new text n)).
  generalize (cass_statement_new text n). intros stmt0.
  assert (Hset : casstcl_setStatementConsistency interp (if_not_exists stmt0) c
                 = let '(rc, interp1, stmt1) :=
                     casstcl_setStatementConsistency interp stmt0 c in
                   (rc, interp1, if_not_exists stmt1)).
  { unfold casstcl_setStatementConsistency. destruct c as [level|]; [|done].
    by destruct (consistency_error level). }
  rewrite Hset. destruct (casstcl_setStatementConsistency interp stmt0 c)
    as [[rc interp1] stmt1].
  destruct (decide (rc = TCL_OK)); [|done].
  change (mkBinding interp1 (if_not_exists stmt1) 0 rc)
    with (binding_if_not_exists (mkBinding interp1 stmt1 0 rc)).
  rewrite bind_columns_if_not_exists.
  destruct (bind_columns _ _ _ _) as [b|]; [|done].
  cbn [outcome_map]. unfold bind_unknown_map.
  cbn [binding_if_not_exists bindField bind_interp statement bind_return].
  destruct (decide (0 < unk)).
  - destruct (collect_unknown _ _ _ _) as [[interp2 coll] rc2].
    destruct (decide (bindField b < n)); [|done].
    unfold cass_statement_bind_collection.
    destruct (bind_collection_error (bindField b) coll); cbn [outcome_map].
    + unfold built_if_not_exists. cbn. by destruct (decide (rc2 = TCL_OK)).
    + destruct (casstcl_cass_error_to_tcl _ _) as [rc3 interp3].
      unfold built_if_not_exists. cbn. by destruct (decide (rc3 = TCL_OK)).
  - cbn [outcome_map]. unfold built_if_not_exists. cbn.
    by destruct (decide (bind_return b = TCL_OK)).
Qed.

(** X7: the if-not-exists flag changes nothing but the text of the
    statement, to which " IF NOT EXISTS" is appended: the completion code,
    the interpreter, the parameter count, the consistency and the binds are
    those of the call without the flag. *)
Theorem if_not_exists_only_extends_the_text interp t listObj c m d :
  casstcl_make_upsert_statement interp t listObj c m d true
  = outcome_map (fun r => (r.1.1, if_not_exists <$> r.1.2, r.2))
      (casstcl_make_upsert_statement interp t listObj c m d false).
Proof.
  unfold casstcl_make_upsert_statement, upsert.
  destruct (Tcl_ListObjGetElements listObj) as [listObjv|msg]; [|done].
  destruct (Nat.odd (length listObjv)); [done|].
  rewrite finish_text_if_not_exists.
  destruct (finish_text _ m false) as [text n]. cbn [fst snd].
  rewrite bind_statement_if_not_exists.
  by destruct (bind_statement _ _ _ _ _ _ _ _).
Qed.

(** *** Failures *)

(** The first loop on a list, in two parts. *)
Lemma scan_columns_app t m d before rest :
  ∀ st,
  Forall (fun p => (typename_types t p.1).1 ≠ TCL_ERROR) before →
  (d = true ∨ is_Some m ∨ Forall (fun p => recognized t p.1) before) →
  scan_columns t m d (before ++ rest) st
  = scan_columns t m d rest (scan_columns t m d before st).
Proof.
  induction before as [|[name value] before IH]; intros st Hne Hpol; [done|].
  apply Forall_cons in Hne as [Hne1 Hne]. cbn [fst] in Hne1.
  assert (Hpol' : d = true ∨ is_Some m ∨ Forall (fun p => recognized t p.1) before).
  { destruct Hpol as [?|[?|Hall]]; auto. apply Forall_cons in Hall as [_ ?]; auto. }
  cbn [app].
  destruct (typename_types t name) as [rc ti] eqn:E. cbn [fst] in Hne1.
  destruct (decide (rc = TCL_CONTINUE)) as [->|Hrc].
  - rewrite !(scan_columns_unknown _ _ _ _ _ _ _ ti) by done.
    destruct d; [by apply IH|].
    destruct m as [column|]; [by apply IH|].
    exfalso. destruct Hpol as [?|[[? ?]|Hall]]; try done.
    apply Forall_cons in Hall as [Hx _]. unfold recognized in Hx. cbn in Hx.
    rewrite E in Hx. by apply Hx.
  - rewrite !(scan_columns_known _ _ _ _ _ _ _ rc ti) by done. by apply IH.
Qed.

(** X8: when the resolver fails on a column, the first loop stops there:
    the call returns [TCL_ERROR] with the resolver's message, no statement is
    created, and no column after the failing one is resolved. *)
Theorem resolver_failure_stops_the_scan interp t listObj listObjv c m d ine
    before name value after :
  Tcl_ListObjGetElements listObj = inl listObjv →
  Nat.odd (length listObjv) = false →
  pairs_of listObjv = before ++ (name, value) :: after →
  Forall (fun p => (typename_types t p.1).1 ≠ TCL_ERROR) before →
  (d = true ∨ is_Some m ∨ Forall (fun p => recognized t p.1) before) →
  (typename_types t name).1 = TCL_ERROR →
  ∃ b,
    upsert interp t listObj c m d ine = Returned b ∧
    handed_out b = (TCL_ERROR, None, set_result (typename_message t name) interp) ∧
    created b = None ∧
    resolved b = (typed t before).*2 ++ [(typename_types t name).2].
Proof.
  intros Hparse Hodd Hpairs Hne Hpol Herr.
  unfold upsert. rewrite Hparse, Hodd, Hpairs.
  set (ds0 := Tcl_DStringAppend (Tcl_DStringAppend (Tcl_DStringAppend Tcl_DStringInit
                "INSERT INTO ") t) " (").
  rewrite scan_columns_app by done.
  pose proof (scan_columns_closed t m d before [] ds0 interp 0 [] TCL_OK Hne Hpol) as Hscan.
  change (comma_separated []) with "" in Hscan. rewrite string_app_nil_r in Hscan.
  cbn [length app] in Hscan.
  rewrite (bool_decide_eq_false_2 ([] ≠ [])) in Hscan by (intros Hx; by apply Hx).
  rewrite Hscan. clear Hscan.
  destruct (typename_types t name) as [rc ti] eqn:E. cbn [fst snd] in *. subst rc.
  rewrite (scan_columns_error _ _ _ _ _ _ _ ti) by done.
  cbn [scan_interp ds nFields didOne nUnknownToMap typeInfo tclReturn].
  destruct (finish_text _ m ine) as [text n].
  unfold bind_statement. rewrite decide_False by done.
  eexists. split; [reflexivity|]. cbn [handed_out code statementPtr interp_after created resolved].
  split_and!; try done.
  apply snd_zip. rewrite !length_app, length_fmap, typed_length. cbn [length]. lia.
Qed.

(** The second loop on columns that are all bound: when the value of one
    does not bind, it stops there, with the values before it bound. *)
Lemma bind_columns_first_failure t n before name value ti after :
  ∀ st,
  bindable (before ++ (name, value, ti) :: after) = before ++ (name, value, ti) :: after →
  Forall binds_ok before →
  bind_code ti value = TCL_ERROR →
  bindField st + length before < n →
  bind_columns t n (before ++ (name, value, ti) :: after) st =
  Returned
    (mkBinding
       (set_result (bind_message ti value +:+ bind_context t name value ti) (bind_interp st))
       (mkStatement (query (statement st)) (parameter_count (statement st))
          (consistency (statement st))
          (binds (statement st) ++ value_binds (bindField st) before))
       (S (bindField st + length before)) TCL_ERROR).
Proof.
  induction before as [|[[k v] ti'] before IH]; intros st Hall Hok Hfail Hroom.
  - cbn [app] in *. rewrite bindable_cons in Hall. cbn [snd] in Hall.
    destruct (decide (cassValueType ti = CASS_VALUE_TYPE_UNKNOWN)) as [E|E].
    { exfalso. assert (Hlen : length (bindable after) = S (length after)) by (by rewrite Hall).
      pose proof (length_filter (fun c : Tcl_Obj * Tcl_Obj * casstcl_cassTypeInfo =>
                    cassValueType c.2 ≠ CASS_VALUE_TYPE_UNKNOWN) after) as Hle.
      unfold bindable in Hlen. lia. }
    rewrite bind_columns_step by (done || (cbn in Hroom; lia)). rewrite Hfail.
    cbn [value_binds length]. rewrite app_nil_r, Nat.add_0_r.
    rewrite <- statement_eta. reflexivity.
  - cbn [app] in *. rewrite bindable_cons in Hall. cbn [snd] in Hall.
    destruct (decide (cassValueType ti' = CASS_VALUE_TYPE_UNKNOWN)) as [E|E].
    { exfalso.
      assert (Hlen : length (bindable (before ++ (name, value, ti) :: after))
                     = S (length (before ++ (name, value, ti) :: after)))
        by (by rewrite Hall).
      pose proof (length_filter (fun c : Tcl_Obj * Tcl_Obj * casstcl_cassTypeInfo =>
                    cassValueType c.2 ≠ CASS_VALUE_TYPE_UNKNOWN)
                    (before ++ (name, value, ti) :: after)) as Hle.
      unfold bindable in Hlen. lia. }
    injection Hall as Hall.
    apply Forall_cons in Hok as [Hv Hok]. unfold binds_ok in Hv. cbn [fst snd] in Hv.
    cbn [length] in Hroom.
    rewrite bind_columns_step by (done || lia). rewrite Hv.
    rewrite IH by (done || (cbn [bindField]; lia)).
    cbn [bind_interp statement bindField query parameter_count consistency binds
         statement_bind value_binds length].
    rewrite <- app_assoc. cbn [app]. do 2 f_equal. lia.
Qed.

(** The third loop leaves the code it got or [TCL_ERROR]. *)
Lemma collect_unknown_code columns :
  ∀ interp collection rc,
  (collect_unknown columns interp collection rc).2 = rc ∨
  (collect_unknown columns interp collection rc).2 = TCL_ERROR.
Proof.
  induction columns as [|[[name value] ti] columns IH]; intros interp collection rc;
    [by left|].
  cbn [collect_unknown].
  destruct (decide (cassValueType ti = CASS_VALUE_TYPE_UNKNOWN)); [|apply IH].
  unfold casstcl_append_tcl_obj_to_collection.
  destruct (append_error CASS_VALUE_TYPE_TEXT name); [|by right].
  destruct (append_error CASS_VALUE_TYPE_TEXT value); [apply IH | by right].
Qed.

(** X9: when the value of a recognized column does not bind, the values
    before it being bound, the call returns [TCL_ERROR] and hands out no
    statement; when no unknown column is mapped, the message is the binder's
    followed by the context naming the column, its type, the value and the
    table, and the statement that was created holds the binds made before
    the failure. *)
Theorem failed_bind_names_the_column interp t listObj listObjv c m d ine
    before name value ti after :
  Tcl_ListObjGetElements listObj = inl listObjv →
  Nat.odd (length listObjv) = false →
  Forall (fun p => resolves t p.1) (pairs_of listObjv) →
  Forall (fun p => agrees t p.1) (pairs_of listObjv) →
  (d = true ∨ is_Some m ∨ Forall (fun p => recognized t p.1) (pairs_of listObjv)) →
  (∀ level, c = Some level → consistency_error level = CASS_OK) →
  typed t (recognized_pairs t (pairs_of listObjv)) = before ++ (name, value, ti) :: after →
  Forall binds_ok before →
  bind_code ti value = TCL_ERROR →
  ∃ b,
    upsert interp t listObj c m d ine = Returned b ∧
    code b = TCL_ERROR ∧ statementPtr b = None ∧
    (unknown_to_map t d (pairs_of listObjv) = 0 →
     interp_after b
     = set_result (bind_message ti value +:+ bind_context t name value ti) interp ∧
     ∃ stmt, created b = Some stmt ∧ binds stmt = value_binds 0 before).
Proof.
  intros Hparse Hodd Hres Hagree Hpol Hcons Hcols Hok Hfail.
  set (pairs := pairs_of listObjv) in *.
  rewrite (upsert_scanned _ _ _ listObjv) by auto using resolves_no_error.
  fold pairs. rewrite code_after_resolves by done.
  unfold bind_statement. rewrite decide_True by done.
  rewrite set_consistency_accepted by done. rewrite decide_True by done.
  assert (Hlen : length (recognized_pairs t pairs) = length before + S (length after)).
  { rewrite <- (typed_length t), Hcols, length_app. done. }
  rewrite bind_columns_bindable, bindable_typed, Hcols by done.
  rewrite bind_columns_first_failure; try done.
  2:{ rewrite <- Hcols, bindable_typed by (by apply recognized_pairs_Forall).
      by rewrite recognized_pairs_all by apply recognized_pairs_recognized. }
  2:{ cbn [bindField]. unfold field_count. lia. }
  unfold bind_unknown_map.
  cbn [bindField bind_interp statement bind_return cass_statement_new query parameter_count
       consistency binds app].
  destruct (decide (0 < unknown_to_map t d pairs)) as [Hunk|Hunk].
  - match goal with |- context [collect_unknown ?a ?b ?c ?e] =>
      pose proof (collect_unknown_code a b c e) as Hcode;
      destruct (collect_unknown a b c e) as [[interp2 coll] rc2] end.
    cbn [snd] in Hcode. assert (rc2 = TCL_ERROR) as -> by (by destruct Hcode).
    rewrite decide_True by (unfold field_count; rewrite decide_True by done; lia).
    unfold cass_statement_bind_collection.
    destruct (bind_collection_error _ coll).
    + eexists. split; [reflexivity|]. cbn. split_and!; try done. lia.
    + eexists. split; [reflexivity|]. cbn. split_and!; try done. lia.
  - eexists. split; [reflexivity|]. cbn. split_and!; try done.
    intros _. split; [done|]. by eexists.
Qed.

(** X10: when the consistency level is refused, the call returns
    [TCL_ERROR] with the driver's message; the statement was created with the
    text and the parameter count of the insert, but nothing is bound on it
    and it is not handed out. *)
Theorem refused_consistency_binds_nothing interp t listObj listObjv level m d ine :
  Tcl_ListObjGetElements listObj = inl listObjv →
  Nat.odd (length listObjv) = false →
  Forall (fun p => resolves t p.1) (pairs_of listObjv) →
  (d = true ∨ is_Some m ∨ Forall (fun p => recognized t p.1) (pairs_of listObjv)) →
  consistency_error level ≠ CASS_OK →
  ∃ b,
    upsert interp t listObj (Some level) m d ine = Returned b ∧
    handed_out b
    = (TCL_ERROR, None, set_result (cass_error_message (consistency_error level)) interp) ∧
    created b
    = Some (cass_statement_new
              (insert_text t (insert_names t m d (pairs_of listObjv))
                 (field_count t d (pairs_of listObjv)) ine)
              (field_count t d (pairs_of listObjv))).
Proof.
  intros Hparse Hodd Hres Hpol Hlevel.
  rewrite (upsert_scanned _ _ _ listObjv) by auto using resolves_no_error.
  rewrite code_after_resolves by done.
  unfold bind_statement. rewrite decide_True by done.
  unfold casstcl_setStatementConsistency.
  destruct (consistency_error level) as [|e] eqn:E; [done|].
  cbn [casstcl_cass_error_to_tcl]. rewrite decide_False by done.
  eexists. split; [reflexivity|]. by cbn.
Qed.

(** X11: an empty list is not refused: the builder succeeds with an
    insert that names no column and has no placeholder, no parameter and no
    bind. *)
Theorem empty_list_builds_an_empty_insert interp t listObj c m d ine :
  Tcl_ListObjGetElements listObj = inl [] →
  (∀ level, c = Some level → consistency_error level = CASS_OK) →
  casstcl_make_upsert_statement interp t listObj c m d ine
  = Returned
      (TCL_OK,
       Some (mkStatement
               ("INSERT INTO " +:+ t +:+
                (if ine then " () values () IF NOT EXISTS" else " () values ()"))
               0 c []),
       interp).
Proof.
  intros Hparse Hcons. unfold casstcl_make_upsert_statement, upsert. rewrite Hparse.
  cbn [length Nat.odd Nat.even negb pairs_of scan_columns].
  unfold finish_text. cbn [nUnknownToMap nFields ds didOne append_placeholders].
  rewrite decide_False by lia.
  unfold bind_statement. cbn [scan_interp tclReturn typeInfo zip zip_with].
  rewrite decide_True by done. rewrite set_consistency_accepted by done.
  rewrite decide_True by done. cbn [bind_columns].
  unfold bind_unknown_map. rewrite decide_False by lia.
  cbn [bind_return bind_interp statement]. rewrite decide_True by done.
  cbn [code statementPtr interp_after cass_statement_new query parameter_count binds].
  unfold Tcl_DStringAppend, Tcl_DStringInit. cbn [append_placeholders]. do 4 f_equal.
  destruct ine; by rewrite !string_app_assoc.
Qed.

End UpsertCoverage.

(** *** More of the builder on [ks.users] *)

Section UpsertCoverageExamples.
Import Upsert Fixture.
#[local] Existing Instance users.

Ltac each_pair tac :=
  cbn [pairs_of];
  repeat (apply Forall_cons; split; [tac|]);
  apply Forall_nil_2.

Ltac resolving := each_pair ltac:(first [left; reflexivity | right; reflexivity]).

Ltac agreed :=
  each_pair ltac:(split; intros Hx; vm_compute in Hx; try discriminate Hx; reflexivity).

Lemma unknown_option_is_refused_witness :
  casstcl_make_upsert_statement_from_objv interp0
    ["-nocomplain"; "-bogus"; "-ifnotexists"; "ks.users"; "id 1"] None
  = Returned
      (TCL_ERROR, None,
       set_result
         ("bad option " +:+ dquote +:+ "-bogus" +:+ dquote +:+
          ": must be -mapunknown, -nocomplain, or -ifnotexists") interp0).
Proof.
  assert (Hword : "-bogus" ∉ ["-mapunknown"; "-nocomplain"; "-ifnotexists"]).
  { intros Hin. repeat (apply elem_of_cons in Hin as [Hin|Hin]; [discriminate Hin|]).
    by apply not_elem_of_nil in Hin. }
  exact (unknown_option_is_refused interp0 [NoComplain] "-bogus" ["-ifnotexists"]
           "ks.users" "id 1" None Hword).
Defined.

Lemma statement_is_handed_out_iff_ok_witness :
  is_Some (Some insert_id_name) ↔ TCL_OK = TCL_OK.
Proof.
  exact (statement_is_handed_out_iff_ok interp0
           ["-nocomplain"; "ks.users"; "id 1 name Bob nickname Bobby"] None
           TCL_OK (Some insert_id_name) interp0 eq_refl).
Defined.

Lemma valid_list_builds_the_insert_witness :
  casstcl_make_upsert_statement interp0 "ks.users" "id 1 name Bob nickname Bobby" None
    (Some "extra") false false
  = Returned (TCL_OK, Some insert_id_name_extra, interp0)
  ∧ (binds insert_id_name_extra).*1 = seq 0 (parameter_count insert_id_name_extra).
Proof.
  assert (Hres : Forall (fun p => resolves "ks.users" p.1)
                   (pairs_of ["id"; "1"; "name"; "Bob"; "nickname"; "Bobby"]))
    by resolving.
  assert (Hagree : Forall (fun p => agrees "ks.users" p.1)
                     (pairs_of ["id"; "1"; "name"; "Bob"; "nickname"; "Bobby"]))
    by agreed.
  assert (Hbind : Forall binds_ok
                    (typed "ks.users"
                       (recognized_pairs "ks.users"
                          (pairs_of ["id"; "1"; "name"; "Bob"; "nickname"; "Bobby"]))))
    by (vm_compute; repeat constructor).
  assert (Hmap : 0 < unknown_to_map "ks.users" false
                       (pairs_of ["id"; "1"; "name"; "Bob"; "nickname"; "Bobby"]) →
                 Forall appends_ok
                   (unknown_pairs "ks.users"
                      (pairs_of ["id"; "1"; "name"; "Bob"; "nickname"; "Bobby"])) ∧
                 bind_collection_error
                   (length (recognized_pairs "ks.users"
                              (pairs_of ["id"; "1"; "name"; "Bob"; "nickname"; "Bobby"])))
                   (unknown_map
                      (unknown_to_map "ks.users" false
                         (pairs_of ["id"; "1"; "name"; "Bob"; "nickname"; "Bobby"]))
                      (unknown_pairs "ks.users"
                         (pairs_of ["id"; "1"; "name"; "Bob"; "nickname"; "Bobby"])))
                 = CASS_OK).
  { intros _. split; [|reflexivity]. vm_compute. repeat constructor. }
  assert (Hcons : ∀ level, (None : option CassConsistency) = Some level →
                           consistency_error level = CASS_OK)
    by (intros level Hlevel; discriminate Hlevel).
  exact (valid_list_builds_the_insert interp0 "ks.users" "id 1 name Bob nickname Bobby"
           ["id"; "1"; "name"; "Bob"; "nickname"; "Bobby"] None (Some "extra") false false
           eq_refl eq_refl Hres Hagree (or_intror (or_introl (mk_is_Some _ _ eq_refl)))
           Hcons Hbind Hmap).
Defined.

Lemma dropping_is_filtering_witness :
  casstcl_make_upsert_statement interp0 "ks.users" "id 1 nickname Bobby name Bob" None
    (Some "extra") true false
  = casstcl_make_upsert_statement interp0 "ks.users" "id 1 name Bob" None None false false.
Proof.
  assert (Hres : Forall (fun p => resolves "ks.users" p.1)
                   (pairs_of ["id"; "1"; "nickname"; "Bobby"; "name"; "Bob"]))
    by resolving.
  assert (Hagree : Forall (fun p => agrees "ks.users" p.1)
                     (pairs_of ["id"; "1"; "nickname"; "Bobby"; "name"; "Bob"]))
    by agreed.
  exact (dropping_is_filtering interp0 "ks.users" "id 1 nickname Bobby name Bob"
           "id 1 name Bob" ["id"; "1"; "nickname"; "Bobby"; "name"; "Bob"] None
           (Some "extra") None false false eq_refl eq_refl eq_refl Hres Hagree).
Defined.

Lemma failed_bind_names_the_column_witness :
  ∃ b,
    upsert interp0 "ks.users" "id 1 age abc name Bob" None None false false = Returned b ∧
    code b = TCL_ERROR ∧ statementPtr b = None ∧
    (unknown_to_map "ks.users" false [("id", "1"); ("age", "abc"); ("name", "Bob")] = 0 →
     interp_after b
     = set_result
         ("expected integer but got 'abc'" +:+
          bind_context "ks.users" "age" "abc" int_type) interp0 ∧
     ∃ stmt, created b = Some stmt ∧ binds stmt = [(0, BoundValue uuid_type "1")]).
Proof.
  assert (Hres : Forall (fun p => resolves "ks.users" p.1)
                   (pairs_of ["id"; "1"; "age"; "abc"; "name"; "Bob"]))
    by resolving.
  assert (Hagree : Forall (fun p => agrees "ks.users" p.1)
                     (pairs_of ["id"; "1"; "age"; "abc"; "name"; "Bob"]))
    by agreed.
  assert (Hpol : false = true ∨ is_Some (@None string) ∨
                 Forall (fun p => recognized "ks.users" p.1)
                   (pairs_of ["id"; "1"; "age"; "abc"; "name"; "Bob"])).
  { right. right. each_pair ltac:(vm_compute; discriminate). }
  assert (Hcons : ∀ level, (None : option CassConsistency) = Some level →
                           consistency_error level = CASS_OK)
    by (intros level Hlevel; discriminate Hlevel).
  assert (Hok : Forall binds_ok [("id", "1", uuid_type)])
    by (repeat constructor).
  exact (failed_bind_names_the_column interp0 "ks.users" "id 1 age abc name Bob"
           ["id"; "1"; "age"; "abc"; "name"; "Bob"] None None false false
           [("id", "1", uuid_type)] "age" "abc" int_type [("name", "Bob", text_type)]
           eq_refl eq_refl Hres Hagree Hpol Hcons eq_refl Hok eq_refl).
Defined.

Lemma empty_list_builds_an_empty_insert_witness :
  casstcl_make_upsert_statement interp0 "ks.users" "" (Some CASS_CONSISTENCY_QUORUM)
    None false true
  = Returned
      (TCL_OK,
       Some (mkStatement "INSERT INTO ks.users () values () IF NOT EXISTS" 0
               (Some CASS_CONSISTENCY_QUORUM) []),
       interp0).
Proof.
  exact (empty_list_builds_an_empty_insert interp0 "ks.users" ""
           (Some CASS_CONSISTENCY_QUORUM) None false true eq_refl (fun _ _ => eq_refl)).
Defined.

End UpsertCoverageExamples.

(** *** The builder in a stricter setting *)

Section UpsertStrictExamples.
Import Upsert Fixture.
#[local] Existing Instance strict.

Lemma unparsable_list_is_refused_witness :
  casstcl_make_upsert_statement_from_objv interp0
    ["-mapunknown"; "extra"; "-ifnotexists"; "ks.users"; "id {1"] None
  = Returned
      (TCL_ERROR, None,
       set_result "unmatched open brace in list while parsing list of key-value pairs"
         interp0).
Proof.
  exact (unparsable_list_is_refused interp0 [MapUnknown "extra"; IfNotExists] "ks.users"
           "id {1" None "unmatched open brace in list" eq_refl).
Defined.

Lemma resolver_failure_stops_the_scan_witness :
  ∃ b,
    upsert interp0 "ks.users" "id 1 broken x name Bob" None None false false = Returned b ∧
    handed_out b
    = (TCL_ERROR, None, set_result "cannot resolve 'broken' of table 'ks.users'" interp0) ∧
    created b = None ∧
    resolved b = [uuid_type; unknown_type].
Proof.
  assert (Hne : Forall (fun p : Tcl_Obj * Tcl_Obj =>
                          (typename_types "ks.users" p.1).1 ≠ TCL_ERROR) [("id", "1")])
    by (repeat constructor; vm_compute; discriminate).
  assert (Hpol : false = true ∨ is_Some (@None string) ∨
                 Forall (fun p : Tcl_Obj * Tcl_Obj => recognized "ks.users" p.1)
                   [("id", "1")]).
  { right. right. repeat constructor. vm_compute. discriminate. }
  exact (resolver_failure_stops_the_scan interp0 "ks.users" "id 1 broken x name Bob"
           ["id"; "1"; "broken"; "x"; "name"; "Bob"] None None false false
           [("id", "1")] "broken" "x" [("name", "Bob")]
           eq_refl eq_refl eq_refl Hne Hpol eq_refl).
Defined.

Lemma refused_consistency_binds_nothing_witness :
  ∃ b,
    upsert interp0 "ks.users" "id 1" (Some CASS_CONSISTENCY_SERIAL) None false false
      = Returned b ∧
    handed_out b = (TCL_ERROR, None, set_result "driver error" interp0) ∧
    created b = Some (cass_statement_new "INSERT INTO ks.users (id) values (?)" 1).
Proof.
  assert (Hres : Forall (fun p : Tcl_Obj * Tcl_Obj => resolves "ks.users" p.1)
                   (pairs_of ["id"; "1"])).
  { cbn [pairs_of]. repeat constructor. }
  assert (Hpol : false = true ∨ is_Some (@None string) ∨
                 Forall (fun p : Tcl_Obj * Tcl_Obj => recognized "ks.users" p.1)
                   (pairs_of ["id"; "1"])).
  { right. right. cbn [pairs_of]. repeat constructor. vm_compute. discriminate. }
  assert (Hlevel : consistency_error CASS_CONSISTENCY_SERIAL ≠ CASS_OK)
    by (vm_compute; discriminate).
  exact (refused_consistency_binds_nothing interp0 "ks.users" "id 1" ["id"; "1"]
           CASS_CONSISTENCY_SERIAL None false false eq_refl eq_refl Hres Hpol Hlevel).
Defined.

End UpsertStrictExamples.


(** ** More on the paginated query executor *)

Section SelectCoverage.
Context `{Collaborators}.
Import Select.

(** *** The array variable *)

Lemma array_free_unset2 a interp name :
  array_free a interp → array_free a (Tcl_UnsetVar2 interp a name).
Proof.
  unfold array_free, Tcl_UnsetVar2. intros Hfree value.
  destruct (vars interp !! a) as [[scalar|elems]|] eqn:E.
  - by rewrite E.
  - cbn. by rewrite lookup_insert_eq.
  - by rewrite E.
Qed.

Lemma Tcl_SetVar2Ex_free a interp name obj :
  array_free a interp →
  ∃ interp', Tcl_SetVar2Ex interp a name obj = Some interp' ∧ array_free a interp'.
Proof.
  unfold array_free, Tcl_SetVar2Ex. intros Hfree.
  destruct (vars interp !! a) as [[scalar|elems]|] eqn:E.
  - by destruct (Hfree scalar).
  - eexists. split; [done|]. intros value. cbn. by rewrite lookup_insert_eq.
  - eexists. split; [done|]. intros value. cbn. by rewrite lookup_insert_eq.
Qed.

Lemma null_value_default (row : list CassValue) i :
  cass_value_is_null (default null_value (row !! i)) = false →
  ∃ value, row !! i = Some value ∧ default null_value (row !! i) = value.
Proof. destruct (row !! i) as [value|]; [by exists value | done]. Qed.

(** When the values of the row convert and the array can be set, the loop
    over the columns goes through and leaves [tclReturn] as it is. *)
Lemma set_columns_converts a result row :
  ∀ count i interp rc,
  array_free a interp → Forall converts row →
  ∃ interp', set_columns a result row i count interp rc = (interp', rc) ∧
             array_free a interp'.
Proof.
  induction count as [|count IH]; intros i interp rc Hfree Hrow; [by exists interp|].
  cbn [set_columns].
  destruct (cass_value_is_null (default null_value (row !! i))) eqn:Hnull.
  { apply IH; [by apply array_free_unset2 | done]. }
  apply null_value_default in Hnull as (value & Hlook & ->).
  assert (Hvalue : converts value)
    by (apply (proj1 (Forall_forall _ _) Hrow); by eapply list_elem_of_lookup_2).
  unfold converts in Hvalue. unfold casstcl_cass_value_to_tcl_obj.
  destruct (value_to_obj value) as [rc' obj]. cbn [fst] in Hvalue.
  rewrite decide_False by done.
  destruct obj as [newObj|].
  - destruct (Tcl_SetVar2Ex_free a interp (default "" (column_names result !! i)) newObj Hfree)
      as (interp2 & -> & Hfree2).
    destruct rc'; try done; by apply IH.
  - destruct rc'; try done; (apply IH; [by apply array_free_unset2 | done]).
Qed.

(** *** Queries that go through *)

Lemma evaluations_evaluated code0 after log :
  evaluations (Evaluated code0 after :: log) = (code0, after) :: evaluations log.
Proof. reflexivity. Qed.

Lemma evaluations_executed future log :
  evaluations (Executed future :: log) = evaluations log.
Proof. reflexivity. Qed.

Lemma executions_evaluated code0 after log :
  executions (Evaluated code0 after :: log) = executions log.
Proof. reflexivity. Qed.

Lemma executions_executed future log :
  executions (Executed future :: log) = future :: executions log.
Proof. reflexivity. Qed.

(** The rows of a page when the body answers ok or continue: the body is
    evaluated for every row. *)
Lemma process_rows_continuing codeObj a result count rows :
  (∀ interp, (codeObj interp).1 = TCL_OK ∨ (codeObj interp).1 = TCL_CONTINUE) →
  ∀ st, ∃ new,
    events (process_rows codeObj a result count rows st) = events st ++ new ∧
    executions new = [] ∧ length (evaluations new) = length rows.
Proof.
  intros Hbody. induction rows as [|row rows IH]; intros st.
  - exists []. by rewrite app_nil_r.
  - cbn [process_rows].
    destruct (set_columns a result row 0 count (loop_interp st) (tclReturn st))
      as [interp1 rc1].
    specialize (Hbody interp1). destruct (codeObj interp1) as [evalReturnCode interp2].
    cbn [fst] in Hbody.
    destruct Hbody as [-> | ->];
      match goal with |- context [process_rows _ _ _ _ _ ?s] =>
        destruct (IH s) as (new & -> & Hexec & Hlen) end;
      cbn [events];
      match goal with |- context [Evaluated ?code0 ?i] =>
        exists (Evaluated code0 i :: new) end;
      (split_and!;
       [ by rewrite <- app_assoc
       | by rewrite executions_evaluated
       | rewrite evaluations_evaluated; cbn [length]; by rewrite Hlen ]).
Qed.

(** The same rows when, besides, the values convert and the body leaves
    the array an array: [tclReturn] stays as it is. *)
Lemma process_rows_clean codeObj a result count rows :
  (∀ interp, (codeObj interp).1 = TCL_OK ∨ (codeObj interp).1 = TCL_CONTINUE) →
  (∀ interp, array_free a interp → array_free a (codeObj interp).2) →
  ∀ st,
  array_free a (loop_interp st) → Forall (Forall converts) rows →
  tclReturn (process_rows codeObj a result count rows st) = tclReturn st ∧
  array_free a (loop_interp (process_rows codeObj a result count rows st)).
Proof.
  intros Hbody Hkeeps. induction rows as [|row rows IH]; intros st Hfree Hrows; [done|].
  apply Forall_cons in Hrows as [Hrow Hrows]. cbn [process_rows].
  destruct (set_columns_converts a result row count 0 (loop_interp st) (tclReturn st)
              Hfree Hrow) as (interp1 & -> & Hfree1).
  specialize (Hbody interp1). specialize (Hkeeps interp1 Hfree1).
  destruct (codeObj interp1) as [evalReturnCode interp2]. cbn [fst snd] in Hbody, Hkeeps.
  destruct Hbody as [-> | ->];
    match goal with |- context [process_rows _ _ _ _ _ ?s] =>
      destruct (IH s) as [Hrc Hfree']; [done | done |] end;
    by split.
Qed.


(** The do-while loop when every execution is answered and the loop over
    the rows leaves [tclReturn] as it is: every page is fetched. *)
Lemma fetch_pages_clean codeObj a (count_of : list (list CassValue) → nat) :
  (∀ result count rows st,
     array_free a (loop_interp st) → Forall (Forall converts) rows →
     ∃ new,
       events (process_rows codeObj a result count rows st) = events st ++ new ∧
       executions new = [] ∧ length (evaluations new) = count_of rows ∧
       tclReturn (process_rows codeObj a result count rows st) = tclReturn st ∧
       array_free a (loop_interp (process_rows codeObj a result count rows st))) →
  ∀ pages st,
    tclReturn st = TCL_OK → array_free a (loop_interp st) →
    Forall answered (futures pages) →
    Forall (fun future => Forall (Forall converts) (page_rows future)) (futures pages) →
    ∃ new,
      events (fetch_pages codeObj a pages st) = events st ++ new ∧
      executions new = futures pages ∧
      length (evaluations new) = sum_list ((count_of ∘ page_rows) <$> futures pages) ∧
      tclReturn (fetch_pages codeObj a pages st) = TCL_OK ∧
      array_free a (loop_interp (fetch_pages codeObj a pages st)).
Proof.
  intros Hrows.
  assert (Hpage : ∀ future st,
            tclReturn st = TCL_OK → array_free a (loop_interp st) →
            answered future → Forall (Forall converts) (page_rows future) →
            ∃ new,
              events (run_page codeObj a future st).1 = events st ++ Executed future :: new ∧
              executions new = [] ∧ length (evaluations new) = count_of (page_rows future) ∧
              tclReturn (run_page codeObj a future st).1 = TCL_OK ∧
              array_free a (loop_interp (run_page codeObj a future st).1) ∧
              (run_page codeObj a future st).2 = false).
  { intros future st Hok Hfree [Herr [result Hres]] Hconv.
    unfold run_page, page_rows in *. rewrite Herr, Hres in *.
    match goal with |- context [process_rows _ _ _ ?n _ ?s] =>
      destruct (Hrows result n (rows result) s) as (new & Hev & Hexec & Hlen & Hrc & Hfree');
        [done | done |] end.
    exists new. cbn [fst snd]. rewrite Hev, Hrc. cbn [events tclReturn].
    split_and!; try done. by rewrite <- app_assoc. }
  induction pages as [future|future pages IH]; intros st Hok Hfree Hans Hconv;
    cbn [futures] in Hans, Hconv.
  - apply Forall_cons in Hans as [Hans _]. apply Forall_cons in Hconv as [Hconv _].
    destruct (Hpage future st Hok Hfree Hans Hconv)
      as (new & Hev & Hexec & Hlen & Hrc & Hfree' & _).
    exists (Executed future :: new). cbn [fetch_pages futures fmap list_fmap sum_list].
    split_and!; try done.
    + by rewrite executions_executed, Hexec.
    + rewrite evaluations_executed, Hlen. cbn. lia.
  - apply Forall_cons in Hans as [Hans Hans']. apply Forall_cons in Hconv as [Hconv Hconv'].
    destruct (Hpage future st Hok Hfree Hans Hconv)
      as (new & Hev & Hexec & Hlen & Hrc & Hfree' & Hbroke).
    cbn [fetch_pages]. destruct (run_page codeObj a future st) as [st1 broke].
    cbn [fst snd] in *. subst broke. rewrite decide_True by done.
    destruct (IH st1 Hrc Hfree' Hans' Hconv') as (new2 & Hev2 & Hexec2 & Hlen2 & Hrc2 & Hfree2).
    exists ((Executed future :: new) ++ new2).
    cbn [futures fmap list_fmap sum_list].
    split_and!; try done.
    + by rewrite Hev2, Hev, <- app_assoc.
    + by rewrite executions_app, executions_executed, Hexec, Hexec2.
    + by rewrite evaluations_app, length_app, evaluations_executed, Hlen, Hlen2.
Qed.

(** The whole call in that case. *)
Lemma casstcl_select_clean ct query a codeObj pagingSize c
    (count_of : list (list CassValue) → nat) :
  (∀ result count rows st,
     array_free a (loop_interp st) → Forall (Forall converts) rows →
     ∃ new,
       events (process_rows codeObj a result count rows st) = events st ++ new ∧
       executions new = [] ∧ length (evaluations new) = count_of rows ∧
       tclReturn (process_rows codeObj a result count rows st) = tclReturn st ∧
       array_free a (loop_interp (process_rows codeObj a result count rows st))) →
  (∀ level, c = Some level → consistency_error level = CASS_OK) →
  array_free a (interp ct) →
  Forall answered (futures (session ct query pagingSize)) →
  Forall (fun future => Forall (Forall converts) (page_rows future))
    (futures (session ct query pagingSize)) →
  let r := casstcl_select ct query a codeObj pagingSize c in
  code r = TCL_OK ∧
  executions (trace r) = futures (session ct query pagingSize) ∧
  length (evaluations (trace r))
  = sum_list ((count_of ∘ page_rows) <$> futures (session ct query pagingSize)).
Proof.
  intros Hrows Hcons Hfree Hans Hconv. unfold casstcl_select.
  rewrite set_consistency_accepted by done. rewrite decide_True by done.
  destruct (fetch_pages_clean codeObj a count_of Hrows (session ct query pagingSize)
              (mkLoop (interp ct) TCL_OK None [])) as (new & Hev & Hexec & Hlen & Hrc & _);
    try done.
  cbn [events app] in Hev. cbn [code trace]. rewrite Hev, Hrc.
  by rewrite decide_False by done.
Qed.

Lemma sum_list_lengths {A} (ls : list (list A)) :
  sum_list ((length : list A → nat) <$> ls) = length (concat ls).
Proof.
  induction ls as [|l ls IH]; [done|]. cbn. by rewrite length_app, IH.
Qed.

(** X13: when the consistency level is accepted, the array name is not
    that of a scalar (and the body leaves it so), every execution is answered
    with a result, the values convert, and the body answers ok or continue,
    the call succeeds, executes once per page, and evaluates the body once
    for every row of every page. *)
Theorem every_row_of_every_page_is_evaluated ct query arrayName codeObj pagingSize c :
  (∀ level, c = Some level → consistency_error level = CASS_OK) →
  array_free arrayName (interp ct) →
  (∀ interp, (codeObj interp).1 = TCL_OK ∨ (codeObj interp).1 = TCL_CONTINUE) →
  (∀ interp, array_free arrayName interp → array_free arrayName (codeObj interp).2) →
  Forall answered (futures (session ct query pagingSize)) →
  Forall (fun future => Forall (Forall converts) (page_rows future))
    (futures (session ct query pagingSize)) →
  let r := casstcl_select ct query arrayName codeObj pagingSize c in
  code r = TCL_OK ∧
  executions (trace r) = futures (session ct query pagingSize) ∧
  length (evaluations (trace r))
  = length (concat (page_rows <$> futures (session ct query pagingSize))).
Proof.
  intros Hcons Hfree Hbody Hkeeps Hans Hconv.
  destruct (casstcl_select_clean ct query arrayName codeObj pagingSize c length)
    as (Hcode & Hexec & Hlen); try done.
  - intros result count rows st Hfree' Hrows.
    destruct (process_rows_continuing codeObj arrayName result count rows Hbody st)
      as (new & Hev & Hexec & Hlen).
    destruct (process_rows_clean codeObj arrayName result count rows Hbody Hkeeps st)
      as [Hrc Hfree'']; try done.
    by exists new.
  - split_and!; try done.
    rewrite Hlen, list_fmap_compose. apply sum_list_lengths.
Qed.


(** *** Queries that fail *)

(** X15: an execution that fails is the last event of the call: the body
    is not evaluated for it, no execution follows, and the call returns
    [TCL_ERROR]; when it is the first execution, the body is never
    evaluated. *)
Theorem failed_execution_ends_the_query ct query arrayName codeObj pagingSize c k future :
  let r := casstcl_select ct query arrayName codeObj pagingSize c in
  executions (trace r) !! k = Some future →
  error_code future ≠ CASS_OK →
  last (trace r) = Some (Executed future) ∧
  length (executions (trace r)) = S k ∧
  code r = TCL_ERROR ∧
  (k = 0 → trace r = [Executed future] ∧ evaluations (trace r) = []).
Proof.
  intros r Hk Herr.
  destruct (stopped_by_execution ct query arrayName codeObj pagingSize c k _ Hk)
    as (st & pre & Htrace & Hlen & [Hrc _] & Hcode & _); [by left|].
  fold r in Htrace, Hlen, Hcode. split_and!; [| done | |].
  - rewrite Htrace. apply last_snoc.
  - rewrite Hcode, Hrc. by rewrite decide_False.
  - intros ->. rewrite Htrace, executions_app, length_app in Hlen. cbn in Hlen.
    assert (pre = []) as ->.
    { destruct (casstcl_select_starts ct query arrayName codeObj pagingSize c)
        as [Hnil|(f & rest & Hstart)]; fold r in Hnil || fold r in Hstart.
      - rewrite Htrace in Hnil. by destruct pre.
      - rewrite Htrace in Hstart. destruct pre as [|e pre]; [done|].
        injection Hstart as -> _. cbn in Hlen. lia. }
    by rewrite Htrace.
Qed.

(** X16: once the statement's consistency is set, whatever ends the loops
    the array variable is unset when the call returns; when the consistency
    is refused the call returns [TCL_ERROR] before anything is executed and
    leaves the variables as they are. *)
Theorem array_is_unset_when_the_loop_is_left ct query arrayName codeObj pagingSize c :
  let r := casstcl_select ct query arrayName codeObj pagingSize c in
  (trace r ≠ [] →
   vars (interp_after r) !! arrayName = None ∧
   ∀ name, Tcl_GetVar2Ex (interp_after r) arrayName name = None) ∧
  (trace r = [] → code r = TCL_ERROR ∧ vars (interp_after r) = vars (interp ct)).
Proof.
  intros r. subst r. unfold casstcl_select.
  destruct (casstcl_setStatementConsistency (interp ct) (cass_statement_new query 0) c)
    as [[rc interp1] stmt1] eqn:Hset.
  destruct (decide (rc = TCL_OK)) as [Hrc|Hrc]; cbn [trace code interp_after].
  - split.
    + intros _. unfold Tcl_GetVar2Ex, Tcl_UnsetVar. cbn [vars set_vars].
      rewrite lookup_delete_eq. done.
    + intros Hnil. exfalso.
      match goal with Hnil : events (fetch_pages _ _ ?p ?s) = [] |- _ =>
        destruct (fetch_pages_starts codeObj arrayName p s) as (future & rest & Hev) end.
      rewrite Hev in Hnil. done.
  - split; [done|]. intros _. split; [done|].
    unfold casstcl_setStatementConsistency in Hset.
    destruct c as [level|]; [|by inversion Hset; subst].
    destruct (consistency_error level); inversion Hset; subst; done.
Qed.

(** A column whose value does not convert makes the loop over the columns
    leave [TCL_ERROR], whatever the columns before it did. *)
Lemma set_columns_unconvertible a result row i :
  unconvertible row i →
  ∀ count start interp rc,
  start ≤ i < start + count →
  (set_columns a result row start count interp rc).2 = TCL_ERROR.
Proof.
  intros (value & Hlook & Hnull & Hconv).
  induction count as [|count IH]; intros start interp rc Hin; [lia|].
  cbn [set_columns].
  destruct (decide (start = i)) as [->|Hne].
  - rewrite Hlook. cbn [from_option id]. rewrite Hnull.
    unfold casstcl_cass_value_to_tcl_obj.
    destruct (value_to_obj value) as [rc' obj]. cbn [fst] in Hconv. by subst rc'.
  - destruct (cass_value_is_null (default null_value (row !! start))); [apply IH; lia|].
    destruct (casstcl_cass_value_to_tcl_obj _ _) as [[rc' obj] interp1].
    destruct obj as [newObj|].
    + destruct (Tcl_SetVar2Ex interp1 a _ newObj).
      * destruct rc'; try done; apply IH; lia.
      * by destruct rc'.
    + destruct rc'; try done; apply IH; lia.
Qed.

(** Once [tclReturn] is [TCL_ERROR], the loop over the columns leaves it
    so. *)
Lemma set_columns_sticky a result row :
  ∀ count start interp,
  (set_columns a result row start count interp TCL_ERROR).2 = TCL_ERROR.
Proof.
  induction count as [|count IH]; intros start interp; [done|].
  cbn [set_columns].
  destruct (cass_value_is_null (default null_value (row !! start))); [apply IH|].
  destruct (casstcl_cass_value_to_tcl_obj _ _) as [[rc' obj] interp1].
  destruct obj as [newObj|].
  - destruct (Tcl_SetVar2Ex interp1 a _ newObj).
    + destruct rc'; try done; apply IH.
    + by destruct rc'.
  - destruct rc'; try done; apply IH.
Qed.

Lemma process_rows_sticky codeObj a result count rows :
  (∀ interp, (codeObj interp).1 = TCL_OK ∨ (codeObj interp).1 = TCL_CONTINUE) →
  ∀ st, tclReturn st = TCL_ERROR →
  tclReturn (process_rows codeObj a result count rows st) = TCL_ERROR.
Proof.
  intros Hbody. induction rows as [|row rows IH]; intros st Hrc; [done|].
  cbn [process_rows]. rewrite Hrc.
  pose proof (set_columns_sticky a result row count 0 (loop_interp st)) as Hsticky.
  destruct (set_columns a result row 0 count (loop_interp st) TCL_ERROR) as [interp1 rc1].
  cbn [snd] in Hsticky. subst rc1.
  specialize (Hbody interp1). destruct (codeObj interp1) as [evalReturnCode interp2].
  cbn [fst] in Hbody. destruct Hbody as [-> | ->]; by apply IH.
Qed.

Lemma process_rows_unconvertible codeObj a result count before row after i :
  (∀ interp, (codeObj interp).1 = TCL_OK ∨ (codeObj interp).1 = TCL_CONTINUE) →
  unconvertible row i → i < count →
  ∀ st,
  tclReturn (process_rows codeObj a result count (before ++ row :: after) st) = TCL_ERROR.
Proof.
  intros Hbody Hrow Hi. induction before as [|first before IH]; intros st.
  - cbn [app process_rows].
    pose proof (set_columns_unconvertible a result row i Hrow count 0 (loop_interp st)
                  (tclReturn st)) as Hfail.
    destruct (set_columns a result row 0 count (loop_interp st) (tclReturn st))
      as [interp1 rc1].
    cbn [snd] in Hfail. rewrite Hfail by lia.
    pose proof (Hbody interp1) as Hcode.
    destruct (codeObj interp1) as [evalReturnCode interp2].
    cbn [fst] in Hcode. destruct Hcode as [-> | ->]; by apply process_rows_sticky.
  - cbn [app process_rows].
    destruct (set_columns a result first 0 count (loop_interp st) (tclReturn st))
      as [interp1 rc1].
    pose proof (Hbody interp1) as Hcode.
    destruct (codeObj interp1) as [evalReturnCode interp2].
    cbn [fst] in Hcode. destruct Hcode as [-> | ->]; apply IH.
Qed.

(** The loop over the rows leaves the column count as it is. *)
Lemma process_rows_columnCount codeObj a result count rows :
  ∀ st, columnCount (process_rows codeObj a result count rows st) = columnCount st.
Proof.
  induction rows as [|row rows IH]; intros st; [done|].
  cbn [process_rows].
  destruct (set_columns a result row 0 count (loop_interp st) (tclReturn st))
    as [interp1 rc1].
  destruct (codeObj interp1) as [evalReturnCode interp2].
  destruct evalReturnCode; try done; by rewrite IH.
Qed.

(** A page that goes through: the column count is fixed by the first. *)
Lemma run_page_clean codeObj a future result st :
  (∀ interp, (codeObj interp).1 = TCL_OK ∨ (codeObj interp).1 = TCL_CONTINUE) →
  (∀ interp, array_free a interp → array_free a (codeObj interp).2) →
  tclReturn st = TCL_OK → array_free a (loop_interp st) →
  error_code future = CASS_OK → future_result future = Some result →
  Forall (Forall converts) (rows result) →
  ∃ new,
    events (run_page codeObj a future st).1 = events st ++ Executed future :: new ∧
    executions new = [] ∧ length (evaluations new) = length (rows result) ∧
    tclReturn (run_page codeObj a future st).1 = TCL_OK ∧
    array_free a (loop_interp (run_page codeObj a future st).1) ∧
    columnCount (run_page codeObj a future st).1
    = Some (default (length (column_names result)) (columnCount st)) ∧
    (run_page codeObj a future st).2 = false.
Proof.
  intros Hbody Hkeeps Hok Hfree Herr Hres Hconv. unfold run_page. rewrite Herr, Hres.
  match goal with |- context [process_rows _ _ _ ?n _ ?s] =>
    destruct (process_rows_continuing codeObj a result n (rows result) Hbody s)
      as (new & Hev & Hexec & Hlen);
    destruct (process_rows_clean codeObj a result n (rows result) Hbody Hkeeps s)
      as [Hrc Hfree']; [done | done |];
    pose proof (process_rows_columnCount codeObj a result n (rows result) s) as Hcount end.
  exists new. cbn [fst snd events tclReturn columnCount] in *. split_and!; try done.
  - by rewrite Hev, <- app_assoc.
  - by rewrite Hrc.
Qed.

(** The page with the value that does not convert. *)
Lemma run_page_unconvertible codeObj a future result before row after i st :
  (∀ interp, (codeObj interp).1 = TCL_OK ∨ (codeObj interp).1 = TCL_CONTINUE) →
  error_code future = CASS_OK → future_result future = Some result →
  rows result = before ++ row :: after →
  unconvertible row i →
  i < default (length (column_names result)) (columnCount st) →
  ∃ new,
    events (run_page codeObj a future st).1 = events st ++ Executed future :: new ∧
    executions new = [] ∧ length (evaluations new) = length (rows result) ∧
    tclReturn (run_page codeObj a future st).1 = TCL_ERROR ∧
    (run_page codeObj a future st).2 = false.
Proof.
  intros Hbody Herr Hres Hrows Hrow Hi. unfold run_page. rewrite Herr, Hres.
  match goal with |- context [process_rows _ _ _ ?n _ ?s] =>
    destruct (process_rows_continuing codeObj a result n (rows result) Hbody s)
      as (new & Hev & Hexec & Hlen) end.
  exists new. cbn [fst snd events] in *. split_and!; try done.
  - by rewrite Hev, <- app_assoc.
  - rewrite Hrows. eapply process_rows_unconvertible; [done | done |].
    by destruct (columnCount st).
Qed.

(** The do-while loop when the pages before that page go through. *)
Lemma fetch_pages_unconvertible codeObj a future later result before row after i :
  (∀ interp, (codeObj interp).1 = TCL_OK ∨ (codeObj interp).1 = TCL_CONTINUE) →
  (∀ interp, array_free a interp → array_free a (codeObj interp).2) →
  error_code future = CASS_OK → future_result future = Some result →
  rows result = before ++ row :: after →
  unconvertible row i →
  ∀ earlier pages st,
    futures pages = earlier ++ future :: later →
    tclReturn st = TCL_OK → array_free a (loop_interp st) →
    Forall answered earlier →
    Forall (fun future => Forall (Forall converts) (page_rows future)) earlier →
    (∀ result0, future_result (first_future pages) = Some result0 →
       i < default (length (column_names result0)) (columnCount st)) →
    ∃ new,
      events (fetch_pages codeObj a pages st) = events st ++ new ∧
      executions new = earlier ++ [future] ∧
      length (evaluations new)
      = length (concat (page_rows <$> earlier)) + length (rows result) ∧
      tclReturn (fetch_pages codeObj a pages st) = TCL_ERROR.
Proof.
  intros Hbody Hkeeps Herr Hres Hrows Hrow.
  induction earlier as [|first earlier IH]; intros pages st Hpages Hok Hfree Hans Hconv Hi.
  - assert (Hfirst : first_future pages = future)
      by (destruct pages; cbn in Hpages |- *; congruence).
    rewrite Hfirst in Hi. specialize (Hi result Hres).
    destruct (run_page_unconvertible codeObj a future result before row after i st)
      as (new & Hev & Hexec & Hlen & Hrc & Hbroke); try done.
    assert (Hfetch : fetch_pages codeObj a pages st = (run_page codeObj a future st).1).
    { destruct pages as [f|f pages]; cbn [futures app] in Hpages;
        injection Hpages as -> Hlater; cbn [fetch_pages]; [done|].
      destruct (run_page codeObj a future st) as [st1 broke]. cbn [fst snd] in *.
      subst broke. by rewrite decide_False by (by rewrite Hrc). }
    rewrite Hfetch. exists (Executed future :: new).
    split_and!; try done;
      first [by rewrite executions_executed, Hexec | by rewrite evaluations_executed, Hlen].
  - apply Forall_cons in Hans as [[Herr1 [result1 Hres1]] Hans].
    apply Forall_cons in Hconv as [Hconv1 Hconv].
    destruct pages as [f|f pages]; cbn [futures app] in Hpages.
    { injection Hpages as _ Hnil. by destruct earlier. }
    injection Hpages as -> Hpages. cbn [first_future] in Hi.
    specialize (Hi result1 Hres1).
    unfold page_rows in Hconv1. rewrite Hres1 in Hconv1.
    destruct (run_page_clean codeObj a first result1 st)
      as (new & Hev & Hexec & Hlen & Hrc & Hfree1 & Hcount & Hbroke); try done.
    cbn [fetch_pages]. destruct (run_page codeObj a first st) as [st1 broke].
    cbn [fst snd] in *. subst broke. rewrite decide_True by done.
    destruct (IH pages st1 Hpages Hrc Hfree1 Hans Hconv)
      as (new2 & Hev2 & Hexec2 & Hlen2 & Hrc2).
    { intros result0 _. by rewrite Hcount. }
    exists ((Executed first :: new) ++ new2). split_and!; [| | | done].
    + by rewrite Hev2, Hev, <- app_assoc.
    + by rewrite executions_app, executions_executed, Hexec, Hexec2.
    + rewrite evaluations_app, length_app, evaluations_executed, Hlen, Hlen2.
      cbn [fmap list_fmap concat]. rewrite length_app.
      unfold page_rows at 2. rewrite Hres1. lia.
Qed.

(** X17: a value that does not convert does not stop the rows of its
    page, whichever page that is.  When the consistency level is accepted,
    the array name is not that of a scalar (and the body leaves it so), the
    body answers ok or continue, and the pages before that page were
    answered and their values converted, the body is evaluated for every
    row of those pages, and still for the row with that value and for every
    other row of its page; the call then returns [TCL_ERROR] without
    executing the next page.  The column of the value is one of the columns
    counted on the first page (lines 198-200). *)
Theorem conversion_failure_does_not_skip_the_body ct query arrayName codeObj pagingSize c
    earlier future later result0 result before row after i :
  (∀ level, c = Some level → consistency_error level = CASS_OK) →
  (∀ interp, (codeObj interp).1 = TCL_OK ∨ (codeObj interp).1 = TCL_CONTINUE) →
  array_free arrayName (interp ct) →
  (∀ interp, array_free arrayName interp → array_free arrayName (codeObj interp).2) →
  futures (session ct query pagingSize) = earlier ++ future :: later →
  Forall answered earlier →
  Forall (fun future => Forall (Forall converts) (page_rows future)) earlier →
  error_code future = CASS_OK →
  future_result future = Some result →
  rows result = before ++ row :: after →
  unconvertible row i →
  future_result (first_future (session ct query pagingSize)) = Some result0 →
  i < length (column_names result0) →
  let r := casstcl_select ct query arrayName codeObj pagingSize c in
  code r = TCL_ERROR ∧
  executions (trace r) = earlier ++ [future] ∧
  length (evaluations (trace r))
  = length (concat (page_rows <$> earlier)) + length (rows result).
Proof.
  intros Hcons Hbody Hfree Hkeeps Hpages Hans Hconv Herr Hres Hrows Hrow Hfirst Hi.
  unfold casstcl_select.
  rewrite set_consistency_accepted by done. rewrite decide_True by done.
  destruct (fetch_pages_unconvertible codeObj arrayName future later result before row after i
              Hbody Hkeeps Herr Hres Hrows Hrow earlier (session ct query pagingSize)
              (mkLoop (interp ct) TCL_OK None []))
    as (new & Hev & Hexec & Hlen & Hrc); try done.
  { intros result1 Hres1. cbn [columnCount from_option id]. congruence. }
  cbn [events app] in Hev. cbn [code trace]. rewrite Hev, Hrc.
  by rewrite decide_False by done.
Qed.

(** *** The row in the array *)

Lemma get_after_set a interp name obj interp' :
  Tcl_SetVar2Ex interp a name obj = Some interp' →
  Tcl_GetVar2Ex interp' a name = Some obj ∧
  (∀ other, other ≠ name → Tcl_GetVar2Ex interp' a other = Tcl_GetVar2Ex interp a other) ∧
  (∀ v, v ≠ a → vars interp' !! v = vars interp !! v).
Proof.
  unfold Tcl_SetVar2Ex, Tcl_GetVar2Ex.
  destruct (vars interp !! a) as [[scalar|elems]|] eqn:E; [done| |];
    intros [= <-]; cbn [vars set_vars]; rewrite lookup_insert_eq; split_and!.
  - apply lookup_insert_eq.
  - intros other Hne. by apply lookup_insert_ne.
  - intros v Hne. by apply lookup_insert_ne.
  - apply lookup_singleton_eq.
  - intros other Hne. by apply lookup_singleton_ne.
  - intros v Hne. by apply lookup_insert_ne.
Qed.

Lemma get_after_unset a interp name :
  Tcl_GetVar2Ex (Tcl_UnsetVar2 interp a name) a name = None ∧
  (∀ other, other ≠ name →
     Tcl_GetVar2Ex (Tcl_UnsetVar2 interp a name) a other = Tcl_GetVar2Ex interp a other) ∧
  (∀ v, v ≠ a → vars (Tcl_UnsetVar2 interp a name) !! v = vars interp !! v).
Proof.
  unfold Tcl_UnsetVar2, Tcl_GetVar2Ex.
  destruct (vars interp !! a) as [[scalar|elems]|] eqn:E; cbn [vars set_vars];
    rewrite ?E, ?lookup_insert_eq; split_and!; try done.
  - apply lookup_delete_eq.
  - intros other Hne. by apply lookup_delete_ne.
  - intros v Hne. by apply lookup_insert_ne.
Qed.

(** The loop over the columns, from column [start] on: what the array holds
    afterwards. *)
Lemma set_columns_stored a result row :
  ∀ count start interp rc,
  NoDup (take count (drop start (column_names result))) →
  start + count ≤ length (column_names result) →
  array_free a interp → Forall converts row →
  ∃ interp',
    set_columns a result row start count interp rc = (interp', rc) ∧
    (∀ j name, start ≤ j < start + count → column_names result !! j = Some name →
       Tcl_GetVar2Ex interp' a name = stored row j) ∧
    (∀ name, name ∉ take count (drop start (column_names result)) →
       Tcl_GetVar2Ex interp' a name = Tcl_GetVar2Ex interp a name) ∧
    (∀ v, v ≠ a → vars interp' !! v = vars interp !! v).
Proof.
  induction count as [|count IH]; intros start interp rc Hdup Hlen Hfree Hrow.
  { exists interp. split_and!; try done. intros j name Hj. lia. }
  destruct (lookup_lt_is_Some_2 (column_names result) start) as [n0 Hn0]; [lia|].
  rewrite (drop_S _ n0) in * by done. cbn [take] in *.
  apply NoDup_cons in Hdup as [Hn0_out Hdup].
  assert (Hnext : ∀ interp1,
            array_free a interp1 →
            Tcl_GetVar2Ex interp1 a n0 = stored row start →
            (∀ other, other ≠ n0 →
               Tcl_GetVar2Ex interp1 a other = Tcl_GetVar2Ex interp a other) →
            (∀ v, v ≠ a → vars interp1 !! v = vars interp !! v) →
            ∃ interp',
              set_columns a result row (S start) count interp1 rc = (interp', rc) ∧
              (∀ j name, start ≤ j < start + S count → column_names result !! j = Some name →
                 Tcl_GetVar2Ex interp' a name = stored row j) ∧
              (∀ name, name ∉ n0 :: take count (drop (S start) (column_names result)) →
                 Tcl_GetVar2Ex interp' a name = Tcl_GetVar2Ex interp a name) ∧
              (∀ v, v ≠ a → vars interp' !! v = vars interp !! v)).
  { intros interp1 Hfree1 Hhere Hothers Hvars.
    destruct (IH (S start) interp1 rc Hdup ltac:(lia) Hfree1 Hrow)
      as (interp' & Hrun & Hlater & Hrest & Hvars').
    exists interp'. split_and!; [done | | |].
    - intros j name Hj Hname. destruct (decide (j = start)) as [->|Hne].
      + assert (name = n0) as -> by congruence.
        rewrite Hrest by done. done.
      + apply Hlater; [lia | done].
    - intros name Hname. apply not_elem_of_cons in Hname as [Hne Hname].
      rewrite Hrest by done. by apply Hothers.
    - intros v Hv. rewrite Hvars' by done. by apply Hvars. }
  cbn [set_columns]. rewrite Hn0. cbn [from_option id].
  unfold stored in Hnext.
  destruct (row !! start) as [value|] eqn:Hvalue; cbn [from_option id].
  2:{ cbn [null_value cass_value_is_null].
      destruct (get_after_unset a interp n0) as (Hhere & Hothers & Hvars).
      apply Hnext; [by apply array_free_unset2 | done..]. }
  destruct (cass_value_is_null value) eqn:Hnull.
  { destruct (get_after_unset a interp n0) as (Hhere & Hothers & Hvars).
    apply Hnext; [by apply array_free_unset2 | done..]. }
  assert (Hconv : converts value)
    by (apply (proj1 (Forall_forall _ _) Hrow); by eapply list_elem_of_lookup_2).
  unfold converts in Hconv. unfold casstcl_cass_value_to_tcl_obj.
  destruct (value_to_obj value) as [rc' obj]. cbn [fst snd] in *.
  rewrite decide_False by done.
  destruct obj as [newObj|].
  - destruct (Tcl_SetVar2Ex_free a interp n0 newObj Hfree) as (interp2 & Hset & Hfree2).
    rewrite Hset.
    destruct (get_after_set a interp n0 newObj interp2 Hset) as (Hhere & Hothers & Hvars).
    destruct rc'; try done; by apply Hnext.
  - destruct (get_after_unset a interp n0) as (Hhere & Hothers & Hvars).
    destruct rc'; try done; (apply Hnext; [by apply array_free_unset2 | done..]).
Qed.

(** X18: the loop over the columns, when the column names are distinct,
    the values convert and the array is not a scalar, leaves in the array,
    for each column, the value of the row as it converts, or no element when
    the value is null or has no host value; elements under other names and
    other variables stay as they are. *)
Theorem row_is_stored_in_the_array arrayName result row count interp rc :
  NoDup (take count (column_names result)) →
  count ≤ length (column_names result) →
  array_free arrayName interp → Forall converts row →
  ∃ interp',
    set_columns arrayName result row 0 count interp rc = (interp', rc) ∧
    (∀ j name, j < count → column_names result !! j = Some name →
       Tcl_GetVar2Ex interp' arrayName name = stored row j) ∧
    (∀ name, name ∉ take count (column_names result) →
       Tcl_GetVar2Ex interp' arrayName name = Tcl_GetVar2Ex interp arrayName name) ∧
    (∀ v, v ≠ arrayName → vars interp' !! v = vars interp !! v).
Proof.
  intros Hdup Hlen Hfree Hrow.
  destruct (set_columns_stored arrayName result row count 0 interp rc)
    as (interp' & Hrun & Hhere & Hrest & Hvars); try done.
  exists interp'. split_and!; try done.
  intros j name Hj. apply Hhere. lia.
Qed.

End SelectCoverage.

(** *** More queries on [ks.users] *)

Section SelectCoverageExamples.
Import Select Fixture.
#[local] Existing Instance users.

Lemma users_convert (pages : list CassFuture) :
  Forall (fun future => Forall (Forall converts) (page_rows future)) pages.
Proof.
  apply Forall_forall. intros future _. apply Forall_forall. intros row _.
  apply Forall_forall. intros value _. intros Hx. discriminate Hx.
Qed.

Lemma interp0_array_free a : array_free a interp0.
Proof.
  intros value Hx. unfold interp0 in Hx. cbn [vars] in Hx.
  rewrite lookup_empty in Hx. discriminate Hx.
Qed.

Lemma every_row_of_every_page_is_evaluated_witness :
  let r := casstcl_select ten_rows_session "SELECT id, name FROM ks.users" "row"
             (always TCL_OK) 5 None in
  code r = TCL_OK ∧
  executions (trace r) = futures ten_rows ∧
  length (evaluations (trace r)) = 10.
Proof.
  assert (Hcons : ∀ level, (None : option CassConsistency) = Some level →
                           consistency_error level = CASS_OK)
    by (intros level Hlevel; discriminate Hlevel).
  assert (Hans : Forall answered (futures ten_rows))
    by (repeat constructor; by eexists).
  exact (every_row_of_every_page_is_evaluated ten_rows_session
           "SELECT id, name FROM ks.users" "row" (always TCL_OK) 5 None
           Hcons (interp0_array_free "row") (fun _ => or_introl eq_refl) (fun _ Hfree => Hfree)
           Hans (users_convert _)).
Defined.


Lemma failed_execution_ends_the_query_witness :
  let r := casstcl_select five_rows_then_unavailable "SELECT id, name FROM ks.users" "row"
             (always TCL_OK) 5 None in
  last (trace r) = Some (Executed unavailable) ∧
  length (executions (trace r)) = 2 ∧
  code r = TCL_ERROR ∧
  (1 = 0 → trace r = [Executed unavailable] ∧ evaluations (trace r) = []).
Proof.
  assert (Herr : error_code unavailable ≠ CASS_OK) by discriminate.
  exact (failed_execution_ends_the_query five_rows_then_unavailable
           "SELECT id, name FROM ks.users" "row" (always TCL_OK) 5 None 1 unavailable
           eq_refl Herr).
Defined.

Lemma array_is_unset_when_the_loop_is_left_witness :
  let r := casstcl_select ten_rows_session "SELECT id, name FROM ks.users" "row"
             (breaks_at "3") 5 None in
  (trace r ≠ [] →
   vars (interp_after r) !! "row" = None ∧
   ∀ name, Tcl_GetVar2Ex (interp_after r) "row" name = None) ∧
  (trace r = [] → code r = TCL_ERROR ∧ vars (interp_after r) = vars interp0).
Proof.
  exact (array_is_unset_when_the_loop_is_left ten_rows_session
           "SELECT id, name FROM ks.users" "row" (breaks_at "3") 5 None).
Defined.

Lemma row_is_stored_in_the_array_witness :
  ∃ interp',
    set_columns "row" (mkResult ["id"; "name"] []) nameless_row 0 2 stale_interp TCL_OK
    = (interp', TCL_OK) ∧
    (∀ j name, j < 2 → ["id"; "name"] !! j = Some name →
       Tcl_GetVar2Ex interp' "row" name = stored nameless_row j) ∧
    (∀ name, name ∉ ["id"; "name"] →
       Tcl_GetVar2Ex interp' "row" name = Tcl_GetVar2Ex stale_interp "row" name) ∧
    (∀ v, v ≠ "row" → vars interp' !! v = vars stale_interp !! v).
Proof.
  assert (Hdup : NoDup (take 2 (column_names (mkResult ["id"; "name"] []))))
    by (apply (bool_decide_unpack _); vm_compute; exact I).
  assert (Hlen : 2 ≤ length (column_names (mkResult ["id"; "name"] []))) by (cbn; lia).
  assert (Hfree : array_free "row" stale_interp).
  { intros value Hx. vm_compute in Hx. discriminate Hx. }
  assert (Hrow : Forall converts nameless_row)
    by (repeat constructor; intros Hx; discriminate Hx).
  exact (row_is_stored_in_the_array "row" (mkResult ["id"; "name"] []) nameless_row 2
           stale_interp TCL_OK Hdup Hlen Hfree Hrow).
Defined.

End SelectCoverageExamples.

(** *** A query in the stricter setting *)

Section SelectStrictExamples.
Import Select Fixture.
#[local] Existing Instance strict.

(** The value that does not convert is on the second of three pages. *)
Lemma conversion_failure_does_not_skip_the_body_witness :
  let r := casstcl_select late_custom_session "SELECT id, name FROM ks.users" "row"
             (always TCL_OK) 3 None in
  code r = TCL_ERROR ∧
  executions (trace r)
  = [users_page [user_row "8" "Hal"; user_row "9" "Ida"]] ++
    [mkFuture CASS_OK "" (Some custom_result)] ∧
  length (evaluations (trace r))
  = length (concat (page_rows <$> [users_page [user_row "8" "Hal"; user_row "9" "Ida"]]))
    + length (rows custom_result).
Proof.
  assert (Hcons : ∀ level, (None : option CassConsistency) = Some level →
                           consistency_error level = CASS_OK)
    by (intros level Hlevel; discriminate Hlevel).
  assert (Hfree : array_free "row" (interp late_custom_session)).
  { intros value Hx. vm_compute in Hx. discriminate Hx. }
  assert (Hans : Forall answered [users_page [user_row "8" "Hal"; user_row "9" "Ida"]])
    by (repeat constructor; by eexists).
  assert (Hconv : Forall (fun future => Forall (Forall converts) (page_rows future))
                    [users_page [user_row "8" "Hal"; user_row "9" "Ida"]])
    by (repeat constructor; intros Hx; discriminate Hx).
  assert (Hrow : unconvertible custom_row 1).
  { exists (mkValue CASS_VALUE_TYPE_CUSTOM false "?"). by split_and!. }
  assert (Hi : 1 < length (column_names
                             (mkResult ["id"; "name"] [user_row "8" "Hal"; user_row "9" "Ida"])))
    by (cbn; lia).
  exact (conversion_failure_does_not_skip_the_body late_custom_session
           "SELECT id, name FROM ks.users" "row" (always TCL_OK) 3 None
           [users_page [user_row "8" "Hal"; user_row "9" "Ida"]]
           (mkFuture CASS_OK "" (Some custom_result))
           [users_page [user_row "4" "Dee"]]
           (mkResult ["id"; "name"] [user_row "8" "Hal"; user_row "9" "Ida"])
           custom_result [user_row "1" "Ann"] custom_row [user_row "3" "Cid"] 1
           Hcons (fun _ => or_introl eq_refl) Hfree (fun _ Hf => Hf) eq_refl Hans Hconv
           eq_refl eq_refl eq_refl Hrow eq_refl Hi).
Defined.

End SelectStrictExamples.


(** ** More on the schema introspector *)

Section ColumnsCoverage.
Context `{Collaborators}.
Import Columns.

(** *** Names that are not in the schema *)

Lemma find_entry_None entries name :
  name ∉ meta_name <$> entries → find_entry entries name = None.
Proof.
  induction entries as [|meta entries IH]; [done|].
  cbn [fmap list_fmap find_entry]. intros Hout.
  apply not_elem_of_cons in Hout as [Hne Hout].
  rewrite decide_False by done. by apply IH.
Qed.

Lemma find_entry_Some entries name :
  name ∈ meta_name <$> entries →
  ∃ meta, find_entry entries name = Some meta ∧ meta ∈ entries ∧ meta_name meta = name.
Proof.
  induction entries as [|meta entries IH]; cbn [fmap list_fmap find_entry]; intros Hin.
  - by apply not_elem_of_nil in Hin.
  - destruct (decide (meta_name meta = name)) as [Heq|Hne].
    + exists meta. split_and!; [done | apply list_elem_of_here | done].
    + apply elem_of_cons in Hin as [Hin|Hin]; [done|].
      destruct (IH Hin) as (meta' & Hfind & Hmem & Hname).
      exists meta'. split_and!; [done | by apply list_elem_of_further | done].
Qed.

(** X19: a keyspace that is not in the schema is reported by the listing
    of tables and by the listing of columns with the message naming it, and a
    table that is not in its keyspace with the message naming both; no list
    is handed out. *)
Theorem unknown_names_are_reported interp schema keyspace table includeTypes :
  (keyspace ∉ meta_name <$> schema →
   casstcl_list_tables interp schema keyspace
   = Returned (TCL_ERROR, set_result ("keyspace '" +:+ keyspace +:+ "' not found") interp,
               None) ∧
   casstcl_list_columns interp schema keyspace table includeTypes
   = Returned (TCL_ERROR, set_result ("keyspace '" +:+ keyspace +:+ "' not found") interp,
               None)) ∧
  (∀ keyspaceMeta,
     cass_schema_get_keyspace schema keyspace = Some keyspaceMeta →
     table ∉ meta_name <$> cass_iterator_from_schema_meta keyspaceMeta →
     casstcl_list_columns interp schema keyspace table includeTypes
     = Returned
         (TCL_ERROR,
          set_result
            ("table '" +:+ table +:+ "' not found in keyspace '" +:+ keyspace +:+ "'")
            interp,
          None)).
Proof.
  split.
  - intros Hout. unfold casstcl_list_tables, casstcl_list_columns, cass_schema_get_keyspace.
    rewrite find_entry_None by done. by split.
  - intros keyspaceMeta Hks Hout. unfold casstcl_list_columns, cass_schema_meta_get_entry.
    rewrite Hks. unfold cass_iterator_from_schema_meta in Hout.
    rewrite find_entry_None by done. done.
Qed.

(** *** What is listed can be listed further *)

Lemma list_keyspaces_loop_names keyspaces :
  Forall (named_by "keyspace_name") keyspaces →
  ∀ listObj,
    list_keyspaces_loop keyspaces listObj = Some (listObj ++ (meta_name <$> keyspaces)).
Proof.
  induction 1 as [|meta keyspaces (fieldValue & Hfield & Hname) _ IH]; intros listObj.
  - cbn. by rewrite app_nil_r.
  - cbn [list_keyspaces_loop fmap list_fmap]. rewrite Hfield, Hname, IH.
    by rewrite <- app_assoc.
Qed.

Lemma list_tables_loop_names tables :
  Forall table_entry tables →
  ∀ listObj,
    list_tables_loop tables listObj = Returned (listObj ++ (meta_name <$> tables)).
Proof.
  induction 1 as [|meta tables [Htype (fieldValue & Hfield & Hname)] _ IH]; intros listObj.
  - cbn. by rewrite app_nil_r.
  - cbn [list_tables_loop fmap list_fmap]. rewrite decide_True by done.
    rewrite Hfield, Hname, IH. by rewrite <- app_assoc.
Qed.

(** X20: when every keyspace carries its name in the field
    [keyspace_name], the listing of keyspaces returns the names in the order
    of the iterator, and the listing of tables finds the keyspace of every
    name listed. *)
Theorem listed_keyspaces_are_found interp schema :
  Forall (named_by "keyspace_name") schema →
  casstcl_list_keyspaces schema = Some (TCL_OK, meta_name <$> schema) ∧
  ∀ keyspace, keyspace ∈ meta_name <$> schema →
    ∃ keyspaceMeta,
      cass_schema_get_keyspace schema keyspace = Some keyspaceMeta ∧
      meta_name keyspaceMeta = keyspace ∧
      casstcl_list_tables interp schema keyspace
      = match list_tables_loop (cass_iterator_from_schema_meta keyspaceMeta) [] with
        | Returned listObj => Returned (TCL_OK, interp, Some listObj)
        | AssertionFailed condition => AssertionFailed condition
        end.
Proof.
  intros Hnamed. split.
  - unfold casstcl_list_keyspaces. by rewrite list_keyspaces_loop_names.
  - intros keyspace Hin.
    destruct (find_entry_Some schema keyspace Hin) as (keyspaceMeta & Hfind & _ & Hname).
    exists keyspaceMeta. unfold casstcl_list_tables, cass_schema_get_keyspace.
    by rewrite Hfind.
Qed.

(** X21: when every entry of a keyspace is a table that carries its name
    in the field [columnfamily_name], the listing of tables succeeds with
    the names in the order of the iterator and leaves the interpreter as it
    is, and the listing of columns finds the table of every name listed. *)
Theorem listed_tables_are_found interp schema keyspace keyspaceMeta includeTypes :
  cass_schema_get_keyspace schema keyspace = Some keyspaceMeta →
  Forall table_entry (cass_iterator_from_schema_meta keyspaceMeta) →
  casstcl_list_tables interp schema keyspace
  = Returned (TCL_OK, interp, Some (meta_name <$> cass_iterator_from_schema_meta keyspaceMeta))
  ∧ ∀ table, table ∈ meta_name <$> cass_iterator_from_schema_meta keyspaceMeta →
      ∃ tableMeta,
        cass_schema_meta_get_entry keyspaceMeta table = Some tableMeta ∧
        casstcl_list_columns interp schema keyspace table includeTypes
        = finish_listing
            (list_columns_loop includeTypes (cass_iterator_from_schema_meta tableMeta)
               interp []).
Proof.
  intros Hks Htables. split.
  - unfold casstcl_list_tables. rewrite Hks. by rewrite list_tables_loop_names.
  - intros table Hin.
    destruct (find_entry_Some _ table Hin) as (tableMeta & Hfind & _ & _).
    exists tableMeta. unfold casstcl_list_columns, cass_schema_meta_get_entry.
    unfold cass_iterator_from_schema_meta in Hfind. by rewrite Hks, Hfind.
Qed.

(** *** Columns with their types *)

(** The loop on a list of entries, in two parts. *)
Lemma list_columns_loop_app includeTypes before rest :
  ∀ interp listObj,
  list_columns_loop includeTypes (before ++ rest) interp listObj =
  match list_columns_loop includeTypes before interp listObj with
  | Returned (TCL_OK, interp1, listObj1) => list_columns_loop includeTypes rest interp1 listObj1
  | other => other
  end.
Proof.
  induction before as [|entry before IH]; intros interp listObj; [done|].
  cbn [app list_columns_loop].
  repeat (match goal with
          | |- context [decide ?P] => destruct (decide P)
          | |- context [match cass_schema_meta_get_field ?e ?f with _ => _ end] =>
              destruct (cass_schema_meta_get_field e f)
          | |- context [match Tcl_GetVar2Ex ?i ?a ?n with _ => _ end] =>
              destruct (Tcl_GetVar2Ex i a n)
          | |- context [Tcl_EvalObjv_validator_to_type ?i ?n] =>
              destruct (Tcl_EvalObjv_validator_to_type i n)
          | |- context [if ?b then _ else _] => is_var b; destruct b
          end; try done); apply IH.
Qed.

(** When the type of every column is in the cache, the loop lists names
    and types and leaves the interpreter as it is. *)
Lemma list_columns_loop_cached entries :
  ∀ interp listObj,
  Forall (type_is_cached interp) entries →
  list_columns_loop true entries interp listObj
  = Returned (TCL_OK, interp, listObj ++ cached_types interp entries).
Proof.
  induction entries as [|entry entries IH]; intros interp listObj Hall.
  - cbn. by rewrite app_nil_r.
  - apply Forall_cons in Hall as [(Htype & fieldValue & Hfield & Hcached) Hall].
    cbn [list_columns_loop cached_types flat_map]. fold (cached_types interp entries).
    unfold cached_type. rewrite decide_True by done. rewrite Hfield.
    destruct (decide (cass_value_type fieldValue = CASS_VALUE_TYPE_VARCHAR)) as [Hshape|Hshape].
    + destruct (Hcached Hshape) as (validator & Hvalidator & [elementObj Hcache]).
      rewrite Hvalidator. cbn [mbind option_bind].
      unfold validatorTypeLookupCache in *. rewrite Hcache. cbn [from_option id].
      rewrite IH by done. by rewrite <- !app_assoc.
    + by rewrite IH by done.
Qed.

(** X22: when the type of every column is in the lookup cache, the
    listing with types succeeds with the names, each followed by its cached
    type, and resets the result; the Tcl procedure is not evaluated, and the
    list is twice as long as the list of names. *)
Theorem types_come_from_the_cache interp schema keyspace table keyspaceMeta tableMeta :
  cass_schema_get_keyspace schema keyspace = Some keyspaceMeta →
  cass_schema_meta_get_entry keyspaceMeta table = Some tableMeta →
  Forall (type_is_cached interp) (cass_iterator_from_schema_meta tableMeta) →
  casstcl_list_columns interp schema keyspace table true
  = Returned (TCL_OK, Tcl_ResetResult interp,
              Some (cached_types interp (cass_iterator_from_schema_meta tableMeta)))
  ∧ length (cached_types interp (cass_iterator_from_schema_meta tableMeta))
    = 2 * length (varchar_names (cass_iterator_from_schema_meta tableMeta)).
Proof.
  intros Hks Htable Hcached. split.
  - unfold casstcl_list_columns. rewrite Hks, Htable.
    by rewrite list_columns_loop_cached.
  - clear. induction (cass_iterator_from_schema_meta tableMeta) as [|entry entries IH];
      [done|].
    cbn [cached_types flat_map varchar_names omap list_omap].
    fold (cached_types interp entries). fold (varchar_names entries).
    rewrite length_app, IH. unfold cached_type.
    destruct (cass_schema_meta_get_field entry "column_name") as [fieldValue|]; [|cbn; lia].
    destruct (decide (cass_value_type fieldValue = CASS_VALUE_TYPE_VARCHAR)); cbn; lia.
Qed.

(** X23: when the Tcl procedure fails on the validator of a column, the
    listing returns [TCL_ERROR] with the interpreter as the procedure left
    it; the list handed out ends with the name of that column, without a
    type, and the columns after it are not visited. *)
Theorem failed_type_lookup_keeps_the_partial_list interp schema keyspace table
    keyspaceMeta tableMeta before entry after interp1 listObj1 fieldValue validator interp2 :
  cass_schema_get_keyspace schema keyspace = Some keyspaceMeta →
  cass_schema_meta_get_entry keyspaceMeta table = Some tableMeta →
  cass_iterator_from_schema_meta tableMeta = before ++ entry :: after →
  list_columns_loop true before interp [] = Returned (TCL_OK, interp1, listObj1) →
  cass_schema_meta_type entry = CASS_SCHEMA_META_TYPE_COLUMN →
  cass_schema_meta_get_field entry "column_name" = Some fieldValue →
  cass_value_type fieldValue = CASS_VALUE_TYPE_VARCHAR →
  cass_schema_meta_get_field entry "validator" = Some validator →
  Tcl_GetVar2Ex interp1 validatorTypeLookupCache (cass_value_get_string validator) = None →
  validator_to_type interp1 (cass_value_get_string validator) = (TCL_ERROR, interp2) →
  casstcl_list_columns interp schema keyspace table true
  = Returned (TCL_ERROR, interp2, Some (listObj1 ++ [cass_value_get_string fieldValue])).
Proof.
  intros Hks Htable Hentries Hbefore Htype Hfield Hshape Hvalidator Hcache Heval.
  unfold casstcl_list_columns. rewrite Hks, Htable, Hentries.
  rewrite list_columns_loop_app, Hbefore. cbn [list_columns_loop].
  rewrite decide_True by done. rewrite Hfield. rewrite decide_True by done.
  rewrite Hvalidator. unfold validatorTypeLookupCache in Hcache. rewrite Hcache.
  unfold Tcl_EvalObjv_validator_to_type. rewrite Heval.
  by rewrite decide_True by done.
Qed.

End ColumnsCoverage.

(** *** The schema of the shop *)

Section ColumnsCoverageExamples.
Import Columns Fixture.
#[local] Existing Instance strict.

Lemma unknown_names_are_reported_witness :
  casstcl_list_tables interp0 shop_schema "store"
  = Returned (TCL_ERROR, set_result "keyspace 'store' not found" interp0, None) ∧
  casstcl_list_columns interp0 shop_schema "store" "users" true
  = Returned (TCL_ERROR, set_result "keyspace 'store' not found" interp0, None) ∧
  casstcl_list_columns interp0 shop_schema "shop" "carts" false
  = Returned
      (TCL_ERROR, set_result "table 'carts' not found in keyspace 'shop'" interp0, None).
Proof.
  assert (Hks : "store" ∉ meta_name <$> shop_schema).
  { intros Hin. cbn in Hin.
    repeat (apply elem_of_cons in Hin as [Hin|Hin]; [discriminate Hin|]).
    by apply not_elem_of_nil in Hin. }
  assert (Htable : "carts" ∉ meta_name <$> cass_iterator_from_schema_meta shop).
  { intros Hin. cbn in Hin.
    repeat (apply elem_of_cons in Hin as [Hin|Hin]; [discriminate Hin|]).
    by apply not_elem_of_nil in Hin. }
  destruct (unknown_names_are_reported interp0 shop_schema "store" "users" true)
    as [Hmissing _].
  destruct (unknown_names_are_reported interp0 shop_schema "shop" "carts" false)
    as [_ Hcarts].
  destruct (Hmissing Hks) as [Htables Hcolumns].
  split; [exact Htables|]. split; [exact Hcolumns|].
  exact (Hcarts shop eq_refl Htable).
Defined.

Lemma listed_keyspaces_are_found_witness :
  casstcl_list_keyspaces shop_schema = Some (TCL_OK, ["system"; "shop"]) ∧
  ∀ keyspace, keyspace ∈ ["system"; "shop"] →
    ∃ keyspaceMeta,
      cass_schema_get_keyspace shop_schema keyspace = Some keyspaceMeta ∧
      meta_name keyspaceMeta = keyspace ∧
      casstcl_list_tables interp0 shop_schema keyspace
      = match list_tables_loop (cass_iterator_from_schema_meta keyspaceMeta) [] with
        | Returned listObj => Returned (TCL_OK, interp0, Some listObj)
        | AssertionFailed condition => AssertionFailed condition
        end.
Proof.
  assert (Hnamed : Forall (named_by "keyspace_name") shop_schema).
  { repeat constructor; by eexists. }
  exact (listed_keyspaces_are_found interp0 shop_schema Hnamed).
Defined.

Lemma listed_tables_are_found_witness :
  casstcl_list_tables interp0 shop_schema "shop"
  = Returned (TCL_OK, interp0, Some ["users"; "orders"])
  ∧ ∀ table, table ∈ ["users"; "orders"] →
      ∃ tableMeta,
        cass_schema_meta_get_entry shop table = Some tableMeta ∧
        casstcl_list_columns interp0 shop_schema "shop" table false
        = finish_listing
            (list_columns_loop false (cass_iterator_from_schema_meta tableMeta) interp0 []).
Proof.
  assert (Htables : Forall table_entry (cass_iterator_from_schema_meta shop)).
  { repeat constructor; by eexists. }
  exact (listed_tables_are_found interp0 shop_schema "shop" shop false eq_refl Htables).
Defined.

Lemma types_come_from_the_cache_witness :
  casstcl_list_columns cached_interp shop_schema "shop" "users" true
  = Returned (TCL_OK, Tcl_ResetResult cached_interp, Some ["id"; "uuid"; "name"; "text"])
  ∧ length ["id"; "uuid"; "name"; "text"] = 2 * length ["id"; "name"].
Proof.
  assert (Hcached : Forall (type_is_cached cached_interp)
                      (cass_iterator_from_schema_meta shop_users)).
  { repeat constructor.
    - eexists. split; [reflexivity|]. intros _. eexists. split; [reflexivity|]. by eexists.
    - eexists. split; [reflexivity|]. intros Hx. discriminate Hx.
    - eexists. split; [reflexivity|]. intros _. eexists. split; [reflexivity|]. by eexists. }
  exact (types_come_from_the_cache cached_interp shop_schema "shop" "users" shop shop_users
           eq_refl eq_refl Hcached).
Defined.

Lemma failed_type_lookup_keeps_the_partial_list_witness :
  casstcl_list_columns cached_interp shop_schema "shop" "orders" true
  = Returned
      (TCL_ERROR, set_result "unknown validator org.example.Mystery" cached_interp,
       Some (["id"; "uuid"] ++ ["total"])).
Proof.
  exact (failed_type_lookup_keeps_the_partial_list cached_interp shop_schema "shop" "orders"
           shop shop_orders
           [column_entry "id" "org.apache.cassandra.db.marshal.UUIDType"]
           (column_entry "total" "org.example.Mystery")
           [column_entry "note" "org.apache.cassandra.db.marshal.UTF8Type"]
           cached_interp ["id"; "uuid"] (text_value "total") (text_value "org.example.Mystery")
           (set_result "unknown validator org.example.Mystery" cached_interp)
           eq_refl eq_refl eq_refl eq_refl eq_refl eq_refl eq_refl eq_refl eq_refl eq_refl).
Defined.

End ColumnsCoverageExamples.


(** ** The statement of a command line *)

Section StatementCoverage.
Import Statement.
Context `{Collaborators} `{StatementCollaborators}.

(** The option loop on the words of written options, followed by more
    words: each option is read into the locals. *)
Lemma parse_options_read interp ws more :
  Forall readable ws →
  ∀ l, parse_options interp (written_words ws ++ more) l
       = parse_options interp more (foldl read l ws).
Proof.
  intros Hws. induction Hws as [|w ws Hw _ IH]; intros l; [done|].
  destruct w as [name|name|name|level];
    cbn [written_words flat_map words_of app foldl]; fold (written_words ws).
  - change (parse_options interp ("-array" :: name :: written_words ws ++ more) l)
      with (parse_options interp (written_words ws ++ more) (read l (Array name))).
    apply IH.
  - change (parse_options interp ("-table" :: name :: written_words ws ++ more) l)
      with (parse_options interp (written_words ws ++ more) (read l (Table name))).
    apply IH.
  - change (parse_options interp ("-prepared" :: name :: written_words ws ++ more) l)
      with (parse_options interp (written_words ws ++ more) (read l (Prepared name))).
    apply IH.
  - rewrite <- IH. cbn [parse_options starts_with_dash].
    change (bool_decide ("-"%char = "-"%char)) with true. cbn iota.
    change (Tcl_GetIndexFromObj "-consistency") with (@inl _ string OPT_CONSISTENCY).
    cbn iota. unfold read. cbn in Hw.
    destruct (decide (0 < String.length level)) as [Hlen|Hlen].
    + destruct Hw as [Hempty|[stored Hstored]]; [lia|]. by rewrite Hstored.
    + by destruct (obj_to_cass_consistency level).
Qed.

(** The loop is left at words that end the options. *)
Lemma parse_options_ends interp rest l :
  ends_options rest → parse_options interp rest l = options_done interp l rest.
Proof.
  destruct rest as [|word rest]; [done|]. cbn. by intros ->.
Qed.

Lemma parse_options_written interp ws rest :
  Forall readable ws → ends_options rest →
  ∀ l, parse_options interp (written_words ws ++ rest) l
       = options_done interp (foldl read l ws) rest.
Proof.
  intros Hws Hrest l. rewrite parse_options_read by done. by apply parse_options_ends.
Qed.

(** The locals after the options were read, in closed form. *)
Lemma foldl_read ws : foldl read locals0 ws = locals_of ws.
Proof.
  induction ws as [|w ws IH] using rev_ind; [done|].
  rewrite foldl_app, IH. cbn [foldl]. unfold locals_of, array_names, table_names,
    prepared_names, levels, stored_levels. rewrite !omap_app.
  destruct w as [name|name|name|level]; cbn [omap list_omap read arrayStyle arrayName
    tableName preparedName consistencyObj consistency];
    rewrite ?app_nil_r, ?last_snoc; try done.
  - f_equal. symmetry. apply bool_decide_eq_true_2.
    intros Hnil. apply app_eq_nil in Hnil as [Hnil _]. by apply app_eq_nil in Hnil as [_ ?].
  - f_equal. symmetry. apply bool_decide_eq_true_2.
    intros Hnil. apply app_eq_nil in Hnil as [_ Hnil]. by apply app_eq_nil in Hnil as [_ ?].
  - f_equal. unfold converted.
    destruct (obj_to_cass_consistency level) as [stored|msg];
      destruct (decide (0 < String.length level));
      cbn [from_option]; rewrite ?app_nil_r, ?last_snoc; done.
Qed.

(** The words [Tcl_WrongNumArgs] keeps. *)
Lemma kept_words (leading more : list Tcl_Obj) :
  take (if decide (length leading ≤ 2) then length leading else 2) (leading ++ more)
  = take 2 leading.
Proof.
  destruct (decide (length leading ≤ 2)).
  - rewrite take_app_length. by rewrite take_ge by lia.
  - rewrite take_app_le by lia. done.
Qed.

(** The call on a command line: some leading words, options, and words
    that end the options. *)
Lemma make_statement_written interp leading ws rest :
  Forall readable ws → ends_options rest →
  casstcl_make_statement_from_objv interp (leading ++ written_words ws ++ rest)
    (length leading)
  = dispatch interp (take 2 leading) (locals_of ws) rest.
Proof.
  intros Hws Hrest. unfold casstcl_make_statement_from_objv.
  rewrite kept_words, drop_app_length, parse_options_written by done.
  by rewrite foldl_read.
Qed.

Lemma pointer_of_locals ws : consistencyPtr (locals_of ws) = pointer_of ws.
Proof. reflexivity. Qed.

(** X24: [-prepared] written together with [-array] or [-table], in any
    order, is refused with the message that they cannot be used together,
    before the prepared statement is looked up and whatever words follow the
    options. *)
Theorem prepared_excludes_array_and_table interp leading ws rest :
  Forall readable ws → ends_options rest →
  prepared_names ws ≠ [] → array_names ws ++ table_names ws ≠ [] →
  casstcl_make_statement_from_objv interp (leading ++ written_words ws ++ rest)
    (length leading)
  = Failed (set_result "-prepared cannot be used with -table / -array" interp).
Proof.
  intros Hws Hrest Hprepared Hstyle. rewrite make_statement_written by done.
  unfold dispatch, locals_of. cbn [preparedName arrayStyle].
  destruct (last (prepared_names ws)) as [name|] eqn:Hlast.
  2:{ by apply last_None in Hlast. }
  by rewrite bool_decide_eq_true_2 by done.
Qed.

(** X25: without [-prepared], a query with [-array] but no [-table] is
    refused, and so is one with [-table] but no [-array], each with its
    message; with both, the binder of names from an array is called with the
    table and the array written last, the query and the words after it. *)
Theorem array_and_table_go_together interp leading ws query objv :
  Forall readable ws → starts_with_dash query = false →
  prepared_names ws = [] →
  let r := casstcl_make_statement_from_objv interp
             (leading ++ written_words ws ++ query :: objv) (length leading) in
  (array_names ws ≠ [] → table_names ws = [] →
   r = Failed (set_result "-table must be specified if -array is specified" interp)) ∧
  (table_names ws ≠ [] → array_names ws = [] →
   r = Failed (set_result "-array must be specified if -table is specified" interp)) ∧
  (∀ table array,
     last (table_names ws) = Some table → last (array_names ws) = Some array →
     r = Calls interp (casstcl_bind_names_from_array table query array objv (pointer_of ws))).
Proof.
  intros Hws Hquery Hprepared r. subst r.
  rewrite make_statement_written by done.
  unfold dispatch. rewrite pointer_of_locals. unfold locals_of.
  cbn [preparedName arrayStyle tableName arrayName]. rewrite Hprepared. cbn [last].
  split_and!.
  - intros Harray Htable. rewrite Htable, app_nil_r.
    by rewrite bool_decide_eq_true_2 by done.
  - intros Htable Harray. rewrite Harray. cbn [app last].
    rewrite bool_decide_eq_true_2 by done.
    destruct (last (table_names ws)) as [table|] eqn:Hlast; [done|].
    by apply last_None in Hlast.
  - intros table array Htable Harray. rewrite Htable, Harray.
    rewrite bool_decide_eq_true_2; [done|].
    intros Hnil. apply app_eq_nil in Hnil as [Hnil _]. by rewrite Hnil in Harray.
Qed.

(** X26: for a prepared statement, no word after the options binds an
    empty list, one word is the list of pairs (refused when it has an odd
    number of elements), and two or more words are refused with the usage of
    [-prepared]. *)
Theorem prepared_takes_at_most_one_list interp leading ws name pcd :
  Forall readable ws →
  last (prepared_names ws) = Some name →
  array_names ws ++ table_names ws = [] →
  prepared_command interp name = Some pcd →
  casstcl_make_statement_from_objv interp (leading ++ written_words ws) (length leading)
  = Calls interp (casstcl_bind_names_from_prepared pcd [] (pointer_of ws)) ∧
  (∀ listObj listObjv,
     starts_with_dash listObj = false →
     Tcl_ListObjGetElements listObj = inl listObjv →
     casstcl_make_statement_from_objv interp (leading ++ written_words ws ++ [listObj])
       (length leading)
     = if Nat.odd (length listObjv)
       then Failed (set_result "list must contain an even number of elements" interp)
       else Calls interp (casstcl_bind_names_from_prepared pcd listObjv (pointer_of ws))) ∧
  (∀ first second more,
     starts_with_dash first = false →
     casstcl_make_statement_from_objv interp
       (leading ++ written_words ws ++ first :: second :: more) (length leading)
     = Failed (Tcl_WrongNumArgs interp (take 2 leading) "-prepared prepared ?list?")).
Proof.
  intros Hws Hname Hstyle Hpcd.
  assert (Hstart : ∀ rest, dispatch interp (take 2 leading) (locals_of ws) rest =
            match rest with
            | [] => Calls interp (casstcl_bind_names_from_prepared pcd [] (pointer_of ws))
            | [listObj] =>
                match Tcl_ListObjGetElements listObj with
                | inr msg =>
                    Failed
                      (Tcl_AppendResult (set_result msg interp)
                         [" while parsing list of column-value pairs"])
                | inl listObjv =>
                    if Nat.odd (length listObjv) then
                      Failed
                        (Tcl_AppendResult (Tcl_ResetResult interp)
                           ["list must contain an even number of elements"])
                    else
                      Calls interp
                        (casstcl_bind_names_from_prepared pcd listObjv (pointer_of ws))
                end
            | _ => Failed (Tcl_WrongNumArgs interp (take 2 leading)
                             "-prepared prepared ?list?")
            end).
  { intros rest. unfold dispatch. rewrite pointer_of_locals. unfold locals_of.
    cbn [preparedName arrayStyle]. rewrite Hname, Hstyle.
    rewrite bool_decide_eq_false_2 by (intros Hx; by apply Hx). by rewrite Hpcd. }
  split_and!.
  - rewrite <- (app_nil_r (written_words ws)).
    rewrite make_statement_written by done. apply Hstart.
  - intros listObj listObjv Hdash Hparse.
    rewrite make_statement_written by done. rewrite Hstart, Hparse.
    by destruct (Nat.odd (length listObjv)).
  - intros first second more Hdash.
    rewrite make_statement_written by done. by rewrite Hstart.
Qed.

(** X27: an option that is the last word, with no value after it, is
    refused with the usage message, and so is a command line that has only
    options and none of them [-prepared]. *)
Theorem incomplete_command_lines_get_the_usage interp leading ws :
  Forall readable ws →
  (∀ option, option ∈ ["-array"; "-table"; "-prepared"; "-consistency"] →
     casstcl_make_statement_from_objv interp (leading ++ written_words ws ++ [option])
       (length leading)
     = Failed (Tcl_WrongNumArgs interp (take 2 leading) usage)) ∧
  (prepared_names ws = [] →
   casstcl_make_statement_from_objv interp (leading ++ written_words ws) (length leading)
   = Failed (Tcl_WrongNumArgs interp (take 2 leading) usage)).
Proof.
  intros Hws. split.
  - intros option Hoption. unfold casstcl_make_statement_from_objv.
    rewrite kept_words, drop_app_length, parse_options_read by done.
    repeat (apply elem_of_cons in Hoption as [->|Hoption]; [done|]).
    by apply not_elem_of_nil in Hoption.
  - intros Hprepared. rewrite <- (app_nil_r (written_words ws)).
    rewrite make_statement_written by done.
    unfold dispatch, locals_of. cbn [preparedName]. by rewrite Hprepared.
Qed.

(** X28: the first word after the options that starts with a dash and is
    not one of the four options is refused with the message of
    [Tcl_GetIndexFromObj] naming it, so a query cannot start with a dash. *)
Theorem unknown_statement_option_is_refused interp leading ws word more :
  Forall readable ws →
  starts_with_dash word = true →
  word ∉ ["-array"; "-table"; "-prepared"; "-consistency"] →
  casstcl_make_statement_from_objv interp (leading ++ written_words ws ++ word :: more)
    (length leading)
  = Failed
      (set_result
         ("bad option " +:+ dquote +:+ word +:+ dquote +:+
          ": must be -array, -table, -prepared, or -consistency") interp).
Proof.
  intros Hws Hdash Hword.
  apply not_elem_of_cons in Hword as [H1 Hword].
  apply not_elem_of_cons in Hword as [H2 Hword].
  apply not_elem_of_cons in Hword as [H3 Hword].
  apply not_elem_of_cons in Hword as [H4 _].
  unfold casstcl_make_statement_from_objv.
  rewrite kept_words, drop_app_length, parse_options_read by done.
  cbn [parse_options]. rewrite Hdash. unfold Tcl_GetIndexFromObj.
  by rewrite !decide_False by done.
Qed.

Lemma stored_levels_empty ws :
  (∀ level, level ∈ levels ws → level = "") → stored_levels ws = [].
Proof.
  induction ws as [|w ws IH]; [done|]. intros Hempty.
  unfold stored_levels, levels in *. cbn [omap list_omap] in *.
  destruct w as [name|name|name|level]; try (by apply IH).
  rewrite (Hempty level) by apply list_elem_of_here.
  change (converted "") with (@None CassConsistency). apply IH.
  intros level' Hin. apply Hempty. by apply list_elem_of_further.
Qed.

(** X29: a query without [-array], [-table] and [-prepared] goes to the
    binder of values and types with the words after it untouched, also those
    that look like options; the consistency pointer is NULL when no
    [-consistency] was written, and points to the local that was never
    assigned when every level written is empty. *)
Theorem plain_queries_keep_their_arguments interp leading ws query objv :
  Forall readable ws → starts_with_dash query = false →
  prepared_names ws = [] → array_names ws ++ table_names ws = [] →
  casstcl_make_statement_from_objv interp (leading ++ written_words ws ++ query :: objv)
    (length leading)
  = Calls interp (casstcl_bind_values_and_types query objv (pointer_of ws))
  ∧ (levels ws = [] → pointer_of ws = NULL)
  ∧ (levels ws ≠ [] → (∀ level, level ∈ levels ws → level = "") →
     pointer_of ws = address_of None).
Proof.
  intros Hws Hquery Hprepared Hstyle. split_and!.
  - rewrite make_statement_written by done.
    unfold dispatch. rewrite pointer_of_locals. unfold locals_of.
    cbn [preparedName arrayStyle]. rewrite Hprepared, Hstyle. cbn [last].
    by rewrite bool_decide_eq_false_2 by (intros Hx; by apply Hx).
  - intros Hnone. unfold pointer_of. by rewrite Hnone.
  - intros Hsome Hempty. unfold pointer_of.
    rewrite stored_levels_empty by done.
    destruct (last (levels ws)) as [level|] eqn:Hlast; [done|].
    by apply last_None in Hlast.
Qed.

End StatementCoverage.

(** *** Command lines of a cass object *)

Section StatementCoverageExamples.
Import Statement Fixture.
#[local] Existing Instance users.
#[local] Existing Instance prepared_users.

Ltac all_readable := repeat (apply Forall_cons; split; [cbn; eauto|]); apply Forall_nil_2.

Lemma prepared_excludes_array_and_table_witness :
  casstcl_make_statement_from_objv interp0
    ["::cass0"; "exec"; "-array"; "row"; "-prepared"; "nothing_prepared"; "id 1"] 2
  = Failed (set_result "-prepared cannot be used with -table / -array" interp0).
Proof.
  assert (Hws : Forall readable [Array "row"; Prepared "nothing_prepared"])
    by all_readable.
  assert (Hprepared : prepared_names [Array "row"; Prepared "nothing_prepared"] ≠ [])
    by discriminate.
  assert (Hstyle : array_names [Array "row"; Prepared "nothing_prepared"] ++
                   table_names [Array "row"; Prepared "nothing_prepared"] ≠ [])
    by discriminate.
  exact (prepared_excludes_array_and_table interp0 ["::cass0"; "exec"]
           [Array "row"; Prepared "nothing_prepared"] ["id 1"] Hws eq_refl Hprepared Hstyle).
Defined.

Lemma array_and_table_go_together_witness :
  let r := casstcl_make_statement_from_objv interp0
             ["::cass0"; "exec"; "-array"; "row";
              "INSERT INTO ks.users (id, name) VALUES (?, ?)"; "id"; "name"] 2 in
  (array_names [Array "row"] ≠ [] → table_names [Array "row"] = [] →
   r = Failed (set_result "-table must be specified if -array is specified" interp0)) ∧
  (table_names [Array "row"] ≠ [] → array_names [Array "row"] = [] →
   r = Failed (set_result "-array must be specified if -table is specified" interp0)) ∧
  (∀ table array,
     last (table_names [Array "row"]) = Some table →
     last (array_names [Array "row"]) = Some array →
     r = Calls interp0
           (casstcl_bind_names_from_array table
              "INSERT INTO ks.users (id, name) VALUES (?, ?)" array ["id"; "name"]
              (pointer_of [Array "row"]))).
Proof.
  assert (Hws : Forall readable [Array "row"]) by all_readable.
  exact (array_and_table_go_together interp0 ["::cass0"; "exec"] [Array "row"]
           "INSERT INTO ks.users (id, name) VALUES (?, ?)" ["id"; "name"]
           Hws eq_refl eq_refl).
Defined.

Lemma prepared_takes_at_most_one_list_witness :
  casstcl_make_statement_from_objv interp0
    ["::cass0"; "exec"; "-prepared"; "insert_user"; "-consistency"; "quorum"] 2
  = Calls interp0
      (casstcl_bind_names_from_prepared "INSERT INTO ks.users (id, name) VALUES (?, ?)" []
         (address_of (Some CASS_CONSISTENCY_QUORUM))) ∧
  (∀ listObj listObjv,
     starts_with_dash listObj = false →
     Tcl_ListObjGetElements listObj = inl listObjv →
     casstcl_make_statement_from_objv interp0
       (["::cass0"; "exec"] ++
        written_words [Prepared "insert_user"; Consistency "quorum"] ++ [listObj]) 2
     = if Nat.odd (length listObjv)
       then Failed (set_result "list must contain an even number of elements" interp0)
       else Calls interp0
              (casstcl_bind_names_from_prepared
                 "INSERT INTO ks.users (id, name) VALUES (?, ?)" listObjv
                 (address_of (Some CASS_CONSISTENCY_QUORUM)))) ∧
  (∀ first second more,
     starts_with_dash first = false →
     casstcl_make_statement_from_objv interp0
       (["::cass0"; "exec"] ++
        written_words [Prepared "insert_user"; Consistency "quorum"] ++
        first :: second :: more) 2
     = Failed (Tcl_WrongNumArgs interp0 ["::cass0"; "exec"] "-prepared prepared ?list?")).
Proof.
  assert (Hws : Forall readable [Prepared "insert_user"; Consistency "quorum"])
    by all_readable.
  exact (prepared_takes_at_most_one_list interp0 ["::cass0"; "exec"]
           [Prepared "insert_user"; Consistency "quorum"] "insert_user"
           "INSERT INTO ks.users (id, name) VALUES (?, ?)" Hws eq_refl eq_refl eq_refl).
Defined.

Lemma incomplete_command_lines_get_the_usage_witness :
  (∀ option, option ∈ ["-array"; "-table"; "-prepared"; "-consistency"] →
     casstcl_make_statement_from_objv interp0
       (["::cass0"; "select"] ++ written_words [Consistency "one"] ++ [option]) 2
     = Failed (Tcl_WrongNumArgs interp0 ["::cass0"; "select"] usage)) ∧
  (prepared_names [Consistency "one"] = [] →
   casstcl_make_statement_from_objv interp0 ["::cass0"; "select"; "-consistency"; "one"] 2
   = Failed (Tcl_WrongNumArgs interp0 ["::cass0"; "select"] usage)).
Proof.
  assert (Hws : Forall readable [Consistency "one"]) by all_readable.
  exact (incomplete_command_lines_get_the_usage interp0 ["::cass0"; "select"]
           [Consistency "one"] Hws).
Defined.

Lemma unknown_statement_option_is_refused_witness :
  casstcl_make_statement_from_objv interp0
    ["::cass0"; "exec"; "-consistency"; "one"; "-- a comment"; "SELECT now()"] 2
  = Failed
      (set_result
         ("bad option " +:+ dquote +:+ "-- a comment" +:+ dquote +:+
          ": must be -array, -table, -prepared, or -consistency") interp0).
Proof.
  assert (Hws : Forall readable [Consistency "one"]) by all_readable.
  assert (Hword : "-- a comment" ∉ ["-array"; "-table"; "-prepared"; "-consistency"]).
  { intros Hin. repeat (apply elem_of_cons in Hin as [Hin|Hin]; [discriminate Hin|]).
    by apply not_elem_of_nil in Hin. }
  exact (unknown_statement_option_is_refused interp0 ["::cass0"; "exec"]
           [Consistency "one"] "-- a comment" ["SELECT now()"] Hws eq_refl Hword).
Defined.

Lemma plain_queries_keep_their_arguments_witness :
  casstcl_make_statement_from_objv interp0
    ["::cass0"; "exec"; "-consistency"; ""; "SELECT now()"; "-array"; "row"] 2
  = Calls interp0
      (casstcl_bind_values_and_types "SELECT now()" ["-array"; "row"] (address_of None))
  ∧ (levels [Consistency ""] = [] → pointer_of [Consistency ""] = NULL)
  ∧ (levels [Consistency ""] ≠ [] →
     (∀ level, level ∈ levels [Consistency ""] → level = "") →
     pointer_of [Consistency ""] = address_of None).
Proof.
  assert (Hws : Forall readable [Consistency ""]) by all_readable.
  exact (plain_queries_keep_their_arguments interp0 ["::cass0"; "exec"] [Consistency ""]
           "SELECT now()" ["-array"; "row"] Hws eq_refl eq_refl eq_refl).
Defined.

End StatementCoverageExamples.


(** ** The command that makes cass objects *)

Section CassObjCoverage.
Import CassObj.
Context `{LogCollaborators}.

Lemma string_take_all (s : string) : string_take (String.length s) s = s.
Proof. induction s as [|c s IH]; [done|]. cbn. by rewrite IH. Qed.

Lemma string_length_app (a b : string) :
  String.length (a +:+ b) = String.length a + String.length b.
Proof. induction a as [|c a IH]; [done|]. cbn. by rewrite <- IH. Qed.

(** The buffer is as long as the name: nothing of it is cut off. *)
Lemma snprintf_fits (objName : string) (counter : N) :
  snprintf (String.length objName + String.length (pretty counter) + 1)
    (objName +:+ pretty counter)
  = automatic_name objName counter.
Proof.
  unfold snprintf, automatic_name.
  replace (String.length objName + String.length (pretty counter) + 1 - 1)
    with (String.length (objName +:+ pretty counter))
    by (rewrite string_length_app; lia).
  apply string_take_all.
Qed.

(** One object made with [create #auto]. *)
Lemma create_auto objName w :
  casstcl_cassObjCmd w [objName; "create"; "#auto"] =
  (TCL_OK,
   mkWorld (set_result (automatic_name objName (nextAutoCounter w)) (world_interp w))
     (<[automatic_name objName (nextAutoCounter w) := sessions w]> (commands w))
     (S (sessions w)) (S (event_sources w))
     ((nextAutoCounter w + 1) mod 2 ^ ULONG_WIDTH)%N
     (casstcl_loggingCallbackObj w) (log_callback w) (log_level w)).
Proof.
  unfold casstcl_cassObjCmd.
  change (Tcl_GetIndexFromObj "create") with (@inl _ string OPT_CREATE). cbn iota.
  change (bool_decide ("#auto" = "#auto")) with true. cbn iota zeta.
  by rewrite snprintf_fits.
Qed.

Lemma automatic_name_inj objName : Inj (=) (=) (automatic_name objName).
Proof.
  intros x y Heq. unfold automatic_name in Heq.
  apply (String.app_inj objName) in Heq. by apply (inj pretty) in Heq.
Qed.

(** Objects made in a row, below the wrap of the counter. *)
Lemma create_autos_spec objName count :
  ∀ w,
  (nextAutoCounter w + N.of_nat count ≤ 2 ^ ULONG_WIDTH)%N →
  let names := (create_autos objName count w).1 in
  let w' := (create_autos objName count w).2 in
  names = (fun i => automatic_name objName (nextAutoCounter w + N.of_nat i)) <$> seq 0 count ∧
  (∀ i name, names !! i = Some name → commands w' !! name = Some (sessions w + i)) ∧
  (∀ name, name ∉ names → commands w' !! name = commands w !! name) ∧
  sessions w' = sessions w + count.
Proof.
  induction count as [|count IH]; intros w Hroom; cbv zeta.
  { cbn. split_and!; (done || lia). }
  cbn [create_autos]. rewrite create_auto. cbn [snd world_interp result set_result].
  set (w1 := mkWorld _ _ _ _ _ _ _ _).
  destruct count as [|count].
  { cbn [create_autos fst snd fmap list_fmap seq]. rewrite N.add_0_r.
    split_and!.
    - done.
    - intros i name Hi. destruct i as [|i]; [|done]. injection Hi as <-.
      cbn. rewrite lookup_insert_eq. f_equal. lia.
    - intros name Hname. apply not_elem_of_cons in Hname as [Hne _].
      cbn. by rewrite lookup_insert_ne.
    - cbn. lia. }
  assert (Hnext : nextAutoCounter w1 = (nextAutoCounter w + 1)%N).
  { cbn. apply N.mod_small. lia. }
  specialize (IH w1). rewrite Hnext in IH.
  destruct IH as (Hnames & Hfound & Hframe & Hsessions); [lia|].
  destruct (create_autos objName (S count) w1) as [names w2]. cbn [fst snd] in *.
  assert (Hall : automatic_name objName (nextAutoCounter w) :: names
                 = (fun i => automatic_name objName (nextAutoCounter w + N.of_nat i))
                     <$> seq 0 (S (S count))).
  { rewrite Hnames. change (seq 0 (S (S count))) with (0 :: seq 1 (S count)).
    rewrite fmap_cons, N.add_0_r. f_equal.
    rewrite <- (fmap_S_seq 0), <- list_fmap_compose.
    apply list_fmap_ext. intros _ i _. cbn. f_equal. lia. }
  assert (Hfresh : automatic_name objName (nextAutoCounter w) ∉ names).
  { rewrite Hnames. intros Hin. apply list_elem_of_fmap in Hin as (i & Heq & _).
    apply automatic_name_inj in Heq. lia. }
  split_and!.
  - done.
  - intros i name Hi. destruct i as [|i].
    + injection Hi as <-. rewrite Hframe by done. cbn.
      rewrite lookup_insert_eq. f_equal. lia.
    + cbn in Hi. rewrite (Hfound i name Hi). cbn. f_equal. lia.
  - intros name Hname. apply not_elem_of_cons in Hname as [Hne Hname].
    rewrite Hframe by done. cbn. by rewrite lookup_insert_ne.
  - rewrite Hsessions. cbn. lia.
Qed.

(** X30: objects made in a row with [create #auto], as long as the counter
    does not wrap, are named by the command name followed by the successive
    values of the counter, in full; the names are pairwise distinct, and
    each is left a command with a session of its own. *)
Theorem automatic_names_do_not_repeat objName count w :
  (nextAutoCounter w + N.of_nat count ≤ 2 ^ ULONG_WIDTH)%N →
  let names := (create_autos objName count w).1 in
  let w' := (create_autos objName count w).2 in
  names = (fun i => automatic_name objName (nextAutoCounter w + N.of_nat i)) <$> seq 0 count ∧
  NoDup names ∧
  (∀ i name, names !! i = Some name → commands w' !! name = Some (sessions w + i)).
Proof.
  intros Hroom.
  destruct (create_autos_spec objName count w Hroom) as (Hnames & Hfound & _ & _).
  cbv zeta. split_and!; [done | | done].
  rewrite Hnames. apply NoDup_fmap_2; [|apply NoDup_seq].
  intros i j Heq. apply automatic_name_inj in Heq. lia.
Qed.

End CassObjCoverage.

(** *** Three objects made in a row *)

Section CassObjCoverageExamples.
Import CassObj Fixture.
#[local] Existing Instance levels_by_name.

Lemma automatic_names_do_not_repeat_witness :
  let names := (create_autos "cass" 3 world0).1 in
  let w' := (create_autos "cass" 3 world0).2 in
  names = ["cass0"; "cass1"; "cass2"] ∧
  NoDup names ∧
  (∀ i name, names !! i = Some name → commands w' !! name = Some (0 + i)).
Proof.
  assert (Hroom : (nextAutoCounter world0 + N.of_nat 3 ≤ 2 ^ ULONG_WIDTH)%N)
    by (vm_compute; discriminate).
  exact (automatic_names_do_not_repeat "cass" 3 world0 Hroom).
Defined.

End CassObjCoverageExamples.
